(** * Block-CSR kernels, NNC sorting and backend interface of opm-simulators

    A shallow embedding of
    - [opm/simulators/linalg/bda/BlockedMatrix.cpp] (storage management, row
      sort and dense block kernels of the blocked CSR matrix),
    - [ebos/nncsorter.cpp] (sorting of NNC entries and application of EDITNNC
      multipliers),
    - the interface documented in [opm/simulators/linalg/bda/FPGASolverBackend.hpp],
    - [opm/core/linalg/LinearSolverPetsc.cpp] (the solver and preconditioner
      name tables, the transfer of a CSR system to PETSc and [solve]),
    - [applications/ebos/eclcpgridmanager.hh] (ownership of the simulation
      and EQUIL grids),
    followed by the properties established about them. *)

From Stdlib Require Import ZArith PrimFloat QArith Qcanon Field.
From stdpp Require Import base option list sorting gmap strings.

Local Open Scope nat_scope.

(** ** Scalars: the arithmetic of a C++ [double]

    The kernels only use [+], [-], [*], [/], unary minus and the literals
    [0.0] and [1.0].  They are written once over this interface and read at
    two instances: IEEE 754 binary64 (what the compiled code computes) and
    the rationals (exact arithmetic). *)

Class Scalar (F : Type) := {
  fzero : F;
  fone : F;
  fadd : F → F → F;
  fsub : F → F → F;
  fmul : F → F → F;
  fdiv : F → F → F;
  fopp : F → F
}.

(** binary64, the machine [double]. *)
#[export] Instance float_scalar : Scalar float := {|
  fzero := 0%float;
  fone := 1%float;
  fadd := PrimFloat.add;
  fsub := PrimFloat.sub;
  fmul := PrimFloat.mul;
  fdiv := PrimFloat.div;
  fopp := PrimFloat.opp
|}.

(** Canonical rationals: exact arithmetic with Leibniz equality. *)
#[export] Instance Qc_scalar : Scalar Qc := {|
  fzero := 0%Qc;
  fone := 1%Qc;
  fadd := Qcplus;
  fsub := Qcminus;
  fmul := Qcmult;
  fdiv := Qcdiv;
  fopp := Qcopp
|}.

(** A C [for (int i = 0; i < n; i++) body] loop over a state. *)
Definition for_loop {S : Type} (n : nat) (body : S → nat → S) (s : S) : S :=
  fold_left body (seq 0 n) s.

(** ** Outcomes of a call

    What running a function can lead to.  [Undefined] stands for the C++
    undefined behaviours the functions below can reach (an access outside an
    array, the use of a dangling or null pointer, a second [delete]);
    [OutOfFuel] is not a behaviour of the program, only of a recursive model
    given too small a step budget. *)

Inductive result (A : Type) : Type :=
  | Ok (a : A)
  | Thrown
  | Undefined
  | OutOfFuel.
Arguments Ok {A} a.
Arguments Thrown {A}.
Arguments Undefined {A}.
Arguments OutOfFuel {A}.

#[export] Instance result_ret : MRet result := @Ok.
#[export] Instance result_bind : MBind result := fun A B f x =>
  match x with
  | Ok a => f a
  | Thrown => Thrown
  | Undefined => Undefined
  | OutOfFuel => OutOfFuel
  end.

(** ** The C++ [int] (32 bits, two's complement) *)

Definition INT_MAX : Z := 2147483647.
Definition INT_MIN : Z := -2147483648.

(** The [int] a two's-complement machine leaves for the exact result [z]. *)
Definition wrap_int (z : Z) : Z := ((z + 2147483648) `mod` 4294967296 - 2147483648)%Z.

(** ** Dense block kernels ([BlockedMatrix.cpp], lines 99-153)

    A [Block] is the C array [double[BLOCK_SIZE * BLOCK_SIZE]], row-major.
    [BLOCK_SIZE] comes from [BlockedMatrix.hpp]; the two generic kernels are
    written for any value of it, [blockInvert3x3] is specific to 3.  The
    arguments of a kernel designate distinct blocks (as at the call site the
    source describes: [LUMat->nnzValues[ik]], [pivot], [LUMat->nnzValues[jk]]),
    so the output block is threaded as a value. *)

Abbreviation Block F := (list F) (only parsing).

Section BlockKernels.
Context {F : Type} `{Scalar F}.
Variable BLOCK_SIZE : nat.

(** [blk[i]] for an index inside the block. *)
Definition rd (blk : Block F) (i : nat) : F := default fzero (blk !! i).

(** The innermost loop shared by both products:
    [temp = 0; for k: temp += b[BLOCK_SIZE*row + k] * c[BLOCK_SIZE*k + col]]. *)
Definition dotRowCol (b c : Block F) (row col : nat) : F :=
  for_loop BLOCK_SIZE
    (fun temp k => fadd temp (fmul (rd b (BLOCK_SIZE * row + k)) (rd c (BLOCK_SIZE * k + col))))
    fzero.

(** [a = a - (b * c)] *)
Definition blockMultSub (a b c : Block F) : Block F :=
  for_loop BLOCK_SIZE (fun a row =>
    for_loop BLOCK_SIZE (fun a col =>
      let temp := dotRowCol b c row col in
      <[BLOCK_SIZE * row + col := fsub (rd a (BLOCK_SIZE * row + col)) temp]> a) a) a.

(** [resMat = mat1 * mat2] *)
Definition blockMult (mat1 mat2 resMat : Block F) : Block F :=
  for_loop BLOCK_SIZE (fun resMat row =>
    for_loop BLOCK_SIZE (fun resMat col =>
      let temp := dotRowCol mat1 mat2 row col in
      <[BLOCK_SIZE * row + col := temp]> resMat) resMat) resMat.

(** The determinant [det] computed inside [blockInvert3x3]. *)
Definition blockDet3x3 (mat : Block F) : F :=
  let t4 := fmul (rd mat 0) (rd mat 4) in
  let t6 := fmul (rd mat 0) (rd mat 5) in
  let t8 := fmul (rd mat 1) (rd mat 3) in
  let t10 := fmul (rd mat 2) (rd mat 3) in
  let t12 := fmul (rd mat 1) (rd mat 6) in
  let t14 := fmul (rd mat 2) (rd mat 6) in
  fsub (fadd (fadd (fsub (fsub (fmul t4 (rd mat 8)) (fmul t6 (rd mat 7)))
                         (fmul t8 (rd mat 8)))
                   (fmul t10 (rd mat 7)))
             (fmul t12 (rd mat 5)))
       (fmul t14 (rd mat 4)).

(** [blockInvert3x3(mat, res)]: the body has no branch and no [throw]. *)
Definition blockInvert3x3 (mat res : Block F) : Block F :=
  let t4 := fmul (rd mat 0) (rd mat 4) in
  let t6 := fmul (rd mat 0) (rd mat 5) in
  let t8 := fmul (rd mat 1) (rd mat 3) in
  let t10 := fmul (rd mat 2) (rd mat 3) in
  let t12 := fmul (rd mat 1) (rd mat 6) in
  let t14 := fmul (rd mat 2) (rd mat 6) in
  let det := blockDet3x3 mat in
  let t17 := fdiv fone det in
  let res := <[0 := fmul (fsub (fmul (rd mat 4) (rd mat 8)) (fmul (rd mat 5) (rd mat 7))) t17]> res in
  let res := <[1 := fmul (fopp (fsub (fmul (rd mat 1) (rd mat 8)) (fmul (rd mat 2) (rd mat 7)))) t17]> res in
  let res := <[2 := fmul (fsub (fmul (rd mat 1) (rd mat 5)) (fmul (rd mat 2) (rd mat 4))) t17]> res in
  let res := <[3 := fmul (fopp (fsub (fmul (rd mat 3) (rd mat 8)) (fmul (rd mat 5) (rd mat 6)))) t17]> res in
  let res := <[4 := fmul (fsub (fmul (rd mat 0) (rd mat 8)) t14) t17]> res in
  let res := <[5 := fmul (fopp (fsub t6 t10)) t17]> res in
  let res := <[6 := fmul (fsub (fmul (rd mat 3) (rd mat 7)) (fmul (rd mat 4) (rd mat 6))) t17]> res in
  let res := <[7 := fmul (fopp (fsub (fmul (rd mat 0) (rd mat 7)) t12)) t17]> res in
  let res := <[8 := fmul (fsub t4 t8) t17]> res in
  res.

End BlockKernels.

(** The nine factors that [blockInvert3x3] multiplies by [t17 = 1.0 / det]
    (the transposed cofactors of [mat], with the source's temporaries). *)
Definition blockAdjugate3x3 {F : Type} `{Scalar F} (mat : Block F) : Block F :=
  let t4 := fmul (rd mat 0) (rd mat 4) in
  let t6 := fmul (rd mat 0) (rd mat 5) in
  let t8 := fmul (rd mat 1) (rd mat 3) in
  let t10 := fmul (rd mat 2) (rd mat 3) in
  let t12 := fmul (rd mat 1) (rd mat 6) in
  let t14 := fmul (rd mat 2) (rd mat 6) in
  [ fsub (fmul (rd mat 4) (rd mat 8)) (fmul (rd mat 5) (rd mat 7));
    fopp (fsub (fmul (rd mat 1) (rd mat 8)) (fmul (rd mat 2) (rd mat 7)));
    fsub (fmul (rd mat 1) (rd mat 5)) (fmul (rd mat 2) (rd mat 4));
    fopp (fsub (fmul (rd mat 3) (rd mat 8)) (fmul (rd mat 5) (rd mat 6)));
    fsub (fmul (rd mat 0) (rd mat 8)) t14;
    fopp (fsub t6 t10);
    fsub (fmul (rd mat 3) (rd mat 7)) (fmul (rd mat 4) (rd mat 6));
    fopp (fsub (fmul (rd mat 0) (rd mat 7)) t12);
    fsub t4 t8 ].

(** What a caller of [blockInvert3x3] can observe.  The C++ function is
    [void] and contains no test of [det]: it always comes back with [res]
    filled in.  [NumericBreakdown] is the signal the specification speaks of. *)
Inductive InvertOutcome (F : Type) :=
  | Inverted (res : list F)
  | NumericBreakdown.
Arguments Inverted {F} res.
Arguments NumericBreakdown {F}.

Definition blockInvert3x3_outcome {F : Type} `{Scalar F} (mat res : Block F) : InvertOutcome F :=
  Inverted (blockInvert3x3 mat res).

(** The behaviour the specification words for inversion: a block whose
    determinant magnitude is below [eps] is reported, not inverted. *)
Definition invert_guarded_spec (eps : float) (mat res : Block float) : InvertOutcome float :=
  if PrimFloat.ltb (PrimFloat.abs (blockDet3x3 mat)) eps
  then NumericBreakdown
  else Inverted (blockInvert3x3 mat res).

(** The 3x3 identity block. *)
Definition identity3x3 {F : Type} `{Scalar F} : Block F :=
  [fone; fzero; fzero; fzero; fone; fzero; fzero; fzero; fone].

(** Sample blocks used below. *)

(** Binary64: a well-conditioned block of large entries, 2^664 (about
    7.7e199) times the identity; the products [t4 * mat[8]] overflow, [det]
    is infinite, [t17] is zero and the result is filled with NaN. *)
Definition big_diagonal : Block float :=
  [0x1p+664; 0; 0; 0; 0x1p+664; 0; 0; 0; 0x1p+664]%float.

(** Binary64: the block [1 2 3; 4 5 6; 7 8 x] where [x] is the double
    nearest to 9.00000001, that is 1266637396605327 / 2^47.  Its exact
    determinant is [-4222125 / 2^47], about -3e-8. *)
Definition near_singular : Block float :=
  [1; 2; 3; 4; 5; 6; 7; 8; 0x1.200000055e63cp+3]%float.
Definition near_singular_exact : Block Qc :=
  [Q2Qc 1; Q2Qc 2; Q2Qc 3; Q2Qc 4; Q2Qc 5; Q2Qc 6; Q2Qc 7; Q2Qc 8;
   Q2Qc (1266637396605327 # 140737488355328)].

(** ** Storage of a blocked matrix ([BlockedMatrix.cpp], lines 33-63)

    The free store is a finite map from addresses to the objects that
    [new] created and [delete] has not yet released.  A cell of an array
    made by [new T[n]] (no initializer) holds an indeterminate value until
    it is written: [None].  [BlockedMatrix.hpp] declares the structure with
    the five members the functions assign. *)

Inductive ptr := NULL | Ptr (a : positive).

Record BlockedMatrix := mkBlockedMatrix {
  nnzValues : ptr;
  colIndices : ptr;
  rowPointers : ptr;
  Nb : Z;
  nnzbs : Z
}.

Inductive object (F : Type) :=
  | BlockArray (blocks : list (list (option F)))
  | IntArray (ints : list (option Z))
  | Matrix (m : BlockedMatrix).
Arguments BlockArray {F} blocks.
Arguments IntArray {F} ints.
Arguments Matrix {F} m.

Abbreviation heap F := (gmap positive (object F)).

Definition is_array {F : Type} (o : option (object F)) : Prop :=
  match o with
  | Some (BlockArray _) | Some (IntArray _) => True
  | _ => False
  end.

Section Storage.
Context {F : Type}.
Variable BLOCK_SIZE : nat.

(** [new BlockedMatrix()]: value-initialized, all members zero. *)
Definition new_matrix (h : heap F) : heap F * positive :=
  let a := fresh (dom h) in
  (<[a := Matrix (mkBlockedMatrix NULL NULL NULL 0 0)]> h, a).

(** [new T[n]] without initializer; a negative length throws
    [std::bad_array_new_length]. *)
Definition new_array (h : heap F) (n : Z) (cells : nat → object F) : result (heap F * ptr) :=
  if (n <? 0)%Z then Thrown
  else let a := fresh (dom h) in Ok (<[a := cells (Z.to_nat n)]> h, Ptr a).

Definition new_Block_array (h : heap F) (n : Z) : result (heap F * ptr) :=
  new_array h n (fun n => BlockArray (replicate n (replicate (BLOCK_SIZE * BLOCK_SIZE) None))).

Definition new_int_array (h : heap F) (n : Z) : result (heap F * ptr) :=
  new_array h n (fun n => IntArray (replicate n None)).

(** [*p] for a [BlockedMatrix *p]. *)
Definition load_matrix (h : heap F) (p : ptr) : result BlockedMatrix :=
  match p with
  | NULL => Undefined
  | Ptr a => match h !! a with
             | Some (Matrix m) => Ok m
             | _ => Undefined
             end
  end.

(** [p->member = v], as the update [f] of the structure. *)
Definition store_matrix (h : heap F) (p : ptr) (f : BlockedMatrix → BlockedMatrix) : result (heap F) :=
  match p with
  | NULL => Undefined
  | Ptr a => match h !! a with
             | Some (Matrix m) => Ok (<[a := Matrix (f m)]> h)
             | _ => Undefined
             end
  end.

Definition set_nnzValues (v : ptr) (m : BlockedMatrix) : BlockedMatrix :=
  mkBlockedMatrix v (colIndices m) (rowPointers m) (Nb m) (nnzbs m).
Definition set_colIndices (v : ptr) (m : BlockedMatrix) : BlockedMatrix :=
  mkBlockedMatrix (nnzValues m) v (rowPointers m) (Nb m) (nnzbs m).
Definition set_rowPointers (v : ptr) (m : BlockedMatrix) : BlockedMatrix :=
  mkBlockedMatrix (nnzValues m) (colIndices m) v (Nb m) (nnzbs m).
Definition set_Nb (v : Z) (m : BlockedMatrix) : BlockedMatrix :=
  mkBlockedMatrix (nnzValues m) (colIndices m) (rowPointers m) v (nnzbs m).
Definition set_nnzbs (v : Z) (m : BlockedMatrix) : BlockedMatrix :=
  mkBlockedMatrix (nnzValues m) (colIndices m) (rowPointers m) (Nb m) v.

Definition allocateBlockedMatrix (h : heap F) (Nb nnzbs : Z) : result (heap F * ptr) :=
  let '(h, a) := new_matrix h in
  let mat := Ptr a in
  '(h, p) ← new_Block_array h nnzbs;
  h ← store_matrix h mat (set_nnzValues p);
  '(h, p) ← new_int_array h nnzbs;
  h ← store_matrix h mat (set_colIndices p);
  '(h, p) ← new_int_array h (wrap_int (Nb + 1));
  h ← store_matrix h mat (set_rowPointers p);
  h ← store_matrix h mat (set_Nb Nb);
  h ← store_matrix h mat (set_nnzbs nnzbs);
  Ok (h, mat).

(** [delete[] p]: nothing for a null pointer; releasing what is not a live
    array is undefined. *)
Definition delete_array (h : heap F) (p : ptr) : result (heap F) :=
  match p with
  | NULL => Ok h
  | Ptr a => match h !! a with
             | Some (BlockArray _) | Some (IntArray _) => Ok (delete a h)
             | _ => Undefined
             end
  end.

(** [delete p] for a [BlockedMatrix *p]. *)
Definition delete_matrix (h : heap F) (p : ptr) : result (heap F) :=
  match p with
  | NULL => Ok h
  | Ptr a => match h !! a with
             | Some (Matrix _) => Ok (delete a h)
             | _ => Undefined
             end
  end.

(** [freeBlockedMatrix(BlockedMatrix **mat)]: [star_mat] is the pointer
    held in the handle [*mat] at the call, the second component of the
    result is the pointer the handle holds afterwards. *)
Definition freeBlockedMatrix (h : heap F) (star_mat : ptr) : result (heap F * ptr) :=
  match star_mat with
  | NULL => Ok (h, star_mat)
  | Ptr _ =>
      m ← load_matrix h star_mat;
      h ← delete_array h (nnzValues m);
      m ← load_matrix h star_mat;
      h ← delete_array h (colIndices m);
      m ← load_matrix h star_mat;
      h ← delete_array h (rowPointers m);
      h ← delete_matrix h star_mat;
      Ok (h, NULL)
  end.

Definition soft_copyBlockedMatrix (h : heap F) (mat : ptr) : result (heap F * ptr) :=
  let '(h, a) := new_matrix h in
  let res := Ptr a in
  m ← load_matrix h mat;
  h ← store_matrix h res (set_nnzValues (nnzValues m));
  m ← load_matrix h mat;
  h ← store_matrix h res (set_colIndices (colIndices m));
  m ← load_matrix h mat;
  h ← store_matrix h res (set_rowPointers (rowPointers m));
  m ← load_matrix h mat;
  h ← store_matrix h res (set_Nb (Nb m));
  m ← load_matrix h mat;
  h ← store_matrix h res (set_nnzbs (nnzbs m));
  Ok (h, res).

(** A matrix that owns its storage: a live structure whose three members
    point to three different live arrays. *)
Definition owns_arrays (h : heap F) (a : positive) (m : BlockedMatrix) : Prop :=
  h !! a = Some (Matrix m) ∧
  ∃ v c r blocks cols rows,
    nnzValues m = Ptr v ∧ colIndices m = Ptr c ∧ rowPointers m = Ptr r ∧
    h !! v = Some (BlockArray blocks) ∧
    h !! c = Some (IntArray cols) ∧
    h !! r = Some (IntArray rows) ∧
    v ≠ c ∧ v ≠ r ∧ c ≠ r.

(** The wording of the specification for [allocate]: the three arrays hold
    zeros. *)
Definition zero_filled (zero : F) (h : heap F) (m : BlockedMatrix) : Prop :=
  ∃ v c r,
    nnzValues m = Ptr v ∧ colIndices m = Ptr c ∧ rowPointers m = Ptr r ∧
    h !! v = Some (BlockArray (replicate (Z.to_nat (nnzbs m))
                                 (replicate (BLOCK_SIZE * BLOCK_SIZE) (Some zero)))) ∧
    h !! c = Some (IntArray (replicate (Z.to_nat (nnzbs m)) (Some 0%Z))) ∧
    h !! r = Some (IntArray (replicate (Z.to_nat (Nb m + 1)) (Some 0%Z))).

End Storage.

(** A free store holding one matrix of two block rows and one block, with
    its arrays at addresses 2, 3 and 4. *)
Definition sample_matrix : BlockedMatrix := mkBlockedMatrix (Ptr 2) (Ptr 3) (Ptr 4) 2 1.
Definition sample_heap : heap float :=
  <[1%positive := Matrix sample_matrix]>
    (<[2%positive := BlockArray [[Some 1; Some 0; Some 0; Some 0; Some 1; Some 0;
                                  Some 0; Some 0; Some 1]%float]]>
      (<[3%positive := IntArray [Some 0%Z]]>
        (<[4%positive := IntArray [Some 0%Z; Some 1%Z; Some 1%Z]]> ∅))).

(** ** Sorting NNCs and applying EDITNNC ([ebos/nncsorter.cpp])

    [Opm::NNCdata] (declared in opm-common) carries the two cell indices of a
    non-neighbouring connection and its transmissibility. *)

Record NNCdata (F : Type) := mkNNCdata {
  cell1 : Z;
  cell2 : Z;
  trans : F
}.
Arguments mkNNCdata {F} cell1 cell2 trans.
Arguments cell1 {F} n.
Arguments cell2 {F} n.
Arguments trans {F} n.

(** The lambda [nncLess]. *)
Definition nncLess {F : Type} (d1 d2 : NNCdata F) : bool :=
  (cell1 d1 <? cell1 d2)%Z || ((cell1 d1 =? cell1 d2)%Z && (cell2 d1 <? cell2 d2)%Z).

(** [d1] does not come after [d2]: the order a range sorted with [nncLess]
    is in. *)
Definition nncLe {F : Type} (d1 d2 : NNCdata F) : Prop := nncLess d2 d1 = false.

#[export] Instance nncLe_dec {F : Type} : RelDecision (@nncLe F).
Proof. intros d1 d2. unfold nncLe. apply _. Defined.

(** What the C++ standard promises of [std::sort(first, last, comp)]: the
    range is rearranged into an order sorted by [comp].  The order of
    entries that [comp] does not tell apart is not specified, so the
    functions below take the sorting function as a parameter. *)
Definition sorts_by_nncLess {F : Type} (std_sort : list (NNCdata F) → list (NNCdata F)) : Prop :=
  ∀ l, std_sort l ≡ₚ l ∧ StronglySorted nncLe (std_sort l).

(** [std::lower_bound(first, end, value, nncLess)] on a range partitioned by
    [nncLess(_, value)], which a range sorted by [nncLess] is: the first
    position from [first] on whose entry is not less than [value], [end]
    when there is none. *)
Fixpoint lower_bound_from {F : Type} (range : list (NNCdata F)) (value : NNCdata F) (first : nat) : nat :=
  match range with
  | [] => first
  | d :: range => if nncLess d value then lower_bound_from range value (S first) else first
  end.

Definition lower_bound {F : Type} (nncData : list (NNCdata F)) (first : nat) (value : NNCdata F) : nat :=
  lower_bound_from (drop first nncData) value first.

Section NncSorter.
Context {F : Type} `{Scalar F}.
Variable std_sort : list (NNCdata F) → list (NNCdata F).

(** [*candidate], undefined for the past-the-end iterator. *)
Definition deref (nncData : list (NNCdata F)) (candidate : nat) : result (NNCdata F) :=
  match nncData !! candidate with
  | Some d => Ok d
  | None => Undefined
  end.

(** The state the loop over [editnncData] works on: the vector [nncData],
    the iterator [candidate] (as a position, [length nncData] for
    [nncData.end()]) and the warnings sent to [OpmLog] so far, each with the
    two cells it names. *)
Record EditState := mkEditState {
  nncData_of : list (NNCdata F);
  candidate_of : nat;
  warnings_of : list (Z * Z)
}.

Definition printNncWarning (st : EditState) (c1 c2 : Z) : EditState :=
  mkEditState (nncData_of st) (candidate_of st) (warnings_of st ++ [(c1, c2)]).

(** The inner [while] loop: [candidate] can advance at most
    [length nncData] times before it is [nncData.end()]. *)
Fixpoint multiplyWhile (steps : nat) (nncData : list (NNCdata F)) (candidate : nat)
    (edit : NNCdata F) : list (NNCdata F) :=
  match steps with
  | 0 => nncData
  | S steps =>
      match nncData !! candidate with
      | None => nncData
      | Some c =>
          if (cell1 c =? cell1 edit)%Z && (cell2 c =? cell2 edit)%Z
          then multiplyWhile steps
                 (<[candidate := mkNNCdata (cell1 c) (cell2 c) (fmul (trans c) (trans edit))]> nncData)
                 (S candidate) edit
          else nncData
      end
  end.

(** From [auto firstCandidate = candidate] to the end of the loop body. *)
Definition applyAtCandidate (st : EditState) (edit : NNCdata F) : EditState :=
  let firstCandidate := candidate_of st in
  let nncData := multiplyWhile (length (nncData_of st)) (nncData_of st) (candidate_of st) edit in
  mkEditState nncData firstCandidate (warnings_of st).

(** One iteration of [for (const auto& edit: editnncData)]. *)
Definition editStep (log : bool) (st : EditState) (edit : NNCdata F) : result EditState :=
  if (candidate_of st =? length (nncData_of st)) && log
  then Ok (printNncWarning st (cell1 edit) (cell2 edit))
  else
    c ← deref (nncData_of st) (candidate_of st);
    if negb (cell1 c =? cell1 edit)%Z || negb (cell2 c =? cell2 edit)%Z
    then
      let candidate :=
        lower_bound (nncData_of st) (candidate_of st) (mkNNCdata (cell1 edit) (cell2 edit) fzero) in
      let st := mkEditState (nncData_of st) candidate (warnings_of st) in
      if (candidate =? length (nncData_of st)) && log
      then Ok (printNncWarning st (cell1 edit) (cell2 edit))
      else Ok (applyAtCandidate st edit)
    else Ok (applyAtCandidate st edit).

Fixpoint forEachEdit (log : bool) (editnncData : list (NNCdata F)) (st : EditState) : result EditState :=
  match editnncData with
  | [] => Ok st
  | edit :: rest => st ← editStep log st edit; forEachEdit log rest st
  end.

(** [sortNncAndApplyEditnnc]: the final contents of [nncData] and the
    warnings logged. *)
Definition sortNncAndApplyEditnnc (nncData editnncData : list (NNCdata F)) (log : bool)
    : result (list (NNCdata F) * list (Z * Z)) :=
  let nncData := std_sort nncData in
  let candidate := 0 in
  st ← forEachEdit log editnncData (mkEditState nncData candidate []);
  Ok (nncData_of st, warnings_of st).

(** [edit] names the connection [d]. *)
Definition sameCells (d edit : NNCdata F) : bool :=
  (cell1 edit =? cell1 d)%Z && (cell2 edit =? cell2 d)%Z.

(** [d] with its transmissibility multiplied, in the order of the list, by
    that of each entry of [editnncData] naming the same pair of cells. *)
Definition applyEdits (editnncData : list (NNCdata F)) (d : NNCdata F) : NNCdata F :=
  mkNNCdata (cell1 d) (cell2 d)
    (fold_left fmul (map trans (filter (fun e => sameCells d e = true) editnncData)) (trans d)).

End NncSorter.

(** A sorting function for the examples: merge sort. *)
Definition merge_sort_nnc {F : Type} (l : list (NNCdata F)) : list (NNCdata F) :=
  merge_sort nncLe l.

(** Sample connections and edits. *)
Definition sample_nnc : list (NNCdata float) :=
  [mkNNCdata 3 1 1; mkNNCdata 1 2 1; mkNNCdata 1 2 4; mkNNCdata 0 7 1]%float.
Definition sample_edits : list (NNCdata float) :=
  [mkNNCdata 1 2 2; mkNNCdata 1 2 3; mkNNCdata 2 2 3; mkNNCdata 3 1 0.5]%float.
Definition two_nnc : list (NNCdata float) :=
  [mkNNCdata 1 1 1; mkNNCdata 2 2 1]%float.
Definition unsorted_edits : list (NNCdata float) :=
  [mkNNCdata 2 2 3; mkNNCdata 1 1 5]%float.

(** ** Sorting a row of a blocked CSR matrix ([BlockedMatrix.cpp], lines 66-96)

    [colIndices] and [data] are the two parallel arrays of the matrix; the
    indices [left], [right], [l] and [r] are C++ [int]s.  An access outside
    an array is undefined behaviour.  The three [memcpy] calls move whole
    blocks, so the content of a block plays no role and its type is left
    open; copying a block onto itself (when [l == r]) leaves it as it is. *)

(** [xs[i]] *)
Definition rdZ {A : Type} (xs : list A) (i : Z) : result A :=
  if (i <? 0)%Z then Undefined
  else match xs !! Z.to_nat i with
       | Some x => Ok x
       | None => Undefined
       end.

(** [xs[i] = x] *)
Definition wrZ {A : Type} (xs : list A) (i : Z) (x : A) : result (list A) :=
  if (i <? 0)%Z then Undefined
  else if Z.to_nat i <? length xs then Ok (<[Z.to_nat i := x]> xs)
  else Undefined.

(** [while (colIndices[l] < middle) l++;] giving the final [l]. *)
Fixpoint scanUp (fuel : nat) (colIndices : list Z) (middle l : Z) : result Z :=
  match fuel with
  | 0 => OutOfFuel
  | S fuel =>
      c ← rdZ colIndices l;
      if (c <? middle)%Z
      then scanUp fuel colIndices middle (wrap_int (l + 1))
      else Ok l
  end.

(** [while (colIndices[r] > middle) r--;] giving the final [r]. *)
Fixpoint scanDown (fuel : nat) (colIndices : list Z) (middle r : Z) : result Z :=
  match fuel with
  | 0 => OutOfFuel
  | S fuel =>
      c ← rdZ colIndices r;
      if (middle <? c)%Z
      then scanDown fuel colIndices middle (wrap_int (r - 1))
      else Ok r
  end.

Section RowSort.
Context {B : Type}.

(** The exchange of entries [l] and [r] in both arrays. *)
Definition swapEntries (colIndices : list Z) (data : list B) (l r : Z)
    : result (list Z * list B) :=
  lColIndex ← rdZ colIndices l;
  rColIndex ← rdZ colIndices r;
  colIndices ← wrZ colIndices l rColIndex;
  colIndices ← wrZ colIndices r lColIndex;
  lDatum ← rdZ data l;
  rDatum ← rdZ data r;
  data ← wrZ data l rDatum;
  data ← wrZ data r lDatum;
  Ok (colIndices, data).

(** The [do { ... } while (l < r);] loop, giving the arrays and the final
    [l] and [r]. *)
Fixpoint partitionLoop (fuel : nat) (colIndices : list Z) (data : list B) (middle l r : Z)
    : result (list Z * list B * Z * Z) :=
  match fuel with
  | 0 => OutOfFuel
  | S fuel =>
      l ← scanUp fuel colIndices middle l;
      r ← scanDown fuel colIndices middle r;
      '(colIndices, data, l, r) ←
        (if (l <=? r)%Z
         then '(colIndices, data) ← swapEntries colIndices data l r;
              Ok (colIndices, data, wrap_int (l + 1), wrap_int (r - 1))
         else Ok (colIndices, data, l, r));
      if (l <? r)%Z
      then partitionLoop fuel colIndices data middle l r
      else Ok (colIndices, data, l, r)
  end.

Fixpoint sortBlockedRow (fuel : nat) (colIndices : list Z) (data : list B) (left right : Z)
    : result (list Z * list B) :=
  match fuel with
  | 0 => OutOfFuel
  | S fuel =>
      let l := left in
      let r := right in
      middle ← rdZ colIndices (Z.shiftr (wrap_int (l + r)) 1);
      '(colIndices, data, l, r) ← partitionLoop fuel colIndices data middle l r;
      '(colIndices, data) ←
        (if (left <? r)%Z
         then sortBlockedRow fuel colIndices data left r
         else Ok (colIndices, data));
      if (l <? right)%Z
      then sortBlockedRow fuel colIndices data l right
      else Ok (colIndices, data)
  end.

End RowSort.

Arguments wrap_int : simpl never.
Arguments rdZ : simpl never.
Arguments wrZ : simpl never.

(** The entries [lo], ..., [hi - 1] of an array. *)
Definition segZ {A : Type} (xs : list A) (lo hi : Z) : list A :=
  take (Z.to_nat (hi - lo)) (drop (Z.to_nat lo) xs).

(** The column index at position [i] of an array known to contain it. *)
Definition zth (xs : list Z) (i : Z) : Z := default 0%Z (xs !! Z.to_nat i).

(** The arrays [colIndices'], [data'] hold the entries of [colIndices],
    [data] with the pairs (column, block) of positions [left..right]
    rearranged and every other position untouched. *)
Definition rowPermuted {B : Type} (left right : Z)
    (colIndices : list Z) (data : list B) (colIndices' : list Z) (data' : list B) : Prop :=
  length colIndices' = length colIndices ∧
  length data' = length data ∧
  (∀ i : nat, (Z.of_nat i < left ∨ right < Z.of_nat i)%Z →
     colIndices' !! i = colIndices !! i ∧ data' !! i = data !! i) ∧
  zip colIndices' data' ≡ₚ zip colIndices data.

(** A sample row: columns at positions 1..5 out of order, the blocks
    numbered by their position in the input. *)
Definition sample_row_columns : list Z := [0; 5; 7; 1; 8; 9; 2]%Z.
Definition sample_row_blocks : list nat := [0; 1; 2; 3; 4; 5; 6].

(** ** Solver backends ([FPGASolverBackend.hpp]; specification 3, 4.4, 4.5)

    The header declares [FpgaSolverBackend::solve_system] and documents its
    parameters; the bodies of the backends and of the BICGSTAB loop are not
    part of the sources at hand. *)

(** Modelled from the spec: vectors of doubles (the right-hand side, the
    iterates and the search vectors of section 4.5) with their elementary
    operations. *)
Abbreviation Vec := (list float) (only parsing).

Definition vadd (u v : Vec) : Vec := zip_with PrimFloat.add u v.
Definition vsub (u v : Vec) : Vec := zip_with PrimFloat.sub u v.
Definition vscale (a : float) (u : Vec) : Vec := (fun ui => PrimFloat.mul a ui) <$> u.
Definition dot (u v : Vec) : float :=
  fold_left PrimFloat.add (zip_with PrimFloat.mul u v) 0%float.
Definition norm2 (u : Vec) : float := PrimFloat.sqrt (dot u u).

(** Modelled from the spec: the block-CSR matrix of section 3, as a value
    ([Nb] block rows of side [d], [rowPointers], [colIndices], [values]
    with each block row-major). *)
Record CsrMatrix := mkCsrMatrix {
  csr_d : nat;
  csr_Nb : nat;
  csr_rowPointers : list nat;
  csr_colIndices : list nat;
  csr_values : list float
}.

(** Modelled from the spec: the sparse matrix-vector product
    [sparseProduct(x)] of a block-CSR matrix. *)
Definition sparseProduct (A : CsrMatrix) (x : Vec) : Vec :=
  let d := csr_d A in
  flat_map (fun row =>
    let first := default 0%nat (csr_rowPointers A !! row) in
    let last := default 0%nat (csr_rowPointers A !! S row) in
    (fun r =>
       fold_left (fun acc k =>
         let col := default 0%nat (csr_colIndices A !! k) in
         fold_left (fun acc c =>
           PrimFloat.add acc
             (PrimFloat.mul (default 0%float (csr_values A !! (k * d * d + r * d + c)%nat))
                            (default 0%float (x !! (col * d + c)%nat))))
           (seq 0 d) acc)
         (seq first (last - first)) 0%float) <$> seq 0 d)
    (seq 0 (csr_Nb A)).

(** Modelled from the spec: a well contribution, "a sparse additive term
    keyed by a small set of row/column pairs outside the native sparsity
    pattern": entries (row, column, value), and its [apply(x)]. *)
Definition WellContributions := list (nat * nat * float).

Definition wellApply (n : nat) (wc : WellContributions) (x : Vec) : Vec :=
  fold_left (fun y '(row, col, value) =>
    <[row := PrimFloat.add (default 0%float (y !! row))
                           (PrimFloat.mul value (default 0%float (x !! col)))]> y)
    wc (replicate n 0%float).

(** Modelled from the spec: the matrix-vector product of section 4.5,
    [sparseProduct(x) + wellContributions.apply(x)]. *)
Definition matvec_with_wells (A : CsrMatrix) (wc : WellContributions) (x : Vec) : Vec :=
  vadd (sparseProduct A x) (wellApply (length x) wc x).

(** Modelled from the spec: the three variants of section 4.4. *)
Inductive Backend := Reference | Gpu | Fpga.

(** The operator a backend iterates with.  For the FPGA backend the header
    says of [wellContribs]: "not used in FPGA solver because it requires
    them already added to matrix A". *)
Definition backend_operator (backend : Backend) (A : CsrMatrix) (wc : WellContributions)
    : Vec → Vec :=
  match backend with
  | Fpga => sparseProduct A
  | Reference | Gpu => matvec_with_wells A wc
  end.

(** Modelled from the spec: the BICGSTAB state of section 4.5, with the
    list of the matrix-vector products performed so far (argument and
    result of each). *)
Record BicgstabState := mkBicgstabState {
  bs_x : Vec;
  bs_r : Vec;
  bs_r0 : Vec;
  bs_p : Vec;
  bs_v : Vec;
  bs_rho : float;
  bs_alpha : float;
  bs_omega : float;
  bs_second : bool;
  bs_products : list (Vec * Vec)
}.

Inductive Step := Continue (st : BicgstabState) | Breakdown (st : BicgstabState).

(** Modelled from the spec: one iteration, "one matrix-vector product, one
    preconditioner apply" and the scalar recurrences of the standard
    method, in its two alternating halves; a breakdown when the magnitude
    of rho or omega falls below [eps]. *)
Definition bicgstab_iteration (op prec : Vec → Vec) (eps : float) (st : BicgstabState) : Step :=
  if bs_second st then
    let s := bs_r st in
    let z := prec s in
    let t := op z in
    let omega := PrimFloat.div (dot t s) (dot t t) in
    let st' := mkBicgstabState
                 (vadd (bs_x st) (vscale omega z))
                 (vsub s (vscale omega t))
                 (bs_r0 st) (bs_p st) (bs_v st) (bs_rho st) (bs_alpha st) omega false
                 (bs_products st ++ [(z, t)]) in
    if PrimFloat.ltb (PrimFloat.abs omega) eps then Breakdown st' else Continue st'
  else
    let rho := dot (bs_r0 st) (bs_r st) in
    if PrimFloat.ltb (PrimFloat.abs rho) eps then Breakdown st
    else
      let beta := PrimFloat.mul (PrimFloat.div rho (bs_rho st))
                                (PrimFloat.div (bs_alpha st) (bs_omega st)) in
      let p := vadd (bs_r st) (vscale beta (vsub (bs_p st) (vscale (bs_omega st) (bs_v st)))) in
      let y := prec p in
      let v := op y in
      let alpha := PrimFloat.div rho (dot (bs_r0 st) v) in
      Continue (mkBicgstabState
                  (vadd (bs_x st) (vscale alpha y))
                  (vsub (bs_r st) (vscale alpha v))
                  (bs_r0 st) p v rho alpha (bs_omega st) true
                  (bs_products st ++ [(y, v)])).

(** Modelled from the spec: the solve result of section 3 (without the
    timings), and the products the solve performed. *)
Record SolveResult := mkSolveResult {
  converged : bool;
  iterations : nat;
  solution : Vec;
  residual_norm : float;
  products : list (Vec * Vec)
}.

(** Modelled from the spec: the loop of section 4.5, bounded by [maxit],
    with the convergence check once per iteration. *)
Fixpoint bicgstab_loop (maxit : nat) (op prec : Vec → Vec)
    (eps relativeTolerance absoluteTolerance norm_b : float)
    (it : nat) (st : BicgstabState) : SolveResult :=
  match maxit with
  | 0 => mkSolveResult false it (bs_x st) (norm2 (bs_r st)) (bs_products st)
  | S maxit =>
      match bicgstab_iteration op prec eps st with
      | Breakdown st => mkSolveResult false (S it) (bs_x st) (norm2 (bs_r st)) (bs_products st)
      | Continue st =>
          let nr := norm2 (bs_r st) in
          if PrimFloat.leb (PrimFloat.div nr norm_b) relativeTolerance
             || PrimFloat.leb nr absoluteTolerance
          then mkSolveResult true (S it) (bs_x st) nr (bs_products st)
          else bicgstab_loop maxit op prec eps relativeTolerance absoluteTolerance norm_b
                 (S it) st
      end
  end.

(** Modelled from the spec: the iteration bound, the tolerances and the
    breakdown threshold of section 4.5. *)
Record SolverSettings := mkSolverSettings {
  maxit : nat;
  tolerance : float;
  absoluteTolerance : float;
  breakdownEps : float
}.

(** Modelled from the spec: the Krylov loop run by [solve_system] once the
    preconditioner [prec] is built, from the initial guess zero. *)
Definition solve_system (backend : Backend) (settings : SolverSettings)
    (A : CsrMatrix) (prec : Vec → Vec) (b : Vec) (wellContribs : WellContributions)
    : SolveResult :=
  let zero := replicate (length b) 0%float in
  bicgstab_loop (maxit settings) (backend_operator backend A wellContribs) prec
    (breakdownEps settings) (tolerance settings) (absoluteTolerance settings) (norm2 b) 0
    (mkBicgstabState zero b b zero zero 1 1 1 false []).




(** Sample rational blocks: [sample_block_Q] has determinant 25. *)
Definition sample_block_Q : Block Qc :=
  [Q2Qc 2; Q2Qc 0; Q2Qc 1; Q2Qc 1; Q2Qc 3; Q2Qc 2; Q2Qc 1; Q2Qc (-1); Q2Qc 4].
Definition sample_block_Q2 : Block Qc :=
  [Q2Qc 1; Q2Qc 2; Q2Qc 3; Q2Qc 4; Q2Qc 5; Q2Qc 6; Q2Qc 7; Q2Qc 8; Q2Qc 10].
Definition sample_block_Q3 : Block Qc :=
  [Q2Qc 0; Q2Qc 1; Q2Qc (1 # 2); Q2Qc (-3); Q2Qc 1; Q2Qc 0; Q2Qc 2; Q2Qc 2; Q2Qc 5].
Definition scratch_block_Q : Block Qc := replicate 9 (Q2Qc 0).

(** The pair of cells a warning of [printNncWarning] names, and the test
    that [e] comes after every entry of [nncData] in the order of
    [nncLess]: then [std::lower_bound] for [e] is [nncData.end()]. *)
Definition cellsOf {F : Type} (d : NNCdata F) : Z * Z := (cell1 d, cell2 d).

Definition beyondAll {F : Type} (nncData : list (NNCdata F)) (e : NNCdata F) : bool :=
  forallb (fun d => nncLess d e) nncData.

(** Sample edits, in cell order, the last two beyond every entry of
    [sample_nnc]; and edits in which an edit for an existing connection
    follows one beyond every entry. *)
Definition sample_edits_beyond : list (NNCdata float) :=
  [mkNNCdata 1 2 2; mkNNCdata 2 2 3; mkNNCdata 4 0 3; mkNNCdata 4 1 0.5]%float.
Definition sample_edits_one_beyond : list (NNCdata float) :=
  [mkNNCdata 1 2 2; mkNNCdata 2 2 3; mkNNCdata 4 0 3]%float.

(** ** The PETSc solver ([opm/core/linalg/LinearSolverPetsc.cpp])

    [KSPType] and [PCType] are PETSc's names of its Krylov methods and
    preconditioners; the two tables hold the ones the file lists. *)

Module LinearSolverPetsc.

Inductive KSPType :=
  | KSPRICHARDSON | KSPCHEBYSHEV | KSPCG | KSPBICG | KSPGMRES | KSPFGMRES | KSPDGMRES
  | KSPGCR | KSPBCGS | KSPCGS | KSPTFQMR | KSPTCQMR | KSPCR | KSPPREONLY.

Inductive PCType :=
  | PCJACOBI | PCBJACOBI | PCSOR | PCEISENSTAT | PCICC | PCILU | PCASM | PCGAMG
  | PCKSP | PCCOMPOSITE | PCLU | PCCHOLESKY | PCNONE.

(** A [std::unordered_map<std::string, V>] is kept as the list of its
    (key, value) pairs.  The file only inserts and looks up, so the order of
    the pairs plays no role.

    [m.find(k)]: the value at [k], [None] for [m.end()]. *)
Fixpoint unordered_map_find {V : Type} (m : list (string * V)) (k : string) : option V :=
  match m with
  | [] => None
  | (k', v) :: m => if String.eqb k' k then Some v else unordered_map_find m k
  end.

(** [m.insert(kv)]: a key that is present keeps its value. *)
Definition unordered_map_insert {V : Type} (m : list (string * V)) (kv : string * V)
    : list (string * V) :=
  match unordered_map_find m kv.1 with
  | Some _ => m
  | None => m ++ [kv]
  end.

Module KSPTypeMap.

Record t := mk {
  default_type_ : string;
  type_map_ : list (string * KSPType)
}.

(** The constructor [KSPTypeMap(default_type)]. *)
Definition new (default_type : string) : t :=
  let type_map_ : list (string * KSPType) := [] in
  let type_map_ := unordered_map_insert type_map_ ("richardson", KSPRICHARDSON) in
  let type_map_ := unordered_map_insert type_map_ ("chebyshev", KSPCHEBYSHEV) in
  let type_map_ := unordered_map_insert type_map_ ("cg", KSPCG) in
  let type_map_ := unordered_map_insert type_map_ ("bicgs", KSPBICG) in
  let type_map_ := unordered_map_insert type_map_ ("gmres", KSPGMRES) in
  let type_map_ := unordered_map_insert type_map_ ("fgmres", KSPFGMRES) in
  let type_map_ := unordered_map_insert type_map_ ("dgmres", KSPDGMRES) in
  let type_map_ := unordered_map_insert type_map_ ("gcr", KSPGCR) in
  let type_map_ := unordered_map_insert type_map_ ("bcgs", KSPBCGS) in
  let type_map_ := unordered_map_insert type_map_ ("cgs", KSPCGS) in
  let type_map_ := unordered_map_insert type_map_ ("tfqmr", KSPTFQMR) in
  let type_map_ := unordered_map_insert type_map_ ("tcqmr", KSPTCQMR) in
  let type_map_ := unordered_map_insert type_map_ ("cr", KSPCR) in
  let type_map_ := unordered_map_insert type_map_ ("preonly", KSPPREONLY) in
  mk default_type type_map_.

(** [find]: [OPM_THROW] when neither [type] nor the default is a key. *)
Definition find (self : t) (type : string) : result KSPType :=
  let it := unordered_map_find (type_map_ self) type in
  let it := match it with
            | None => unordered_map_find (type_map_ self) (default_type_ self)
            | Some _ => it
            end in
  match it with
  | None => Thrown
  | Some second => Ok second
  end.

End KSPTypeMap.

Module PCTypeMap.

Record t := mk {
  default_type_ : string;
  type_map_ : list (string * PCType)
}.

(** The constructor [PCTypeMap(default_type)]. *)
Definition new (default_type : string) : t :=
  let type_map_ : list (string * PCType) := [] in
  let type_map_ := unordered_map_insert type_map_ ("jacobi", PCJACOBI) in
  let type_map_ := unordered_map_insert type_map_ ("bjacobi", PCBJACOBI) in
  let type_map_ := unordered_map_insert type_map_ ("sor", PCSOR) in
  let type_map_ := unordered_map_insert type_map_ ("eisenstat", PCEISENSTAT) in
  let type_map_ := unordered_map_insert type_map_ ("icc", PCICC) in
  let type_map_ := unordered_map_insert type_map_ ("ilu", PCILU) in
  let type_map_ := unordered_map_insert type_map_ ("asm", PCASM) in
  let type_map_ := unordered_map_insert type_map_ ("gamg", PCGAMG) in
  let type_map_ := unordered_map_insert type_map_ ("ksp", PCKSP) in
  let type_map_ := unordered_map_insert type_map_ ("composite", PCCOMPOSITE) in
  let type_map_ := unordered_map_insert type_map_ ("lu", PCLU) in
  let type_map_ := unordered_map_insert type_map_ ("cholesky", PCCHOLESKY) in
  let type_map_ := unordered_map_insert type_map_ ("none", PCNONE) in
  mk default_type type_map_.

Definition find (self : t) (type : string) : result PCType :=
  let it := unordered_map_find (type_map_ self) type in
  let it := match it with
            | None => unordered_map_find (type_map_ self) (default_type_ self)
            | Some _ => it
            end in
  match it with
  | None => Thrown
  | Some second => Ok second
  end.

End PCTypeMap.

(** A range-based or counted loop whose body can fail. *)
Fixpoint for_each {S I : Type} (range : list I) (body : S → I → result S) (s : S) : result S :=
  match range with
  | [] => Ok s
  | i :: range => s ← body s i; for_each range body s
  end.

(** A PETSc vector handle [Vec]: null, or a vector with its local array
    (what [VecGetArray] gives, of the length [VecGetLocalSize] gives).

    A PETSc matrix handle [Mat] is seen through the calls the file makes on
    it, oldest first.  Each [MatSetValues] of the file sets one entry, with
    [INSERT_VALUES].

    Calls into PETSc on a handle that is not null are taken to report
    success, so that [CHKERRXX] does not throw. *)
Definition Vec (F : Type) := option (list F).

Inductive MatCall (F : Type) :=
  | MatSetValues (row col : Z) (value : F)
  | MatAssemblyBegin
  | MatAssemblyEnd.
Arguments MatSetValues {F} row col value.
Arguments MatAssemblyBegin {F}.
Arguments MatAssemblyEnd {F}.

Definition Mat (F : Type) := list (MatCall F).

(** The entries set by a sequence of calls, as (row, column, value). *)
Definition setCalls {F : Type} (A : list (MatCall F)) : list (Z * Z * F) :=
  omap (fun call => match call with
                    | MatSetValues row col value => Some (row, col, value)
                    | _ => None
                    end) A.

(** The number of assemblies ([MatAssemblyEnd]) in a sequence of calls. *)
Definition isMatAssemblyEnd {F : Type} (call : MatCall F) : bool :=
  match call with
  | MatAssemblyEnd => true
  | _ => false
  end.

Definition assemblies {F : Type} (A : list (MatCall F)) : nat :=
  length (filter (fun call => isMatAssemblyEnd call = true) A).

Section PetscTransfer.
Context {F : Type}.

(** [x] and the local array are C arrays: a [memcpy] that runs past the
    end of [x] is undefined. *)
Definition to_petsc_vec (x : list F) (v : Vec F) : result (Vec F) :=
  match v with
  | None => Thrown
  | Some vec =>
      let size := length vec in
      if decide (size ≤ length x) then Ok (Some (take size x)) else Undefined
  end.

Definition from_petsc_vec (x : list F) (v : Vec F) : result (list F) :=
  match v with
  | None => Thrown
  | Some vec =>
      let size := length vec in
      if decide (size ≤ length x) then Ok (vec ++ drop size x) else Undefined
  end.

(** [ia], [ja] and [sa] are C arrays; [ia[i + 1] - ia[i]] is an [int]
    subtraction.  [nonzeros] is not used. *)
Definition to_petsc_mat (size nonzeros : Z) (ia ja : list Z) (sa : list F) (A : Mat F)
    : result (Mat F) :=
  for_each (seqZ 0 size) (fun A i =>
    hi ← rdZ ia (i + 1)%Z;
    lo ← rdZ ia i;
    if negb ((INT_MIN <=? hi - lo)%Z && (hi - lo <=? INT_MAX)%Z) then Undefined
    else
      let nrows := (hi - lo)%Z in
      if (nrows =? 0)%Z then Ok A
      else
        A ← for_each (seqZ lo (hi - lo)) (fun A j =>
               col ← rdZ ja j;
               value ← rdZ sa j;
               Ok (A ++ [MatSetValues i col value])) A;
        Ok (A ++ [MatAssemblyBegin; MatAssemblyEnd])) A.

End PetscTransfer.

(** [OEM_DATA]: the PETSc objects of one solve.  [ksp] and
    [preconditioner] are made and used inside [solve_system] only. *)
Module OEM_DATA.
Record t (F : Type) := mk {
  rhs : Vec F;
  solution : Vec F;
  A : Mat F
}.
Arguments mk {F} rhs solution A.
Arguments rhs {F} t.
Arguments solution {F} t.
Arguments A {F} t.
End OEM_DATA.

(** What the file leaves to PETSc: the array of a vector made by
    [VecCreate], [VecSetSizes], [VecSetFromOptions] for a given size (an
    error, which [CHKERRXX] throws, when PETSc refuses it), the array of its
    [VecDuplicate], and the outcome of [KSPSolve] for a method, a
    preconditioner, the tolerances, the matrix, the right-hand side and the
    initial guess: the solution with the values of [KSPGetConvergedReason],
    [KSPGetIterationNumber] and [KSPGetResidualNorm]. *)
Record Petsc (F : Type) := mkPetsc {
  VecCreate : Z → result (list F);
  VecDuplicate : list F → list F;
  KSPSolve : KSPType → PCType → F → F → F → Z → Mat F → list F → list F
             → result (list F * Z * Z * F)
}.
Arguments mkPetsc {F} VecCreate VecDuplicate KSPSolve.
Arguments VecCreate {F} p size.
Arguments VecDuplicate {F} p v.
Arguments KSPSolve {F} p method pcname rtol atol dtol maxits A rhs guess.

(** The members of [LinearSolverPetsc] and the field of
    [LinearSolverReport] that [solve] sets. *)
Record t (F : Type) := mk {
  ksp_type_ : string;
  pc_type_ : string;
  ksp_view_ : Z;
  rtol_ : F;
  atol_ : F;
  dtol_ : F;
  maxits_ : Z
}.
Arguments mk {F} ksp_type_ pc_type_ ksp_view_ rtol_ atol_ dtol_ maxits_.
Arguments ksp_type_ {F} t.
Arguments pc_type_ {F} t.
Arguments ksp_view_ {F} t.
Arguments rtol_ {F} t.
Arguments atol_ {F} t.
Arguments dtol_ {F} t.
Arguments maxits_ {F} t.

Record LinearSolverReport := mkLinearSolverReport {
  converged : bool
}.

Section PetscSolve.
Context {F : Type}.
Variable petsc : Petsc F.

(** The constructor [OEM_DATA(size)]. *)
Definition new_OEM_DATA (size : Z) : result (OEM_DATA.t F) :=
  solution ← VecCreate petsc size;
  let rhs := VecDuplicate petsc solution in
  Ok (OEM_DATA.mk (Some rhs) (Some solution) []).

(** [solve_system]: [reason], [its] and [residual] are locals; [its] and
    [residual] are printed, [reason] is not looked at. *)
Definition solve_system (t : OEM_DATA.t F) (method : KSPType) (pcname : PCType)
    (rtol atol dtol : F) (maxits ksp_view : Z) : result (OEM_DATA.t F) :=
  match OEM_DATA.rhs t, OEM_DATA.solution t with
  | Some rhs, Some guess =>
      '(x, reason, its, residual) ←
        KSPSolve petsc method pcname rtol atol dtol maxits (OEM_DATA.A t) rhs guess;
      Ok (OEM_DATA.mk (OEM_DATA.rhs t) (Some x) (OEM_DATA.A t))
  | _, _ => Thrown
  end.

(** [LinearSolverPetsc::solve]: the report and the final contents of
    [solution]. *)
Definition solve (self : t F) (size nonzeros : Z) (ia ja : list Z)
    (sa rhs solution : list F) : result (LinearSolverReport * list F) :=
  let ksp := KSPTypeMap.new (ksp_type_ self) in
  ksp_type ← KSPTypeMap.find ksp (ksp_type_ self);
  let pc := PCTypeMap.new (pc_type_ self) in
  pc_type ← PCTypeMap.find pc (pc_type_ self);
  t ← new_OEM_DATA size;
  A ← to_petsc_mat size nonzeros ia ja sa (OEM_DATA.A t);
  t_rhs ← to_petsc_vec rhs (OEM_DATA.rhs t);
  let t := OEM_DATA.mk t_rhs (OEM_DATA.solution t) A in
  t ← solve_system t ksp_type pc_type (rtol_ self) (atol_ self) (dtol_ self)
        (maxits_ self) (ksp_view_ self);
  solution ← from_petsc_vec solution (OEM_DATA.solution t);
  let rep := mkLinearSolverReport false in
  let rep := mkLinearSolverReport true in
  Ok (rep, solution).

End PetscSolve.

End LinearSolverPetsc.

(** The keys of the two tables. *)
Definition KSP_names : list string :=
  ["richardson"; "chebyshev"; "cg"; "bicgs"; "gmres"; "fgmres"; "dgmres"; "gcr"; "bcgs";
   "cgs"; "tfqmr"; "tcqmr"; "cr"; "preonly"].
Definition PC_names : list string :=
  ["jacobi"; "bjacobi"; "sor"; "eisenstat"; "icc"; "ilu"; "asm"; "gamg"; "ksp";
   "composite"; "lu"; "cholesky"; "none"].

(** [ia], [ja] and [sa] hold a CSR matrix of [size] rows: [size + 1] row
    pointers that do not decrease, from [ia[0] >= 0] to [ia[size]], which is
    an [int] within [ja] and [sa]. *)
Definition csr_well_formed {F : Type} (size : Z) (ia ja : list Z) (sa : list F) : Prop :=
  (0 ≤ size)%Z ∧
  length ia = (Z.to_nat size + 1)%nat ∧
  (0 ≤ zth ia 0)%Z ∧
  (∀ i, 0 ≤ i < size → zth ia i ≤ zth ia (i + 1))%Z ∧
  (zth ia size ≤ Z.of_nat (length ja))%Z ∧
  (zth ia size ≤ Z.of_nat (length sa))%Z ∧
  (zth ia size ≤ INT_MAX)%Z.

(** The calls [to_petsc_mat] makes for row [i] of such a matrix. *)
Definition row_calls {F : Type} (ia ja : list Z) (sa : list F) (i : Z)
    : list (LinearSolverPetsc.MatCall F) :=
  let lo := zth ia i in
  let hi := zth ia (i + 1) in
  if (hi - lo =? 0)%Z then []
  else ((fun cv => LinearSolverPetsc.MatSetValues i cv.1 cv.2) <$> zip (segZ ja lo hi) (segZ sa lo hi))
       ++ [LinearSolverPetsc.MatAssemblyBegin; LinearSolverPetsc.MatAssemblyEnd].

(** A CSR system for the examples: the 3x3 matrix [4 1 0; 0 0 0; 2 3 5],
    whose second row has no entry. *)
Definition sample_ia : list Z := [0; 2; 2; 5]%Z.
Definition sample_ja : list Z := [0; 1; 0; 1; 2]%Z.
Definition sample_sa : list float := [4; 1; 2; 3; 5]%float.

(** A stand-in for PETSc in the examples: new vectors are zero, and
    [KSPSolve] hands back the right-hand side with a reason of divergence
    ([KSP_DIVERGED_ITS] is -3). *)
Definition sample_petsc : LinearSolverPetsc.Petsc float :=
  LinearSolverPetsc.mkPetsc
    (fun size => if (size <? 0)%Z then Thrown else Ok (replicate (Z.to_nat size) 0%float))
    (fun v => replicate (length v) 0%float)
    (fun _ _ _ _ _ _ _ rhs _ => Ok (rhs, (-3)%Z, 100000%Z, 1%float)).

Definition sample_solver : LinearSolverPetsc.t float :=
  LinearSolverPetsc.mk "gmres" "sor" 0%Z 0x1.4f8b588e368f1p-17%float 0x1p-170%float 100000%float 100000%Z.

(** ** Ownership of the grids ([applications/ebos/eclcpgridmanager.hh])

    [EclCpGridManager] owns four objects through plain pointers: the
    simulation grid, the grid for the EQUIL initialisation, and a
    [CartesianIndexMapper] for each, which refers to its grid.  The class
    inherits its constructors and gives no member an initializer, so a
    member holds an indeterminate value until it is assigned.  What a
    [Dune::CpGrid] holds, and what [processEclipseFormat] makes of the
    ECL grid and the pore volumes, is left open. *)

Module EclCpGridManager.

Inductive member := Indeterminate | Pointer (p : ptr).

Record t := mk {
  grid_ : member;
  equilGrid_ : member;
  cartesianIndexMapper_ : member;
  equilCartesianIndexMapper_ : member
}.

(** The members of an object the inherited constructor has set up. *)
Definition constructed : t := mk Indeterminate Indeterminate Indeterminate Indeterminate.

Section Manager.
Context {CpGrid EclipseGrid Porv : Type}.
(** [Dune::CpGrid()] and [Dune::CpGrid::processEclipseFormat]. *)
Variable new_CpGrid : CpGrid.
Variable processEclipseFormat : CpGrid → EclipseGrid → bool → bool → bool → Porv → CpGrid.

Inductive object :=
  | Grid (g : CpGrid)
  | CartesianIndexMapper (grid : positive).

Abbreviation store := (gmap positive object).

(** [new T(...)] *)
Definition new_object (h : store) (o : object) : store * positive :=
  let a := fresh (dom h) in (<[a := o]> h, a).

(** [delete p]: nothing for a null pointer; undefined for an indeterminate
    pointer and for one whose object is gone. *)
Definition delete_pointer (h : store) (p : member) : result store :=
  match p with
  | Indeterminate => Undefined
  | Pointer NULL => Ok h
  | Pointer (Ptr a) =>
      match h !! a with
      | Some _ => Ok (delete a h)
      | None => Undefined
      end
  end.

(** [*p] for a pointer to a grid, and for a pointer to a mapper (giving the
    grid the mapper refers to). *)
Definition deref_grid (h : store) (p : member) : result CpGrid :=
  match p with
  | Pointer (Ptr a) =>
      match h !! a with
      | Some (Grid g) => Ok g
      | _ => Undefined
      end
  | _ => Undefined
  end.

Definition deref_mapper (h : store) (p : member) : result positive :=
  match p with
  | Pointer (Ptr a) =>
      match h !! a with
      | Some (CartesianIndexMapper grid) => Ok grid
      | _ => Undefined
      end
  | _ => Undefined
  end.

(** [new CartesianIndexMapper] of the grid [p] points to. *)
Definition new_CartesianIndexMapper (h : store) (p : member) : result (store * member) :=
  match p with
  | Pointer (Ptr a) =>
      match h !! a with
      | Some (Grid _) =>
          let '(h, m) := new_object h (CartesianIndexMapper a) in
          Ok (h, Pointer (Ptr m))
      | _ => Undefined
      end
  | _ => Undefined
  end.

(** [p->processEclipseFormat(...)] *)
Definition call_processEclipseFormat (h : store) (p : member) (eclGrid : EclipseGrid)
    (isPeriodic flipNormals clipZ : bool) (porv : Porv) : result store :=
  match p with
  | Pointer (Ptr a) =>
      match h !! a with
      | Some (Grid g) =>
          Ok (<[a := Grid (processEclipseFormat g eclGrid isPeriodic flipNormals clipZ porv)]> h)
      | _ => Undefined
      end
  | _ => Undefined
  end.

(** [~EclCpGridManager()] *)
Definition destructor (h : store) (self : t) : result store :=
  h ← delete_pointer h (cartesianIndexMapper_ self);
  h ← delete_pointer h (equilCartesianIndexMapper_ self);
  h ← delete_pointer h (grid_ self);
  delete_pointer h (equilGrid_ self).

Definition grid (h : store) (self : t) : result CpGrid := deref_grid h (grid_ self).

Definition equilGrid (h : store) (self : t) : result CpGrid := deref_grid h (equilGrid_ self).

Definition cartesianIndexMapper (h : store) (self : t) : result positive :=
  deref_mapper h (cartesianIndexMapper_ self).

Definition equilCartesianIndexMapper (h : store) (self : t) : result positive :=
  deref_mapper h (equilCartesianIndexMapper_ self).

Definition releaseEquilGrid (h : store) (self : t) : result (store * t) :=
  h ← delete_pointer h (equilGrid_ self);
  let self := mk (grid_ self) (Pointer NULL) (cartesianIndexMapper_ self)
                 (equilCartesianIndexMapper_ self) in
  h ← delete_pointer h (equilCartesianIndexMapper_ self);
  let self := mk (grid_ self) (equilGrid_ self) (cartesianIndexMapper_ self)
                 (Pointer NULL) in
  Ok (h, self).

(** [loadBalance].  [mpi] is [None] for a build without MPI and otherwise
    the rank and size that [MPI_Comm_rank] and [MPI_Comm_size] give.  On
    rank 0 of a run with more processes than one, [std::abort()] ends the
    process, so that the call has no outcome ([None]) and the two
    statements after it are never reached. *)
Definition loadBalance (mpi : option (Z * Z)) (h : store) (self : t)
    : option (result (store * t)) :=
  let aborts :=
    match mpi with
    | Some (mpiRank, mpiSize) => (mpiRank =? 0)%Z && (1 <? mpiSize)%Z
    | None => false
    end in
  if aborts then None
  else Some (
    '(h, m) ← new_CartesianIndexMapper h (grid_ self);
    Ok (h, mk (grid_ self) (equilGrid_ self) m (equilCartesianIndexMapper_ self))).

(** [createGrids_], for the ECL grid and the pore volumes that
    [eclState()] gives. *)
Definition createGrids_ (eclGrid : EclipseGrid) (porv : Porv) (h : store) (self : t)
    : result (store * t) :=
  let '(h, a) := new_object h (Grid new_CpGrid) in
  let self := mk (Pointer (Ptr a)) (equilGrid_ self) (cartesianIndexMapper_ self)
                 (equilCartesianIndexMapper_ self) in
  h ← call_processEclipseFormat h (grid_ self) eclGrid false false false porv;
  let '(h, b) := new_object h (Grid new_CpGrid) in
  let self := mk (grid_ self) (Pointer (Ptr b)) (cartesianIndexMapper_ self)
                 (equilCartesianIndexMapper_ self) in
  h ← call_processEclipseFormat h (equilGrid_ self) eclGrid false false false porv;
  '(h, m) ← new_CartesianIndexMapper h (equilGrid_ self);
  Ok (h, mk (grid_ self) (equilGrid_ self) (cartesianIndexMapper_ self) m).

End Manager.

Arguments object : clear implicits.
Abbreviation store CpGrid := (gmap positive (object CpGrid)).
Arguments Grid {CpGrid} g.
Arguments CartesianIndexMapper {CpGrid} grid.

End EclCpGridManager.

(** A stand-in for the grid in the examples: a grid is the list of its
    pore volumes, scaled by the ECL grid's factor. *)
Definition sample_processEclipseFormat (g : list Z) (eclGrid : Z) (isPeriodic flipNormals clipZ : bool)
    (porv : list Z) : list Z :=
  (fun v => (eclGrid * v)%Z) <$> porv.

(** A store and a manager for the examples: the two grids at addresses 1
    and 2 and the mapper of the EQUIL grid at 3, [loadBalance] not yet
    called. *)
Definition sample_grid_store : EclCpGridManager.store (list Z) :=
  <[1%positive := EclCpGridManager.Grid [2; 4]%Z]>
    (<[2%positive := EclCpGridManager.Grid [2; 4]%Z]>
      (<[3%positive := EclCpGridManager.CartesianIndexMapper 2%positive]> ∅)).
Definition sample_grid_manager : EclCpGridManager.t :=
  EclCpGridManager.mk (EclCpGridManager.Pointer (Ptr 1)) (EclCpGridManager.Pointer (Ptr 2))
    EclCpGridManager.Indeterminate (EclCpGridManager.Pointer (Ptr 3)).
(** * Properties *)

(** ** Loops *)

Lemma for_loop_S {S : Type} (n : nat) (body : S → nat → S) (s : S) :
  for_loop (Datatypes.S n) body s = body (for_loop n body s) n.
Proof.
  unfold for_loop. rewrite seq_S, fold_left_app. reflexivity.
Qed.

(** Invariant rule for a counted loop. *)
Lemma for_loop_inv {S : Type} (P : nat → S → Prop) (n : nat) (body : S → nat → S) (s : S) :
  P 0 s →
  (∀ i st, i < n → P i st → P (Datatypes.S i) (body st i)) →
  P n (for_loop n body s).
Proof.
  intros H0 Hstep.
  assert (Hall : ∀ m, m ≤ n → P m (for_loop m body s)).
  { induction m as [|m IH]; intros Hm; [exact H0|].
    rewrite for_loop_S. apply Hstep; [lia|]. apply IH. lia. }
  apply Hall. lia.
Qed.

(** Row-major indices of a square block determine the row and the column. *)
Lemma block_index_inj (n r c r' c' : nat) :
  c < n → c' < n → n * r + c = n * r' + c' → r = r' ∧ c = c'.
Proof.
  intros Hc Hc' Heq.
  assert (r = r') as ->.
  { destruct (lt_eq_lt_dec r r') as [[Hlt|Heq']|Hgt]; [|exact Heq'|].
    - assert (n * Datatypes.S r ≤ n * r') by (apply Nat.mul_le_mono_l; lia). lia.
    - assert (n * Datatypes.S r' ≤ n * r) by (apply Nat.mul_le_mono_l; lia). lia. }
  split; [reflexivity|lia].
Qed.

(** ** Block kernels *)

Section BlockKernelFacts.
Context {F : Type} `{Scalar F}.
Variable BLOCK_SIZE : nat.

(** A doubly nested loop that stores [g row col old] at index
    [BLOCK_SIZE * row + col] visits every entry of the block exactly once. *)
Lemma block_sweep (g : nat → nat → F → F) (a : Block F) :
  length a = BLOCK_SIZE * BLOCK_SIZE →
  let a' :=
    for_loop BLOCK_SIZE (fun a row =>
      for_loop BLOCK_SIZE (fun a col =>
        <[BLOCK_SIZE * row + col := g row col (rd a (BLOCK_SIZE * row + col))]> a) a) a in
  length a' = BLOCK_SIZE * BLOCK_SIZE ∧
  ∀ row col, row < BLOCK_SIZE → col < BLOCK_SIZE →
    a' !! (BLOCK_SIZE * row + col) = Some (g row col (rd a (BLOCK_SIZE * row + col))).
Proof.
  intros Hlen a'. subst a'.
  set (Inv := fun (r c : nat) (x : Block F) =>
    length x = BLOCK_SIZE * BLOCK_SIZE ∧
    ∀ row col, row < BLOCK_SIZE → col < BLOCK_SIZE →
      x !! (BLOCK_SIZE * row + col) =
        if decide (row < r ∨ (row = r ∧ col < c))
        then Some (g row col (rd a (BLOCK_SIZE * row + col)))
        else a !! (BLOCK_SIZE * row + col)).
  assert (Hfin : Inv BLOCK_SIZE 0
    (for_loop BLOCK_SIZE (fun a row =>
      for_loop BLOCK_SIZE (fun a col =>
        <[BLOCK_SIZE * row + col := g row col (rd a (BLOCK_SIZE * row + col))]> a) a) a)).
  { apply (for_loop_inv (fun r x => Inv r 0 x)).
    - split; [exact Hlen|]. intros row col _ _.
      destruct (decide _) as [Hd|_]; [lia|reflexivity].
    - intros r st Hr Hst.
      assert (Hrow : Inv r BLOCK_SIZE
        (for_loop BLOCK_SIZE (fun a col =>
           <[BLOCK_SIZE * r + col := g r col (rd a (BLOCK_SIZE * r + col))]> a) st)).
      { apply (for_loop_inv (fun c x => Inv r c x)); [exact Hst|].
        intros c x Hc [Hlx Hx]. split; [by rewrite length_insert|].
        intros row col Hrow Hcol.
        destruct (decide (BLOCK_SIZE * r + c = BLOCK_SIZE * row + col)) as [Heq|Hne].
        + destruct (block_index_inj _ _ _ _ _ Hc Hcol Heq) as [<- <-].
          assert (BLOCK_SIZE * Datatypes.S r ≤ BLOCK_SIZE * BLOCK_SIZE)
            by (apply Nat.mul_le_mono_l; lia).
          rewrite list_lookup_insert_eq by lia.
          destruct (decide _) as [_|Hd]; [|lia].
          unfold rd at 1. rewrite (Hx r c Hr Hc).
          destruct (decide _) as [Hd|_]; [lia|]. reflexivity.
        + rewrite list_lookup_insert_ne by exact Hne.
          rewrite (Hx row col Hrow Hcol).
          assert (¬ (row = r ∧ col = c)) by (intros [-> ->]; lia).
          repeat destruct (decide _); try reflexivity; lia. }
      destruct Hrow as [Hl Hx]. split; [exact Hl|].
      intros row col Hrow Hcol. rewrite (Hx row col Hrow Hcol).
      repeat destruct (decide _); try reflexivity; lia. }
  destruct Hfin as [Hl Hx]. split; [exact Hl|].
  intros row col Hrow Hcol. rewrite (Hx row col Hrow Hcol).
  destruct (decide _) as [_|Hd]; [reflexivity|lia].
Qed.

(** Every index of a block is [BLOCK_SIZE * row + col] for one row and column. *)
Lemma block_index (i : nat) :
  i < BLOCK_SIZE * BLOCK_SIZE →
  ∃ row col, row < BLOCK_SIZE ∧ col < BLOCK_SIZE ∧ i = BLOCK_SIZE * row + col.
Proof.
  intros Hi. assert (BLOCK_SIZE ≠ 0) by lia.
  exists (i / BLOCK_SIZE), (i mod BLOCK_SIZE). split; [|split].
  - apply Nat.Div0.div_lt_upper_bound. lia.
  - apply Nat.mod_upper_bound. assumption.
  - apply Nat.div_mod_eq.
Qed.

Lemma blockMult_entry (mat1 mat2 resMat : Block F) :
  length resMat = BLOCK_SIZE * BLOCK_SIZE →
  length (blockMult BLOCK_SIZE mat1 mat2 resMat) = BLOCK_SIZE * BLOCK_SIZE ∧
  ∀ row col, row < BLOCK_SIZE → col < BLOCK_SIZE →
    blockMult BLOCK_SIZE mat1 mat2 resMat !! (BLOCK_SIZE * row + col)
    = Some (dotRowCol BLOCK_SIZE mat1 mat2 row col).
Proof.
  intros Hlen.
  exact (block_sweep (fun row col _ => dotRowCol BLOCK_SIZE mat1 mat2 row col) resMat Hlen).
Qed.

Lemma blockMultSub_entry (a b c : Block F) :
  length a = BLOCK_SIZE * BLOCK_SIZE →
  length (blockMultSub BLOCK_SIZE a b c) = BLOCK_SIZE * BLOCK_SIZE ∧
  ∀ row col, row < BLOCK_SIZE → col < BLOCK_SIZE →
    blockMultSub BLOCK_SIZE a b c !! (BLOCK_SIZE * row + col)
    = Some (fsub (rd a (BLOCK_SIZE * row + col)) (dotRowCol BLOCK_SIZE b c row col)).
Proof.
  intros Hlen.
  exact (block_sweep (fun row col old => fsub old (dotRowCol BLOCK_SIZE b c row col)) a Hlen).
Qed.

(** C7: for blocks of side [BLOCK_SIZE], [blockMultSub a b c] leaves in [a],
    at every entry [(row, col)], the old [a[row][col]] minus the sum over [k]
    of [b[row][k] * c[k][col]] (accumulated from [0.0] in increasing [k], as
    the loop does); as a whole block it is the old [a] minus, entry by entry,
    what [blockMult b c] stores into its result block. *)
Theorem blockMultSub_spec (a b c resMat : Block F) :
  length a = BLOCK_SIZE * BLOCK_SIZE →
  length resMat = BLOCK_SIZE * BLOCK_SIZE →
  (∀ row col, row < BLOCK_SIZE → col < BLOCK_SIZE →
     blockMultSub BLOCK_SIZE a b c !! (BLOCK_SIZE * row + col)
     = Some (fsub (rd a (BLOCK_SIZE * row + col))
                  (fold_left (fun temp k =>
                     fadd temp (fmul (rd b (BLOCK_SIZE * row + k)) (rd c (BLOCK_SIZE * k + col))))
                     (seq 0 BLOCK_SIZE) fzero)))
  ∧ blockMultSub BLOCK_SIZE a b c = zip_with fsub a (blockMult BLOCK_SIZE b c resMat).
Proof.
  intros Ha Hres.
  destruct (blockMultSub_entry a b c Ha) as [Hl1 He1].
  destruct (blockMult_entry b c resMat Hres) as [Hl2 He2].
  split; [exact He1|].
  apply list_eq. intros i.
  destruct (decide (i < BLOCK_SIZE * BLOCK_SIZE)) as [Hi|Hi].
  - destruct (block_index i Hi) as (row & col & Hrow & Hcol & ->).
    rewrite He1 by assumption.
    rewrite lookup_zip_with, He2 by assumption.
    unfold rd. destruct (lookup_lt_is_Some_2 a (BLOCK_SIZE * row + col)) as [x ->]; [lia|].
    reflexivity.
  - rewrite lookup_ge_None_2 by lia.
    symmetry. apply lookup_ge_None_2. rewrite length_zip_with. lia.
Qed.

End BlockKernelFacts.

(** An instance of [blockMultSub_spec] on binary64 with [BLOCK_SIZE = 3]. *)
Lemma blockMultSub_spec_witness :
  let a := [10; 0; 0; 0; 10; 0; 0; 0; 10]%float in
  let b := [1; 2; 3; 4; 5; 6; 7; 8; 9]%float in
  let c := [1; 0; 0; 0; 1; 0; 0; 0; 1]%float in
  blockMultSub 3 a b c = zip_with fsub a (blockMult 3 b c (replicate 9 0%float)).
Proof.
  intros a b c.
  apply (blockMultSub_spec 3 a b c (replicate 9 0%float)); reflexivity.
Defined.

(** ** Inversion of a 3x3 block *)

Section InvertExact.
Context {F : Type} `{Scalar F}.
Variable finv : F → F.
Hypothesis exact_arithmetic :
  field_theory fzero fone fadd fmul fsub fopp fdiv finv (@eq F).

Add Field scalar_field : exact_arithmetic.

(** C8 (exact arithmetic): when the scalars form a field and the determinant
    of the 3x3 block [mat] is not zero, multiplying the block computed by
    [blockInvert3x3] with [mat] gives the identity block. *)
Theorem blockInvert3x3_left_inverse (mat res out : Block F) :
  length mat = 9 → length res = 9 → length out = 9 →
  blockDet3x3 mat ≠ fzero →
  blockMult 3 (blockInvert3x3 mat res) mat out = identity3x3.
Proof.
  intros Hmat Hres Hout.
  do 10 (destruct mat as [|? mat]; try discriminate Hmat).
  do 10 (destruct res as [|? res]; try discriminate Hres).
  do 10 (destruct out as [|? out]; try discriminate Hout).
  clear Hmat Hres Hout.
  unfold blockDet3x3, rd. cbn. intros Hdet.
  unfold identity3x3, dotRowCol, for_loop, rd; cbn.
  unfold blockDet3x3, rd; cbn.
  repeat f_equal; field; exact Hdet.
Qed.

End InvertExact.

(** The rationals are a field for the scalar interface. *)
Lemma Qc_exact_arithmetic :
  field_theory (fzero (F:=Qc)) fone fadd fmul fsub fopp fdiv Qcinv (@eq Qc).
Proof. exact Qcft. Qed.

(** An instance of [blockInvert3x3_left_inverse] over the rationals, on a
    block of determinant 25. *)
Lemma blockInvert3x3_left_inverse_witness :
  let mat := [Q2Qc 2; Q2Qc 0; Q2Qc 1; Q2Qc 1; Q2Qc 3; Q2Qc 2; Q2Qc 1; Q2Qc (-1); Q2Qc 4] in
  blockMult 3 (blockInvert3x3 mat (replicate 9 (Q2Qc 0))) mat (replicate 9 (Q2Qc 0)) = identity3x3.
Proof.
  intros mat.
  apply (blockInvert3x3_left_inverse Qcinv Qc_exact_arithmetic); try reflexivity.
  intros Hdet. apply (f_equal this) in Hdet. vm_compute in Hdet. discriminate Hdet.
Defined.

(** C8, the floating-point clause fails: on binary64 the block
    [near_singular] is non-singular (its exact determinant is not zero, nor
    is the computed one), yet entry (0,0) of [blockMult (blockInvert3x3 M) M]
    differs from 1 by more than 2^-33 (which is above 1e-10); and on
    [big_diagonal] the product is not even a number, so no tolerance at all
    is met. *)
Lemma blockInvert3x3_binary64_counterexample :
  blockDet3x3 near_singular_exact ≠ fzero ∧
  PrimFloat.eqb (blockDet3x3 near_singular) 0 = false ∧
  PrimFloat.ltb 0x1p-33
    (PrimFloat.abs (rd (blockMult 3 (blockInvert3x3 near_singular (replicate 9 0%float))
                           near_singular (replicate 9 0%float)) 0 - 1)) = true ∧
  blockMult 3 (blockInvert3x3 big_diagonal (replicate 9 0%float)) big_diagonal
    (replicate 9 0%float) = replicate 9 nan.
Proof.
  split; [|split; [|split]].
  - intros Hdet. apply (f_equal this) in Hdet. vm_compute in Hdet. discriminate Hdet.
  - vm_compute. reflexivity.
  - vm_compute. reflexivity.
  - vm_compute. reflexivity.
Qed.

(** C1, as amended: [blockInvert3x3] performs no singularity test.  For
    every 3x3 block, whatever its determinant, it comes back with [res]
    holding the nine adjugate entries each multiplied by [1.0 / det]; it
    never signals a breakdown. *)
Theorem blockInvert3x3_unguarded {F : Type} `{Scalar F} (mat res : Block F) :
  length res = 9 →
  blockInvert3x3_outcome mat res
  = Inverted (map (fun adj => fmul adj (fdiv fone (blockDet3x3 mat))) (blockAdjugate3x3 mat)).
Proof.
  intros Hres.
  do 10 (destruct res as [|? res]; try discriminate Hres).
  reflexivity.
Qed.

Lemma blockInvert3x3_unguarded_witness :
  blockInvert3x3_outcome (replicate 9 0%float) (replicate 9 0%float)
  = Inverted (map (fun adj => fmul adj (fdiv fone (blockDet3x3 (replicate 9 0%float))))
                  (blockAdjugate3x3 (replicate 9 0%float))).
Proof.
  apply (blockInvert3x3_unguarded (replicate 9 0%float) (replicate 9 0%float)).
  reflexivity.
Defined.

(** C1 fails on the code: the zero block has determinant 0, below every
    positive epsilon, yet [blockInvert3x3] divides by it ([1.0 / 0.0] is
    infinity) and returns a block of NaN where the guarded operation of the
    specification reports [NumericBreakdown]. *)
Lemma blockInvert3x3_singular_counterexample :
  let zero := replicate 9 0%float in
  blockDet3x3 zero = 0%float ∧
  fdiv fone (blockDet3x3 zero) = infinity ∧
  blockInvert3x3_outcome zero zero = Inverted (replicate 9 nan) ∧
  ∀ eps, PrimFloat.ltb 0 eps = true →
    invert_guarded_spec eps zero zero = NumericBreakdown ∧
    blockInvert3x3_outcome zero zero ≠ invert_guarded_spec eps zero zero.
Proof.
  intros zero. split; [reflexivity|]. split; [reflexivity|]. split; [reflexivity|].
  intros eps Heps.
  assert (Hg : invert_guarded_spec eps zero zero = NumericBreakdown).
  { unfold invert_guarded_spec.
    change (PrimFloat.abs (blockDet3x3 zero)) with 0%float. rewrite Heps. reflexivity. }
  split; [exact Hg|]. rewrite Hg. discriminate.
Qed.

(** ** Storage of a blocked matrix *)

Lemma wrap_int_id (z : Z) : (INT_MIN ≤ z ≤ INT_MAX)%Z → wrap_int z = z.
Proof.
  unfold INT_MIN, INT_MAX, wrap_int. intros Hz.
  rewrite Z.mod_small by lia. lia.
Qed.

Section StorageFacts.
Context {F : Type}.
Variable BLOCK_SIZE : nat.

Lemma fresh_lookup_None (h : heap F) : h !! fresh (dom h) = None.
Proof. apply not_elem_of_dom. apply is_fresh. Qed.

Lemma set_members_eta (m : BlockedMatrix) :
  set_nnzbs (nnzbs m) (set_Nb (Nb m) (set_rowPointers (rowPointers m)
    (set_colIndices (colIndices m) (set_nnzValues (nnzValues m)
       (mkBlockedMatrix NULL NULL NULL 0 0))))) = m.
Proof. destruct m. reflexivity. Qed.

Lemma load_matrix_live (h : heap F) (a : positive) (m : BlockedMatrix) :
  h !! a = Some (Matrix m) → load_matrix h (Ptr a) = Ok m.
Proof. intros Ha. cbn. rewrite Ha. reflexivity. Qed.

Lemma store_matrix_live (h : heap F) (a : positive) (m : BlockedMatrix) f :
  h !! a = Some (Matrix m) → store_matrix h (Ptr a) f = Ok (<[a := Matrix (f m)]> h).
Proof. intros Ha. cbn. rewrite Ha. reflexivity. Qed.

Lemma new_array_fresh (h : heap F) (n : Z) (cells : nat → object F) :
  (0 ≤ n)%Z →
  ∃ p, new_array h n cells = Ok (<[p := cells (Z.to_nat n)]> h, Ptr p) ∧ h !! p = None.
Proof.
  intros Hn. exists (fresh (dom h)). unfold new_array.
  destruct (Z.ltb_spec n 0) as [?|_]; [lia|].
  split; [reflexivity|apply fresh_lookup_None].
Qed.

(** C5: for a live matrix structure [m] at [a], [soft_copyBlockedMatrix]
    creates one new structure [a'] and no array: every array of the free
    store is the same before and after, and the copy's [nnzValues],
    [colIndices] and [rowPointers] are the very pointers of the source, its
    [Nb] and [nnzbs] the source's. *)
Theorem soft_copy_shares_arrays (h : heap F) (a : positive) (m : BlockedMatrix) :
  h !! a = Some (Matrix m) →
  ∃ h' a' m',
    soft_copyBlockedMatrix h (Ptr a) = Ok (h', Ptr a') ∧
    h !! a' = None ∧ a' ≠ a ∧
    h' !! a' = Some (Matrix m') ∧
    h' !! a = Some (Matrix m) ∧
    nnzValues m' = nnzValues m ∧
    colIndices m' = colIndices m ∧
    rowPointers m' = rowPointers m ∧
    Nb m' = Nb m ∧ nnzbs m' = nnzbs m ∧
    (∀ p, p ≠ a' → h' !! p = h !! p) ∧
    (∀ p, is_array (h' !! p) ↔ is_array (h !! p)).
Proof.
  intros Ha.
  pose proof (fresh_lookup_None h) as Hfresh.
  set (a' := fresh (dom h)) in *.
  assert (Hne : a' ≠ a) by (intros E; rewrite E in Hfresh; congruence).
  assert (Hload : ∀ m0, load_matrix (<[a' := Matrix m0]> h) (Ptr a) = Ok m).
  { intros m0. apply load_matrix_live. rewrite lookup_insert_ne by exact Hne. exact Ha. }
  assert (Hstore : ∀ m0 f, store_matrix (<[a' := Matrix m0]> h) (Ptr a') f
                           = Ok (<[a' := Matrix (f m0)]> h)).
  { intros m0 f. rewrite (store_matrix_live _ a' m0) by apply lookup_insert_eq.
    rewrite insert_insert_eq. reflexivity. }
  exists (<[a' := Matrix m]> h), a', m.
  split.
  - unfold soft_copyBlockedMatrix, new_matrix. fold a'.
    do 5 (rewrite Hload; cbn [mbind result_bind]; rewrite Hstore; cbn [mbind result_bind]).
    rewrite set_members_eta. reflexivity.
  - split; [exact Hfresh|]. split; [exact Hne|].
    split; [apply lookup_insert_eq|].
    split; [rewrite lookup_insert_ne by exact Hne; exact Ha|].
    do 5 (split; [reflexivity|]).
    split.
    + intros p Hp. apply lookup_insert_ne. congruence.
    + intros p. destruct (decide (p = a')) as [->|Hp].
      * rewrite lookup_insert_eq, Hfresh. reflexivity.
      * rewrite lookup_insert_ne by congruence. reflexivity.
Qed.

(** C6: for a matrix that owns its three arrays, [freeBlockedMatrix]
    releases the three arrays and the structure, touches nothing else and
    leaves the handle null; called again on that handle it changes neither
    the free store nor the handle. *)
Theorem freeBlockedMatrix_idempotent (h : heap F) (a : positive) (m : BlockedMatrix) :
  owns_arrays h a m →
  ∃ h' v c r,
    nnzValues m = Ptr v ∧ colIndices m = Ptr c ∧ rowPointers m = Ptr r ∧
    freeBlockedMatrix h (Ptr a) = Ok (h', NULL) ∧
    h' !! v = None ∧ h' !! c = None ∧ h' !! r = None ∧ h' !! a = None ∧
    (∀ p, p ≠ v → p ≠ c → p ≠ r → p ≠ a → h' !! p = h !! p) ∧
    freeBlockedMatrix h' NULL = Ok (h', NULL).
Proof.
  intros [Ha (v & c & r & blocks & cols & rows & Hv & Hc & Hr & Hhv & Hhc & Hhr & Hvc & Hvr & Hcr)].
  assert (a ≠ v) by congruence.
  assert (a ≠ c) by congruence.
  assert (a ≠ r) by congruence.
  exists (delete a (delete r (delete c (delete v h)))), v, c, r.
  do 3 (split; [assumption|]).
  split.
  - unfold freeBlockedMatrix. cbn. rewrite Ha. cbn. rewrite Hv. cbn. rewrite Hhv. cbn.
    rewrite lookup_delete_ne by congruence. rewrite Ha. cbn. rewrite Hc. cbn.
    rewrite lookup_delete_ne by congruence. rewrite Hhc. cbn.
    rewrite !lookup_delete_ne by congruence. rewrite Ha. cbn. rewrite Hr. cbn.
    rewrite !lookup_delete_ne by congruence. rewrite Hhr. cbn.
    rewrite !lookup_delete_ne by congruence. rewrite Ha. cbn. reflexivity.
  - split; [rewrite !lookup_delete_ne by congruence; apply lookup_delete_eq|].
    split; [rewrite !lookup_delete_ne by congruence; apply lookup_delete_eq|].
    split; [rewrite !lookup_delete_ne by congruence; apply lookup_delete_eq|].
    split; [apply lookup_delete_eq|].
    split; [|reflexivity].
    intros p ? ? ? ?. rewrite !lookup_delete_ne by congruence. reflexivity.
Qed.

(** C4, as amended: for [0 <= nnzbs] and [0 <= Nb < INT_MAX],
    [allocateBlockedMatrix] returns a new structure with [Nb] and [nnzbs]
    set and three new, different arrays: [nnzbs] blocks of
    [BLOCK_SIZE * BLOCK_SIZE] doubles, [nnzbs] ints and [Nb + 1] ints.  Every
    cell of the three arrays is indeterminate (nothing is written), and what
    the free store held before is kept. *)
Theorem allocateBlockedMatrix_spec (h : heap F) (Nb0 nnzbs0 : Z) :
  (0 ≤ nnzbs0)%Z → (0 ≤ Nb0 < INT_MAX)%Z →
  ∃ h' a v c r,
    allocateBlockedMatrix BLOCK_SIZE h Nb0 nnzbs0 = Ok (h', Ptr a) ∧
    h' !! a = Some (Matrix (mkBlockedMatrix (Ptr v) (Ptr c) (Ptr r) Nb0 nnzbs0)) ∧
    h' !! v = Some (BlockArray (replicate (Z.to_nat nnzbs0)
                                  (replicate (BLOCK_SIZE * BLOCK_SIZE) None))) ∧
    h' !! c = Some (IntArray (replicate (Z.to_nat nnzbs0) None)) ∧
    h' !! r = Some (IntArray (replicate (Z.to_nat (Nb0 + 1)) None)) ∧
    v ≠ c ∧ v ≠ r ∧ c ≠ r ∧
    h !! a = None ∧ h !! v = None ∧ h !! c = None ∧ h !! r = None ∧
    (∀ p, p ≠ a → p ≠ v → p ≠ c → p ≠ r → h' !! p = h !! p).
Proof.
  intros Hnnz HNb.
  unfold allocateBlockedMatrix, new_matrix, new_Block_array, new_int_array.
  rewrite (wrap_int_id (Nb0 + 1)) by (unfold INT_MIN, INT_MAX in *; lia).
  pose proof (fresh_lookup_None h) as Hha.
  set (a := fresh (dom h)) in *.
  set (z := mkBlockedMatrix NULL NULL NULL 0 0).
  destruct (new_array_fresh (<[a := Matrix z]> h) nnzbs0
    (fun n => BlockArray (replicate n (replicate (BLOCK_SIZE * BLOCK_SIZE) None))) Hnnz)
    as (v & -> & Hv).
  cbn [mbind result_bind].
  assert (Hva : v ≠ a) by (intros E; rewrite E, lookup_insert_eq in Hv; discriminate).
  erewrite store_matrix_live
    by (rewrite lookup_insert_ne by congruence; apply lookup_insert_eq).
  cbn [mbind result_bind].
  match goal with |- context [new_array ?hh _ _] => set (h3 := hh) end.
  destruct (new_array_fresh h3 nnzbs0 (fun n => IntArray (replicate n None)) Hnnz)
    as (c & -> & Hc).
  cbn [mbind result_bind].
  assert (Hca : c ≠ a) by (intros E; unfold h3 in Hc; rewrite E, lookup_insert_eq in Hc; discriminate).
  assert (Hcv : c ≠ v).
  { intros E. unfold h3 in Hc.
    rewrite E, lookup_insert_ne, lookup_insert_eq in Hc by congruence. discriminate. }
  erewrite store_matrix_live
    by (rewrite lookup_insert_ne by congruence; apply lookup_insert_eq).
  cbn [mbind result_bind].
  match goal with |- context [new_array ?hh _ _] => set (h5 := hh) end.
  assert (HNb1 : (0 ≤ Nb0 + 1)%Z) by lia.
  destruct (new_array_fresh h5 (Nb0 + 1) (fun n => IntArray (replicate n None)) HNb1)
    as (r & -> & Hr).
  cbn [mbind result_bind].
  assert (Hra : r ≠ a) by (intros E; unfold h5 in Hr; rewrite E, lookup_insert_eq in Hr; discriminate).
  assert (Hrc : r ≠ c).
  { intros E. unfold h5 in Hr.
    rewrite E, lookup_insert_ne, lookup_insert_eq in Hr by congruence. discriminate. }
  assert (Hrv : r ≠ v).
  { intros E. unfold h5, h3 in Hr.
    rewrite E, !lookup_insert_ne, lookup_insert_eq in Hr by congruence. discriminate. }
  erewrite store_matrix_live
    by (rewrite lookup_insert_ne by congruence; apply lookup_insert_eq).
  cbn [mbind result_bind].
  erewrite store_matrix_live by apply lookup_insert_eq. cbn [mbind result_bind].
  erewrite store_matrix_live by apply lookup_insert_eq. cbn [mbind result_bind].
  eexists _, a, v, c, r. split; [reflexivity|].
  unfold h5, h3.
  split; [apply lookup_insert_eq|].
  split; [rewrite !lookup_insert_ne by congruence; apply lookup_insert_eq|].
  split; [rewrite !lookup_insert_ne by congruence; apply lookup_insert_eq|].
  split; [rewrite !lookup_insert_ne by congruence; apply lookup_insert_eq|].
  do 3 (split; [congruence|]).
  split; [exact Hha|].
  split; [rewrite lookup_insert_ne in Hv by congruence; exact Hv|].
  split; [unfold h3 in Hc; rewrite !lookup_insert_ne in Hc by congruence; exact Hc|].
  split; [unfold h5, h3 in Hr; rewrite !lookup_insert_ne in Hr by congruence; exact Hr|].
  intros p ? ? ? ?. rewrite !lookup_insert_ne by congruence. reflexivity.
Qed.

End StorageFacts.

Lemma soft_copy_shares_arrays_witness :
  ∃ h' a' m',
    soft_copyBlockedMatrix sample_heap (Ptr 1) = Ok (h', Ptr a') ∧
    sample_heap !! a' = None ∧ a' ≠ 1%positive ∧
    h' !! a' = Some (Matrix m') ∧
    h' !! 1%positive = Some (Matrix sample_matrix) ∧
    nnzValues m' = nnzValues sample_matrix ∧
    colIndices m' = colIndices sample_matrix ∧
    rowPointers m' = rowPointers sample_matrix ∧
    Nb m' = Nb sample_matrix ∧ nnzbs m' = nnzbs sample_matrix ∧
    (∀ p, p ≠ a' → h' !! p = sample_heap !! p) ∧
    (∀ p, is_array (h' !! p) ↔ is_array (sample_heap !! p)).
Proof.
  apply (soft_copy_shares_arrays sample_heap 1 sample_matrix).
  reflexivity.
Defined.

(** What sharing means for release: once the source of a soft copy is
    freed, the copy's array pointers dangle, and freeing the copy as well
    deletes the arrays a second time. *)
Example free_source_then_soft_copy :
  ∃ h1 copy h2,
    soft_copyBlockedMatrix sample_heap (Ptr 1) = Ok (h1, copy) ∧
    freeBlockedMatrix h1 (Ptr 1) = Ok (h2, NULL) ∧
    freeBlockedMatrix h2 copy = Undefined.
Proof.
  eexists _, _, _. split; [vm_compute; reflexivity|].
  split; vm_compute; reflexivity.
Qed.

Lemma sample_heap_owns : owns_arrays sample_heap 1 sample_matrix.
Proof.
  split; [reflexivity|].
  eexists 2%positive, 3%positive, 4%positive, _, _, _.
  repeat split; try reflexivity; discriminate.
Defined.

Lemma freeBlockedMatrix_idempotent_witness :
  ∃ h' v c r,
    nnzValues sample_matrix = Ptr v ∧ colIndices sample_matrix = Ptr c ∧
    rowPointers sample_matrix = Ptr r ∧
    freeBlockedMatrix sample_heap (Ptr 1) = Ok (h', NULL) ∧
    h' !! v = None ∧ h' !! c = None ∧ h' !! r = None ∧ h' !! 1%positive = None ∧
    (∀ p, p ≠ v → p ≠ c → p ≠ r → p ≠ 1%positive → h' !! p = sample_heap !! p) ∧
    freeBlockedMatrix h' NULL = Ok (h', NULL).
Proof.
  apply (freeBlockedMatrix_idempotent sample_heap 1 sample_matrix).
  exact sample_heap_owns.
Defined.

Lemma allocateBlockedMatrix_spec_witness :
  ∃ h' a v c r,
    allocateBlockedMatrix 3 sample_heap 2 1 = Ok (h', Ptr a) ∧
    h' !! a = Some (Matrix (mkBlockedMatrix (Ptr v) (Ptr c) (Ptr r) 2 1)) ∧
    h' !! v = Some (BlockArray (replicate (Z.to_nat 1) (replicate (3 * 3) None))) ∧
    h' !! c = Some (IntArray (replicate (Z.to_nat 1) None)) ∧
    h' !! r = Some (IntArray (replicate (Z.to_nat (2 + 1)) None)) ∧
    v ≠ c ∧ v ≠ r ∧ c ≠ r ∧
    sample_heap !! a = None ∧ sample_heap !! v = None ∧
    sample_heap !! c = None ∧ sample_heap !! r = None ∧
    (∀ p, p ≠ a → p ≠ v → p ≠ c → p ≠ r → h' !! p = sample_heap !! p).
Proof.
  apply (allocateBlockedMatrix_spec 3 sample_heap 2 1); unfold INT_MAX; lia.
Defined.

(** C4 fails on the code: [allocateBlockedMatrix(2, 1)] on an empty free
    store yields the structure at address 1 with arrays at 2, 3 and 4 whose
    cells are indeterminate; they are not the zero-filled arrays of the
    specification. *)
Lemma allocateBlockedMatrix_not_zero_filled :
  ∃ h',
    allocateBlockedMatrix 3 (∅ : heap float) 2 1 = Ok (h', Ptr 1) ∧
    h' !! 1%positive = Some (Matrix (mkBlockedMatrix (Ptr 2) (Ptr 3) (Ptr 4) 2 1)) ∧
    h' !! 2%positive = Some (BlockArray [replicate 9 None]) ∧
    h' !! 3%positive = Some (IntArray [None]) ∧
    h' !! 4%positive = Some (IntArray [None; None; None]) ∧
    ¬ zero_filled 3 0%float h' (mkBlockedMatrix (Ptr 2) (Ptr 3) (Ptr 4) 2 1).
Proof.
  eexists. split; [vm_compute; reflexivity|].
  do 4 (split; [vm_compute; reflexivity|]).
  intros (v & c & r & Hv & Hc & Hr & _ & Hcols & _).
  cbn in Hc. injection Hc as <-.
  vm_compute in Hcols. discriminate Hcols.
Qed.

(** ** Sorting NNCs and applying EDITNNC *)

Section NncOrder.
Context {F : Type}.
Implicit Types d e : NNCdata F.

Lemma nncLess_true d1 d2 :
  nncLess d1 d2 = true ↔
  (cell1 d1 < cell1 d2 ∨ (cell1 d1 = cell1 d2 ∧ cell2 d1 < cell2 d2))%Z.
Proof.
  unfold nncLess.
  destruct (Z.ltb_spec (cell1 d1) (cell1 d2)), (Z.eqb_spec (cell1 d1) (cell1 d2)),
    (Z.ltb_spec (cell2 d1) (cell2 d2)); cbn; split; try lia; try discriminate; auto.
Qed.

Lemma nncLess_false d1 d2 :
  nncLess d1 d2 = false ↔
  (cell1 d2 < cell1 d1 ∨ (cell1 d1 = cell1 d2 ∧ cell2 d2 ≤ cell2 d1))%Z.
Proof.
  rewrite <- not_true_iff_false, nncLess_true. lia.
Qed.

#[export] Instance nncLe_trans : Transitive (@nncLe F).
Proof. intros a b c. unfold nncLe. rewrite !nncLess_false. lia. Qed.

#[export] Instance nncLe_total : Total (@nncLe F).
Proof. intros a b. unfold nncLe. rewrite !nncLess_false. lia. Qed.

(** Merge sort meets what the standard asks of [std::sort]. *)
Lemma merge_sort_nnc_sorts : sorts_by_nncLess (@merge_sort_nnc F).
Proof.
  intros l. split.
  - apply merge_sort_Permutation.
  - apply StronglySorted_merge_sort; apply _.
Qed.

Lemma lower_bound_from_spec (range : list (NNCdata F)) (value : NNCdata F) (first : nat) :
  let p := lower_bound_from range value first in
  first ≤ p ≤ first + length range ∧
  (∀ i d, first + i < p → range !! i = Some d → nncLess d value = true) ∧
  (∀ d, range !! (p - first) = Some d → nncLess d value = false).
Proof.
  revert first. induction range as [|x range IH]; intros first; cbn.
  - split; [lia|]. split; [intros i d _ Hd; discriminate Hd|intros d Hd].
    rewrite lookup_nil in Hd. discriminate.
  - destruct (nncLess x value) eqn:Hx.
    + destruct (IH (S first)) as (Hb & Hlt & Hge). split; [lia|]. split.
      * intros [|i] d Hi Hd; cbn in Hd; [congruence|].
        apply (Hlt i d); [lia|exact Hd].
      * intros d Hd. apply Hge.
        replace (lower_bound_from range value (S first) - first)
          with (S (lower_bound_from range value (S first) - S first)) in Hd by lia.
        exact Hd.
    + split; [lia|]. split; [intros i d Hi; lia|].
      intros d Hd. rewrite Nat.sub_diag in Hd. cbn in Hd. congruence.
Qed.

Lemma lower_bound_spec (nncData : list (NNCdata F)) (first : nat) (value : NNCdata F) :
  first ≤ length nncData →
  let p := lower_bound nncData first value in
  first ≤ p ≤ length nncData ∧
  (∀ j d, first ≤ j < p → nncData !! j = Some d → nncLess d value = true) ∧
  (∀ d, nncData !! p = Some d → nncLess d value = false).
Proof.
  intros Hfirst p. unfold lower_bound in p.
  destruct (lower_bound_from_spec (drop first nncData) value first) as (Hb & Hlt & Hge).
  fold p in Hb, Hlt, Hge. rewrite length_drop in Hb.
  split; [lia|]. split.
  - intros j d Hj Hd. apply (Hlt (j - first)); [lia|].
    rewrite lookup_drop. replace (first + (j - first)) with j by lia. exact Hd.
  - intros d Hd. apply Hge. rewrite lookup_drop.
    replace (first + (p - first)) with p by lia. exact Hd.
Qed.

End NncOrder.

Section NncSorterFacts.
Context {F : Type} `{Scalar F}.
Implicit Types d e edit : NNCdata F.

Lemma sameCells_true d e :
  sameCells d e = true ↔ cell1 e = cell1 d ∧ cell2 e = cell2 d.
Proof.
  unfold sameCells. rewrite andb_true_iff, !Z.eqb_eq. reflexivity.
Qed.

Lemma applyEdits_nil d : applyEdits [] d = d.
Proof. destruct d. reflexivity. Qed.

Lemma applyEdits_cells edits d :
  cell1 (applyEdits edits d) = cell1 d ∧ cell2 (applyEdits edits d) = cell2 d.
Proof. split; reflexivity. Qed.

Lemma applyEdits_one_match d e :
  sameCells d e = true →
  applyEdits [e] d = mkNNCdata (cell1 d) (cell2 d) (fmul (trans d) (trans e)).
Proof.
  intros Hm. unfold applyEdits. rewrite filter_cons_True by exact Hm. reflexivity.
Qed.

Lemma applyEdits_one_other d e : sameCells d e ≠ true → applyEdits [e] d = d.
Proof.
  intros Hm. unfold applyEdits. rewrite filter_cons_False by exact Hm.
  destruct d. reflexivity.
Qed.

Lemma applyEdits_cons e edits d :
  applyEdits (e :: edits) d = applyEdits edits (applyEdits [e] d).
Proof.
  destruct (decide (sameCells d e = true)) as [Hm|Hm].
  - rewrite (applyEdits_one_match d e Hm). unfold applyEdits.
    rewrite filter_cons_True by exact Hm. reflexivity.
  - rewrite (applyEdits_one_other d e Hm). unfold applyEdits.
    rewrite filter_cons_False by exact Hm. reflexivity.
Qed.

(** An edit leaves alone every entry placed before it by [nncLess]. *)
Lemma applyEdits_one_less d e : nncLess d e = true → applyEdits [e] d = d.
Proof.
  intros Hlt. apply applyEdits_one_other. rewrite sameCells_true.
  apply nncLess_true in Hlt. lia.
Qed.

Lemma fmap_applyEdits_less (l : list (NNCdata F)) e :
  (∀ d, d ∈ l → nncLess d e = true) → applyEdits [e] <$> l = l.
Proof.
  intros Hl. induction l as [|x l IH]; [reflexivity|]. cbn.
  rewrite applyEdits_one_less by (apply Hl; left).
  f_equal. apply IH. intros d Hd. apply Hl. right. exact Hd.
Qed.

(** The inner loop on a sorted range whose entries are not less than the
    edit: it multiplies exactly the entries that name the edit's cells. *)
Lemma multiplyWhile_sorted (suf : list (NNCdata F)) :
  ∀ (pre : list (NNCdata F)) (steps : nat) e,
    length suf ≤ steps →
    StronglySorted nncLe suf →
    (∀ d, d ∈ suf → nncLess d e = false) →
    multiplyWhile steps (pre ++ suf) (length pre) e = pre ++ (applyEdits [e] <$> suf).
Proof.
  induction suf as [|x suf IH]; intros pre steps e Hsteps Hsorted Hge.
  - change (applyEdits [e] <$> []) with (@nil (NNCdata F)). rewrite app_nil_r.
    destruct steps; [reflexivity|]. cbn.
    rewrite lookup_ge_None_2 by lia. reflexivity.
  - destruct steps as [|steps]; [cbn in Hsteps; lia|]. cbn [multiplyWhile].
    rewrite list_lookup_middle by reflexivity.
    apply StronglySorted_cons in Hsorted as [Hx Hsorted].
    destruct ((cell1 x =? cell1 e)%Z && (cell2 x =? cell2 e)%Z) eqn:Hm.
    + assert (Hs : sameCells x e = true).
      { apply sameCells_true. apply andb_true_iff in Hm as [H1 H2].
        apply Z.eqb_eq in H1, H2. lia. }
      replace (length pre) with (length pre + 0) at 1 by lia.
      rewrite insert_app_r. cbn [insert list_insert].
      rewrite (cons_middle _ pre suf), app_assoc.
      replace (S (length pre)) with (length (pre ++ [mkNNCdata (cell1 x) (cell2 x)
                                                      (fmul (trans x) (trans e))]))
        by (rewrite length_app; cbn; lia).
      rewrite IH.
      * rewrite <- app_assoc. cbn. rewrite (applyEdits_one_match x e Hs). reflexivity.
      * cbn in Hsteps. lia.
      * exact Hsorted.
      * intros d Hd. apply Hge. right. exact Hd.
    + f_equal. symmetry. cbn.
      assert (Hxe : nncLess x e = false) by (apply Hge; left).
      assert (Hne : ¬ (cell1 e = cell1 x ∧ cell2 e = cell2 x)).
      { intros [H1 H2]. rewrite H1, H2, !Z.eqb_refl in Hm. discriminate. }
      rewrite applyEdits_one_other by (rewrite sameCells_true; exact Hne).
      f_equal. clear IH.
      induction suf as [|y suf IHs]; [reflexivity|]. cbn.
      apply Forall_cons in Hx as [Hxy Hx].
      apply StronglySorted_cons in Hsorted as [_ Hsorted].
      rewrite applyEdits_one_other.
      * f_equal. apply IHs; try assumption.
        -- cbn in Hsteps |- *. lia.
        -- intros d Hd. apply Hge. apply elem_of_cons in Hd as [->|Hd];
             [left|right; right; exact Hd].
      * rewrite sameCells_true. unfold nncLe in Hxy.
        apply nncLess_false in Hxy, Hxe. lia.
Qed.

(** The rest of the loop body when [candidate] stands on the first entry
    not less than the edit. *)
Lemma applyAtCandidate_sorted (st : EditState) e :
  StronglySorted nncLe (nncData_of st) →
  candidate_of st ≤ length (nncData_of st) →
  (∀ j d, j < candidate_of st → nncData_of st !! j = Some d → nncLess d e = true) →
  (∀ d, nncData_of st !! candidate_of st = Some d → nncLess d e = false) →
  nncData_of (applyAtCandidate st e) = applyEdits [e] <$> nncData_of st.
Proof.
  intros Hsorted Hc Hlt Hge. unfold applyAtCandidate. cbn [nncData_of].
  set (N := nncData_of st) in *. set (c := candidate_of st) in *.
  pose proof (take_drop c N) as HN.
  pose proof (length_take_le N c Hc) as Hlen.
  assert (Hx : ∀ x rest, drop c N = x :: rest → nncLess x e = false).
  { intros x rest Hdr. apply Hge. replace c with (c + 0) by lia.
    rewrite <- lookup_drop, Hdr. reflexivity. }
  assert (Hpre : ∀ d, d ∈ take c N → nncLess d e = true).
  { intros d Hd. apply elem_of_take in Hd as (i & Hi & Hic). eapply Hlt; eassumption. }
  assert (Hlsuf : length (drop c N) ≤ length N) by (rewrite length_drop; lia).
  revert HN Hlen Hx Hpre Hlsuf.
  generalize (take c N) (drop c N). intros pre suf HN Hlen Hx Hpre Hlsuf.
  rewrite <- HN in Hsorted.
  apply StronglySorted_app in Hsorted as (_ & _ & Hsuf).
  rewrite <- HN at 2 3. rewrite <- Hlen.
  rewrite multiplyWhile_sorted.
  - rewrite fmap_app. f_equal. symmetry. apply fmap_applyEdits_less. exact Hpre.
  - exact Hlsuf.
  - exact Hsuf.
  - intros d Hd. destruct suf as [|x rest]; [inversion Hd|].
    specialize (Hx x rest eq_refl).
    apply elem_of_cons in Hd as [->|Hd]; [exact Hx|].
    apply StronglySorted_cons in Hsuf as [Hall _].
    rewrite Forall_forall in Hall. specialize (Hall d Hd). unfold nncLe in Hall.
    apply nncLess_false in Hall, Hx. apply nncLess_false. lia.
Qed.

(** [nncLess] only looks at the cells. *)
Lemma nncLess_value d e (t : F) :
  nncLess d (mkNNCdata (cell1 e) (cell2 e) t) = nncLess d e.
Proof. reflexivity. Qed.

(** One iteration, when it completes: on sorted data with everything before
    [candidate] less than the edit, the data become their image under the
    edit, and [candidate] rests where everything before it is still less
    than the edit. *)
Lemma editStep_sorted (log : bool) (st st' : EditState) e :
  StronglySorted nncLe (nncData_of st) →
  candidate_of st ≤ length (nncData_of st) →
  (∀ j d, j < candidate_of st → nncData_of st !! j = Some d → nncLess d e = true) →
  editStep log st e = Ok st' →
  nncData_of st' = applyEdits [e] <$> nncData_of st ∧
  candidate_of st' ≤ length (nncData_of st) ∧
  (∀ j d, j < candidate_of st' → nncData_of st !! j = Some d → nncLess d e = true).
Proof.
  intros Hsorted Hc Hlt. unfold editStep.
  set (N := nncData_of st) in *. set (c := candidate_of st) in *.
  assert (Hall : ∀ p, p = length N →
            (∀ j d, j < p → N !! j = Some d → nncLess d e = true) →
            N = applyEdits [e] <$> N).
  { intros p -> Hp. symmetry. apply fmap_applyEdits_less. intros d Hd.
    apply list_elem_of_lookup in Hd as [j Hj].
    apply (Hp j d); [|exact Hj]. apply lookup_lt_Some in Hj. exact Hj. }
  destruct ((c =? length N) && log) eqn:Hend.
  - intros [= Hst]; rewrite <- Hst; clear Hst st'. cbn. fold N c.
    apply andb_true_iff in Hend as [Hend _]. apply Nat.eqb_eq in Hend.
    split; [apply (Hall c Hend Hlt)|]. split; [lia|exact Hlt].
  - unfold deref. fold N c. destruct (N !! c) as [dc|] eqn:Hdc; [|discriminate].
    cbn [mbind result_bind].
    destruct (negb (cell1 dc =? cell1 e)%Z || negb (cell2 dc =? cell2 e)%Z) eqn:Hdiff.
    + destruct (lower_bound_spec N c (mkNNCdata (cell1 e) (cell2 e) fzero) Hc)
        as (Hb & Hlow & Hge).
      cbn [nncData_of candidate_of warnings_of]. fold N c.
      set (p := lower_bound N c (mkNNCdata (cell1 e) (cell2 e) fzero)) in *.
      assert (Hlt' : ∀ j d, j < p → N !! j = Some d → nncLess d e = true).
      { intros j d Hj Hd. destruct (decide (j < c)) as [Hjc|Hjc].
        - apply (Hlt j d Hjc Hd).
        - rewrite <- (nncLess_value d e fzero). apply (Hlow j d); [lia|exact Hd]. }
      destruct ((p =? length N) && log) eqn:Hend'.
      * intros [= Hst]; rewrite <- Hst; clear Hst st'. cbn. fold N.
        apply andb_true_iff in Hend' as [Hend' _]. apply Nat.eqb_eq in Hend'.
        split; [apply (Hall p Hend' Hlt')|]. split; [lia|exact Hlt'].
      * intros [= Hst]; rewrite <- Hst; clear Hst st'. split; [|split].
        -- apply applyAtCandidate_sorted; cbn [nncData_of candidate_of]; fold N.
           ++ exact Hsorted.
           ++ lia.
           ++ exact Hlt'.
           ++ intros d Hd. rewrite <- (nncLess_value d e fzero). apply Hge. exact Hd.
        -- cbn. lia.
        -- cbn. exact Hlt'.
    + intros [= Hst]; rewrite <- Hst; clear Hst st'. split; [|split].
      * apply applyAtCandidate_sorted; fold N c; [exact Hsorted|exact Hc|exact Hlt|].
        intros d Hd. rewrite Hdc in Hd. injection Hd as <-.
        apply orb_false_iff in Hdiff as [H1 H2].
        apply negb_false_iff, Z.eqb_eq in H1, H2.
        apply nncLess_false. lia.
      * cbn. fold c N. exact Hc.
      * cbn. fold c. exact Hlt.
Qed.

Lemma multiplyWhile_length (steps : nat) :
  ∀ (N : list (NNCdata F)) (c : nat) e, length (multiplyWhile steps N c e) = length N.
Proof.
  induction steps as [|steps IH]; intros N c e; [reflexivity|]. cbn.
  destruct (N !! c) as [d|]; [|reflexivity].
  destruct (_ && _); [|reflexivity].
  rewrite IH. apply length_insert.
Qed.

(** With [log] set, an iteration never dereferences [nncData.end()]. *)
Lemma editStep_log_total (st : EditState) e :
  candidate_of st ≤ length (nncData_of st) →
  ∃ st', editStep true st e = Ok st' ∧
         length (nncData_of st') = length (nncData_of st) ∧
         candidate_of st' ≤ length (nncData_of st').
Proof.
  intros Hc. unfold editStep.
  destruct (Nat.eqb_spec (candidate_of st) (length (nncData_of st))) as [Hend|Hend]; cbn [andb].
  - eexists. split; [reflexivity|]. cbn. split; [reflexivity|exact Hc].
  - unfold deref.
    destruct (lookup_lt_is_Some_2 (nncData_of st) (candidate_of st)) as [dc ->]; [lia|].
    cbn [mbind result_bind].
    destruct (negb _ || negb _).
    + destruct (lower_bound_spec (nncData_of st) (candidate_of st)
                  (mkNNCdata (cell1 e) (cell2 e) fzero) Hc) as (Hb & _ & _).
      cbn [nncData_of candidate_of warnings_of].
      destruct (Nat.eqb_spec (lower_bound (nncData_of st) (candidate_of st)
                  (mkNNCdata (cell1 e) (cell2 e) fzero)) (length (nncData_of st)));
        cbn [andb].
      * eexists. split; [reflexivity|]. cbn. split; [reflexivity|lia].
      * eexists. split; [reflexivity|]. cbn. rewrite multiplyWhile_length.
        split; [reflexivity|lia].
    + eexists. split; [reflexivity|]. cbn. rewrite multiplyWhile_length.
      split; [reflexivity|lia].
Qed.

Lemma forEachEdit_log_total (edits : list (NNCdata F)) :
  ∀ st, candidate_of st ≤ length (nncData_of st) →
        ∃ st', forEachEdit true edits st = Ok st'.
Proof.
  induction edits as [|e edits IH]; intros st Hc; cbn.
  - eexists. reflexivity.
  - destruct (editStep_log_total st e Hc) as (st1 & -> & _ & Hc1).
    cbn [mbind result_bind]. apply IH. exact Hc1.
Qed.

Lemma forEachEdit_sorted (log : bool) (edits : list (NNCdata F)) :
  ∀ st st',
    StronglySorted nncLe edits →
    StronglySorted nncLe (nncData_of st) →
    candidate_of st ≤ length (nncData_of st) →
    (∀ j d e, e ∈ edits → j < candidate_of st → nncData_of st !! j = Some d →
              nncLess d e = true) →
    forEachEdit log edits st = Ok st' →
    nncData_of st' = applyEdits edits <$> nncData_of st.
Proof.
  induction edits as [|e edits IH]; intros st st' Hedits Hsorted Hc Hlt; cbn.
  - intros [= <-]. rewrite <- (list_fmap_id (nncData_of st)) at 1.
    apply list_fmap_ext. intros i d _. symmetry. apply applyEdits_nil.
  - destruct (editStep log st e) as [st1| | |] eqn:Hstep; try discriminate.
    cbn [mbind result_bind]. intros Hrest.
    apply StronglySorted_cons in Hedits as [He Hedits].
    destruct (editStep_sorted log st st1 e Hsorted Hc) as (HN1 & Hc1 & Hlt1);
      [intros j d Hj Hd; apply (Hlt j d e); [left|exact Hj|exact Hd]|exact Hstep|].
    rewrite (IH st1 st' Hedits); [| | |  |exact Hrest].
    + rewrite HN1, <- list_fmap_compose. apply list_fmap_ext.
      intros i d _. cbn. symmetry. apply applyEdits_cons.
    + rewrite HN1. apply (StronglySorted_fmap _ nncLe nncLe); [|exact Hsorted].
      intros x y. unfold nncLe. rewrite !nncLess_false. cbn. tauto.
    + rewrite HN1, length_fmap. exact Hc1.
    + intros j d' e' He' Hj Hd'. rewrite HN1, list_lookup_fmap in Hd'.
      destruct (nncData_of st !! j) as [d|] eqn:Hd; [|discriminate].
      injection Hd' as <-.
      specialize (Hlt1 j d Hj Hd). rewrite Forall_forall in He.
      specialize (He e' He'). unfold nncLe in He.
      apply nncLess_true in Hlt1. apply nncLess_false in He. apply nncLess_true.
      cbn. lia.
Qed.

End NncSorterFacts.

Section NncSorterTheorems.
Context {F : Type} `{Scalar F}.
Variable std_sort : list (NNCdata F) → list (NNCdata F).
Hypothesis std_sort_sorts : sorts_by_nncLess std_sort.

(** With [log] set, [sortNncAndApplyEditnnc] completes on every input. *)
Lemma sortNncAndApplyEditnnc_log_total (nncData editnncData : list (NNCdata F)) :
  ∃ res, sortNncAndApplyEditnnc std_sort nncData editnncData true = Ok res.
Proof.
  unfold sortNncAndApplyEditnnc.
  destruct (forEachEdit_log_total editnncData (mkEditState (std_sort nncData) 0 []))
    as [st' ->]; [cbn; lia|].
  eexists. reflexivity.
Qed.

(** With [log] unset, an empty [nncData] and any edit at all lead to the
    dereference of [nncData.end()], whatever [std::sort] does. *)
Lemma sortNncAndApplyEditnnc_empty_undefined (edit : NNCdata F) (rest : list (NNCdata F)) :
  sortNncAndApplyEditnnc std_sort [] (edit :: rest) false = Undefined.
Proof.
  unfold sortNncAndApplyEditnnc.
  destruct (std_sort_sorts []) as [Hperm _].
  apply Permutation_nil_r in Hperm. rewrite Hperm. reflexivity.
Qed.

(** When the call completes on edits sorted by cells, the data are the
    sorted input with every applicable edit multiplied in. *)
Lemma sortNncAndApplyEditnnc_result (nncData editnncData : list (NNCdata F)) (log : bool) res :
  StronglySorted nncLe editnncData →
  sortNncAndApplyEditnnc std_sort nncData editnncData log = Ok res →
  res.1 = applyEdits editnncData <$> std_sort nncData.
Proof.
  intros Hedits. unfold sortNncAndApplyEditnnc.
  destruct (forEachEdit log editnncData _) as [st'| | |] eqn:Hloop; try discriminate.
  cbn [mbind result_bind]. intros [= <-]. cbn [fst].
  apply (forEachEdit_sorted log editnncData _ st' Hedits) in Hloop.
  - exact Hloop.
  - apply std_sort_sorts.
  - cbn. lia.
  - cbn. intros j d e _ Hj. lia.
Qed.

(** C10, as amended: when [editnncData] is sorted by (cell1, cell2), a call
    of [sortNncAndApplyEditnnc] with [log] set returns, and a call with
    [log] unset that returns, leaves in [nncData] the entries [sorted] of
    the input put in (cell1, cell2) order by [std::sort], each with the same
    cells and with [trans] multiplied, in the order of [editnncData], by
    the [trans] of every edit naming its pair of cells (once per such edit,
    repeated edits included). *)
Theorem sortNncAndApplyEditnnc_sorted_edits (nncData editnncData : list (NNCdata F)) :
  StronglySorted nncLe editnncData →
  let sorted := std_sort nncData in
  let final := applyEdits editnncData <$> sorted in
  sorted ≡ₚ nncData ∧
  StronglySorted nncLe sorted ∧
  (∃ warnings,
     sortNncAndApplyEditnnc std_sort nncData editnncData true = Ok (final, warnings)) ∧
  (∀ res warnings,
     sortNncAndApplyEditnnc std_sort nncData editnncData false = Ok (res, warnings) →
     res = final) ∧
  StronglySorted nncLe final ∧
  cell1 <$> final = cell1 <$> sorted ∧
  cell2 <$> final = cell2 <$> sorted ∧
  (∀ i d, final !! i = Some d →
     ∃ d0, sorted !! i = Some d0 ∧ cell1 d = cell1 d0 ∧ cell2 d = cell2 d0 ∧
       trans d = fold_left fmul
                   (map trans (filter (fun e => sameCells d0 e = true) editnncData))
                   (trans d0)).
Proof.
  intros Hedits sorted final.
  destruct (std_sort_sorts nncData) as [Hperm Hsorted].
  split; [exact Hperm|]. split; [exact Hsorted|]. split; [|split; [|split; [|split; [|split]]]].
  - destruct (sortNncAndApplyEditnnc_log_total nncData editnncData) as [[res w] Hres].
    exists w. rewrite Hres.
    apply (sortNncAndApplyEditnnc_result _ _ _ _ Hedits) in Hres. cbn in Hres.
    rewrite Hres. reflexivity.
  - intros res w Hres.
    apply (sortNncAndApplyEditnnc_result _ _ _ _ Hedits) in Hres. exact Hres.
  - apply (StronglySorted_fmap _ nncLe nncLe); [|exact Hsorted].
    intros x y. unfold nncLe. rewrite !nncLess_false. cbn. tauto.
  - unfold final. rewrite <- list_fmap_compose. apply list_fmap_ext. reflexivity.
  - unfold final. rewrite <- list_fmap_compose. apply list_fmap_ext. reflexivity.
  - intros i d Hd. unfold final in Hd. rewrite list_lookup_fmap in Hd.
    destruct (sorted !! i) as [d0|]; [|discriminate]. injection Hd as <-.
    exists d0. repeat split; reflexivity.
Qed.

End NncSorterTheorems.

Lemma sortNncAndApplyEditnnc_sorted_edits_witness :
  (∃ warnings,
     sortNncAndApplyEditnnc merge_sort_nnc sample_nnc sample_edits true
     = Ok (applyEdits sample_edits <$> merge_sort_nnc sample_nnc, warnings)) ∧
  applyEdits sample_edits <$> merge_sort_nnc sample_nnc
  = [mkNNCdata 0 7 1; mkNNCdata 1 2 6; mkNNCdata 1 2 24; mkNNCdata 3 1 0.5]%float.
Proof.
  split; [|reflexivity].
  assert (Hedits : StronglySorted nncLe sample_edits)
    by (repeat (constructor; try reflexivity)).
  destruct (sortNncAndApplyEditnnc_sorted_edits merge_sort_nnc merge_sort_nnc_sorts
              sample_nnc sample_edits Hedits) as (_ & _ & Hlog & _).
  exact Hlog.
Defined.

(** C10 fails on the code: with the edits for (2,2) and then (1,1), the
    connection (1,1) keeps its transmissibility 1 although an edit with
    multiplier 5 names it; the claim asks for 5. *)
Lemma sortNncAndApplyEditnnc_unsorted_edits_counterexample :
  sortNncAndApplyEditnnc merge_sort_nnc two_nnc unsorted_edits true
  = Ok ([mkNNCdata 1 1 1; mkNNCdata 2 2 3]%float, []) ∧
  applyEdits unsorted_edits <$> merge_sort_nnc two_nnc
  = [mkNNCdata 1 1 5; mkNNCdata 2 2 3]%float.
Proof. split; vm_compute; reflexivity. Qed.

(** C9 is broken by the code when [log] is unset: the test for
    [nncData.end()] is tied to [log], so the dereference on line 58 is
    reached with the past-the-end iterator, on an empty [nncData] with one
    edit, and on one connection followed by two edits beyond it.  With [log]
    set the same inputs are handled and warned about. *)
Theorem sortNncAndApplyEditnnc_reads_past_end :
  sortNncAndApplyEditnnc merge_sort_nnc [] [mkNNCdata 1 2 2%float] false = Undefined ∧
  sortNncAndApplyEditnnc merge_sort_nnc [mkNNCdata 1 1 1%float]
    [mkNNCdata 5 5 2%float; mkNNCdata 6 6 2%float] false = Undefined ∧
  sortNncAndApplyEditnnc merge_sort_nnc [] [mkNNCdata 1 2 2%float] true
  = Ok ([], [(1, 2)%Z]) ∧
  sortNncAndApplyEditnnc merge_sort_nnc [mkNNCdata 1 1 1%float]
    [mkNNCdata 5 5 2%float; mkNNCdata 6 6 2%float] true
  = Ok ([mkNNCdata 1 1 1%float], [(5, 5)%Z; (6, 6)%Z]).
Proof. repeat split; vm_compute; reflexivity. Qed.

(** ** Sorting a row *)

Section RowSortFacts.
Context {B : Type}.
Local Open Scope Z_scope.

Lemma rdZ_Some {A : Type} (xs : list A) (i : Z) (x : A) :
  0 ≤ i → xs !! Z.to_nat i = Some x → rdZ xs i = Ok x.
Proof.
  intros Hi Hx. unfold rdZ. destruct (Z.ltb_spec i 0); [lia|]. rewrite Hx. reflexivity.
Qed.

Lemma rdZ_zth (xs : list Z) (i : Z) :
  0 ≤ i < Z.of_nat (length xs) → rdZ xs i = Ok (zth xs i).
Proof.
  intros Hi. unfold zth.
  destruct (lookup_lt_is_Some_2 xs (Z.to_nat i)) as [x Hx]; [lia|].
  rewrite Hx. apply rdZ_Some; [lia|exact Hx].
Qed.

Lemma wrZ_ok {A : Type} (xs : list A) (i : Z) (x : A) :
  0 ≤ i < Z.of_nat (length xs) → wrZ xs i x = Ok (<[Z.to_nat i := x]> xs).
Proof.
  intros Hi. unfold wrZ. destruct (Z.ltb_spec i 0); [lia|].
  destruct (Nat.ltb_spec (Z.to_nat i) (length xs)); [reflexivity|lia].
Qed.

Lemma zth_insert (xs : list Z) (i j x : Z) :
  0 ≤ i < Z.of_nat (length xs) → 0 ≤ j →
  zth (<[Z.to_nat i := x]> xs) j = if decide (i = j) then x else zth xs j.
Proof.
  intros Hi Hj. unfold zth. destruct (decide (i = j)) as [->|Hne].
  - rewrite list_lookup_insert_eq by lia. reflexivity.
  - rewrite list_lookup_insert_ne by lia. reflexivity.
Qed.

Lemma zth_lookup (xs : list Z) (i : nat) (x : Z) :
  xs !! i = Some x → zth xs (Z.of_nat i) = x.
Proof. intros Hx. unfold zth. rewrite Nat2Z.id, Hx. reflexivity. Qed.

(** The upward scan stops at the first entry from [l] on that is not below
    [middle], provided there is one at some [s] inside the array. *)
Lemma scanUp_spec (fuel : nat) (colIndices : list Z) (middle : Z) :
  ∀ l s,
    0 ≤ l ≤ s → s < Z.of_nat (length colIndices) → s < INT_MAX →
    middle ≤ zth colIndices s →
    s - l < Z.of_nat fuel →
    ∃ l', scanUp fuel colIndices middle l = Ok l' ∧
          l ≤ l' ≤ s ∧ middle ≤ zth colIndices l' ∧
          ∀ i, l ≤ i < l' → zth colIndices i < middle.
Proof.
  induction fuel as [|fuel IH]; intros l s Hl Hs Hmax Hsent Hfuel; [lia|].
  cbn [scanUp]. rewrite rdZ_zth by lia. cbn [mbind result_bind].
  destruct (Z.ltb_spec (zth colIndices l) middle) as [Hlt|Hge].
  - assert (l ≠ s) by (intros ->; lia).
    rewrite wrap_int_id by (unfold INT_MIN, INT_MAX in *; lia).
    destruct (IH (l + 1) s) as (l' & -> & Hb & Hstop & Hbelow); try lia.
    exists l'. split; [reflexivity|]. split; [lia|]. split; [exact Hstop|].
    intros i Hi. destruct (decide (i = l)) as [->|]; [exact Hlt|].
    apply Hbelow. lia.
  - exists l. split; [reflexivity|]. split; [lia|]. split; [exact Hge|].
    intros i Hi. lia.
Qed.

(** The downward scan stops at the last entry up to [r] that is not above
    [middle], provided there is one at some [s] inside the array. *)
Lemma scanDown_spec (fuel : nat) (colIndices : list Z) (middle : Z) :
  ∀ r s,
    0 ≤ s ≤ r → r < Z.of_nat (length colIndices) → r ≤ INT_MAX →
    zth colIndices s ≤ middle →
    r - s < Z.of_nat fuel →
    ∃ r', scanDown fuel colIndices middle r = Ok r' ∧
          s ≤ r' ≤ r ∧ zth colIndices r' ≤ middle ∧
          ∀ i, r' < i ≤ r → middle < zth colIndices i.
Proof.
  induction fuel as [|fuel IH]; intros r s Hs Hr Hmax Hsent Hfuel; [lia|].
  cbn [scanDown]. rewrite rdZ_zth by lia. cbn [mbind result_bind].
  destruct (Z.ltb_spec middle (zth colIndices r)) as [Hlt|Hge].
  - assert (r ≠ s) by (intros ->; lia).
    rewrite wrap_int_id by (unfold INT_MIN, INT_MAX in *; lia).
    destruct (IH (r - 1) s) as (r' & -> & Hb & Hstop & Habove); try lia.
    exists r'. split; [reflexivity|]. split; [lia|]. split; [exact Hstop|].
    intros i Hi. destruct (decide (i = r)) as [->|]; [exact Hlt|].
    apply Habove. lia.
  - exists r. split; [reflexivity|]. split; [lia|]. split; [exact Hge|].
    intros i Hi. lia.
Qed.

(** Exchanging two entries of a list permutes it. *)
Lemma insert_extract_perm {A : Type} (xs : list A) :
  ∀ (j : nat) (x xj : A), xs !! j = Some xj → xj :: <[j := x]> xs ≡ₚ x :: xs.
Proof.
  induction xs as [|h t IH]; intros j x xj Hj; [discriminate|].
  destruct j as [|j]; cbn in Hj |- *.
  - injection Hj as ->. apply perm_swap.
  - rewrite perm_swap. rewrite (IH j x xj Hj). apply perm_swap.
Qed.

Lemma insert_swap_perm {A : Type} (xs : list A) :
  ∀ (i j : nat) (xi xj : A),
    xs !! i = Some xi → xs !! j = Some xj → <[j := xi]> (<[i := xj]> xs) ≡ₚ xs.
Proof.
  induction xs as [|h t IH]; intros i j xi xj Hi Hj; [discriminate|].
  destruct i as [|i], j as [|j]; cbn in Hi, Hj |- *.
  - injection Hi as ->. injection Hj as ->. reflexivity.
  - injection Hi as ->. apply insert_extract_perm. exact Hj.
  - injection Hj as ->. apply insert_extract_perm. exact Hi.
  - f_equiv. apply (IH i j xi xj Hi Hj).
Qed.

Lemma rowPermuted_refl (left right : Z) (colIndices : list Z) (data : list B) :
  rowPermuted left right colIndices data colIndices data.
Proof. repeat split; reflexivity. Qed.

Lemma rowPermuted_trans (left right a1 b1 a2 b2 : Z)
    (A A1 A2 : list Z) (D D1 D2 : list B) :
  rowPermuted a1 b1 A D A1 D1 →
  rowPermuted a2 b2 A1 D1 A2 D2 →
  left ≤ a1 → b1 ≤ right → left ≤ a2 → b2 ≤ right →
  rowPermuted left right A D A2 D2.
Proof.
  intros (HlA1 & HlD1 & Hout1 & Hperm1) (HlA2 & HlD2 & Hout2 & Hperm2) ? ? ? ?.
  split; [congruence|]. split; [congruence|]. split.
  - intros i Hi.
    destruct (Hout2 i) as [-> ->]; [lia|].
    destruct (Hout1 i) as [-> ->]; [lia|]. split; reflexivity.
  - rewrite Hperm2. exact Hperm1.
Qed.

Lemma swapEntries_spec (colIndices : list Z) (data : list B) (l r : Z) :
  length data = length colIndices →
  0 ≤ l → l ≤ r → r < Z.of_nat (length colIndices) →
  ∃ colIndices' data',
    swapEntries colIndices data l r = Ok (colIndices', data') ∧
    rowPermuted l r colIndices data colIndices' data' ∧
    zth colIndices' l = zth colIndices r ∧
    zth colIndices' r = zth colIndices l ∧
    (∀ i, 0 ≤ i → i ≠ l → i ≠ r → zth colIndices' i = zth colIndices i).
Proof.
  intros Hlen Hl Hlr Hr. unfold swapEntries.
  destruct (lookup_lt_is_Some_2 colIndices (Z.to_nat l)) as [cl Hcl]; [lia|].
  destruct (lookup_lt_is_Some_2 colIndices (Z.to_nat r)) as [cr Hcr]; [lia|].
  destruct (lookup_lt_is_Some_2 data (Z.to_nat l)) as [dl Hdl]; [lia|].
  destruct (lookup_lt_is_Some_2 data (Z.to_nat r)) as [dr Hdr]; [lia|].
  rewrite (rdZ_Some colIndices l cl) by (lia || assumption). cbn [mbind result_bind].
  rewrite (rdZ_Some colIndices r cr) by (lia || assumption). cbn [mbind result_bind].
  rewrite wrZ_ok by lia. cbn [mbind result_bind].
  rewrite wrZ_ok by (rewrite length_insert; lia). cbn [mbind result_bind].
  rewrite (rdZ_Some data l dl) by (lia || assumption). cbn [mbind result_bind].
  rewrite (rdZ_Some data r dr) by (lia || assumption). cbn [mbind result_bind].
  rewrite wrZ_ok by lia. cbn [mbind result_bind].
  rewrite wrZ_ok by (rewrite length_insert; lia). cbn [mbind result_bind].
  eexists _, _. split; [reflexivity|]. split; [|split; [|split]].
  - split; [by rewrite !length_insert|]. split; [by rewrite !length_insert|]. split.
    + intros i Hi. rewrite !list_lookup_insert_ne by lia. split; reflexivity.
    + rewrite <- (insert_zip_with pair (<[Z.to_nat l:=cr]> colIndices)
                    (<[Z.to_nat l:=dr]> data) (Z.to_nat r) cl dl).
      rewrite <- (insert_zip_with pair colIndices data (Z.to_nat l) cr dr).
      apply insert_swap_perm.
      * rewrite lookup_zip_with, Hcl. cbn. rewrite Hdl. reflexivity.
      * rewrite lookup_zip_with, Hcr. cbn. rewrite Hdr. reflexivity.
  - unfold zth at 1. destruct (decide (l = r)) as [->|Hne].
    + rewrite list_lookup_insert_eq by (rewrite length_insert; lia).
      unfold zth. rewrite Hcl. reflexivity.
    + rewrite list_lookup_insert_ne by lia.
      rewrite list_lookup_insert_eq by lia. unfold zth. rewrite Hcr. reflexivity.
  - unfold zth at 1. rewrite list_lookup_insert_eq by (rewrite length_insert; lia).
    unfold zth. rewrite Hcl. reflexivity.
  - intros i Hi Hil Hir. unfold zth. rewrite !list_lookup_insert_ne by lia. reflexivity.
Qed.

(** The partition loop, from any state in which the scans are guarded by
    entries on the proper side of [middle], leaves everything left of the
    final [l] not above [middle] and everything right of the final [r] not
    below it. *)
Lemma partitionLoop_spec (left right middle : Z) (fuel : nat) :
  ∀ (A : list Z) (D : list B) (l r : Z),
    length D = length A →
    0 ≤ left → right < Z.of_nat (length A) → right < INT_MAX →
    left ≤ l → r ≤ right →
    (∃ s, l ≤ s ≤ right ∧ middle ≤ zth A s) →
    (∃ s, left ≤ s ≤ r ∧ zth A s ≤ middle) →
    (∀ i, left ≤ i < l → zth A i ≤ middle) →
    (∀ i, r < i ≤ right → middle ≤ zth A i) →
    right - left + 2 + Z.max 0 (r - l) ≤ Z.of_nat fuel →
    ∃ A' D' l' r',
      partitionLoop fuel A D middle l r = Ok (A', D', l', r') ∧
      rowPermuted left right A D A' D' ∧
      l ≤ l' ≤ right + 1 ∧ left - 1 ≤ r' ≤ r ∧ r' ≤ l' ∧
      (∀ i, left ≤ i < l' → zth A' i ≤ middle) ∧
      (∀ i, r' < i ≤ right → middle ≤ zth A' i) ∧
      ((∃ p, l ≤ p ≤ r ∧ zth A p = middle) → l < l' ∧ r' < r).
Proof.
  induction fuel as [|fuel IH];
    intros A D l r Hlen Hleft Hright Hmax Hl Hr (s1 & Hs1 & Hsent1) (s2 & Hs2 & Hsent2)
      HL HR Hfuel; [lia|].
  cbn [partitionLoop].
  destruct (scanUp_spec fuel A middle l s1) as (l1 & -> & Hl1 & Hstop1 & Hbelow); try lia.
  cbn [mbind result_bind].
  destruct (scanDown_spec fuel A middle r s2) as (r1 & -> & Hr1 & Hstop2 & Habove);
    try (unfold INT_MAX in *; lia).
  cbn [mbind result_bind].
  destruct (Z.leb_spec l1 r1) as [Hle|Hgt].
  - destruct (swapEntries_spec A D l1 r1) as (A1 & D1 & -> & Hperm & Hzl & Hzr & Hzo);
      try lia.
    cbn [mbind result_bind].
    rewrite !wrap_int_id by (unfold INT_MIN, INT_MAX in *; lia).
    assert (HL1 : ∀ i, left ≤ i < l1 + 1 → zth A1 i ≤ middle).
    { intros i Hi. destruct (decide (i = l1)) as [->|Hne]; [lia|].
      rewrite Hzo by lia. destruct (decide (i < l)); [apply HL; lia|].
      assert (zth A i < middle) by (apply Hbelow; lia). lia. }
    assert (HR1 : ∀ i, r1 - 1 < i ≤ right → middle ≤ zth A1 i).
    { intros i Hi. destruct (decide (i = r1)) as [->|Hne]; [lia|].
      rewrite Hzo by lia. destruct (decide (r < i)); [apply HR; lia|].
      assert (middle < zth A i) by (apply Habove; lia). lia. }
    pose proof Hperm as (HlA1 & HlD1 & _ & _).
    destruct (Z.ltb_spec (l1 + 1) (r1 - 1)) as [Hcont|Hexit].
    + destruct (IH A1 D1 (l1 + 1) (r1 - 1)) as
        (A' & D' & l' & r' & -> & Hperm' & Hbl & Hbr & Hrl & HL' & HR' & _); try lia.
      * exists r1. split; [lia|]. rewrite Hzr. exact Hstop1.
      * exists l1. split; [lia|]. rewrite Hzl. exact Hstop2.
      * exact HL1.
      * exact HR1.
      * exists A', D', l', r'. split; [reflexivity|].
        split; [apply (rowPermuted_trans left right l1 r1 left right A A1 A' D D1 D');
                 assumption || lia|].
        split; [lia|]. split; [lia|]. split; [exact Hrl|].
        split; [exact HL'|]. split; [exact HR'|]. intros _. lia.
    + exists A1, D1, (l1 + 1), (r1 - 1). split; [reflexivity|].
      split; [apply (rowPermuted_trans left right l1 r1 left right A A1 A1 D D1 D1);
               try assumption; try lia; apply rowPermuted_refl|].
      split; [lia|]. split; [lia|]. split; [lia|].
      split; [exact HL1|]. split; [exact HR1|]. intros _. lia.
  - cbn [mbind result_bind]. destruct (Z.ltb_spec l1 r1) as [?|_]; [lia|].
    exists A, D, l1, r1. split; [reflexivity|].
    split; [apply rowPermuted_refl|].
    split; [lia|]. split; [lia|]. split; [lia|]. split; [|split].
    + intros i Hi. destruct (decide (i < l)); [apply HL; lia|].
      assert (zth A i < middle) by (apply Hbelow; lia). lia.
    + intros i Hi. destruct (decide (r < i)); [apply HR; lia|].
      assert (middle < zth A i) by (apply Habove; lia). lia.
    + intros (p & Hp & Hpm). exfalso.
      assert (l1 ≤ p).
      { destruct (decide (l1 ≤ p)); [assumption|].
        assert (zth A p < middle) by (apply Hbelow; lia). lia. }
      assert (p ≤ r1).
      { destruct (decide (p ≤ r1)); [assumption|].
        assert (middle < zth A p) by (apply Habove; lia). lia. }
      lia.
Qed.

(** *** Segments of an array *)

Lemma segZ_lookup {A : Type} (xs : list A) (lo hi : Z) (i : nat) :
  0 ≤ lo →
  segZ xs lo hi !! i
  = if decide (Z.of_nat i < hi - lo) then xs !! (Z.to_nat lo + i)%nat else None.
Proof.
  intros Hlo. unfold segZ. rewrite lookup_take.
  destruct (decide (i < Z.to_nat (hi - lo))%nat), (decide (Z.of_nat i < hi - lo));
    try lia; [|reflexivity].
  apply lookup_drop.
Qed.

Lemma segZ_length {A : Type} (xs : list A) (lo hi : Z) :
  0 ≤ lo → lo ≤ hi → hi ≤ Z.of_nat (length xs) →
  Z.of_nat (length (segZ xs lo hi)) = hi - lo.
Proof.
  intros. unfold segZ. rewrite length_take, length_drop. lia.
Qed.

Lemma segZ_app {A : Type} (xs : list A) (lo mid hi : Z) :
  0 ≤ lo → lo ≤ mid → mid ≤ hi →
  segZ xs lo hi = segZ xs lo mid ++ segZ xs mid hi.
Proof.
  intros Hlo Hmid Hhi. unfold segZ.
  replace (Z.to_nat (hi - lo)) with (Z.to_nat (mid - lo) + Z.to_nat (hi - mid))%nat by lia.
  rewrite <- take_take_drop. f_equal. rewrite drop_drop. do 2 f_equal. lia.
Qed.

Lemma segZ_ext {A : Type} (xs ys : list A) (lo hi : Z) :
  0 ≤ lo →
  (∀ i : nat, lo ≤ Z.of_nat i < hi → xs !! i = ys !! i) →
  segZ xs lo hi = segZ ys lo hi.
Proof.
  intros Hlo Hext. apply list_eq. intros i. rewrite !segZ_lookup by exact Hlo.
  destruct (decide _); [|reflexivity]. apply Hext. lia.
Qed.

Lemma segZ_singleton (xs : list Z) (k : Z) :
  0 ≤ k < Z.of_nat (length xs) → segZ xs k (k + 1) = [zth xs k].
Proof.
  intros Hk. apply list_eq. intros i. rewrite segZ_lookup by lia.
  destruct (lookup_lt_is_Some_2 xs (Z.to_nat k)) as [x Hx]; [lia|].
  unfold zth. rewrite Hx. destruct i as [|i]; cbn.
  - destruct (decide _); [|lia]. rewrite Nat.add_0_r. exact Hx.
  - destruct (decide _); [lia|reflexivity].
Qed.

Lemma segZ_short_sorted (xs : list Z) (lo hi : Z) :
  hi - lo ≤ 1 → StronglySorted Z.le (segZ xs lo hi).
Proof.
  intros Hshort. unfold segZ.
  destruct (Z.to_nat (hi - lo)) as [|[|n]] eqn:Hn; [| |lia].
  - rewrite take_0. constructor.
  - destruct (drop (Z.to_nat lo) xs) as [|x rest]; cbn; [constructor|].
    rewrite take_0. repeat constructor.
Qed.

Lemma segZ_Forall (P : Z → Prop) (xs : list Z) (lo hi : Z) :
  0 ≤ lo →
  (∀ i, lo ≤ i < hi → i < Z.of_nat (length xs) → P (zth xs i)) →
  Forall P (segZ xs lo hi).
Proof.
  intros Hlo HP. apply Forall_lookup_2. intros i x Hx.
  rewrite segZ_lookup in Hx by exact Hlo. destruct (decide _); [|discriminate].
  pose proof (lookup_lt_Some _ _ _ Hx).
  replace x with (zth xs (lo + Z.of_nat i)).
  - apply HP; lia.
  - unfold zth. replace (Z.to_nat (lo + Z.of_nat i)) with (Z.to_nat lo + i)%nat by lia.
    rewrite Hx. reflexivity.
Qed.

(** A permutation of a list that keeps everything outside a segment in
    place permutes the segment. *)
Lemma segZ_perm {A : Type} (xs ys : list A) (lo hi : Z) :
  0 ≤ lo → lo ≤ hi → hi ≤ Z.of_nat (length xs) →
  length ys = length xs →
  ys ≡ₚ xs →
  (∀ i : nat, (Z.of_nat i < lo ∨ hi ≤ Z.of_nat i) → ys !! i = xs !! i) →
  segZ ys lo hi ≡ₚ segZ xs lo hi.
Proof.
  intros Hlo Hhi Hlen Hlens Hperm Hout.
  assert (Hsplit : ∀ zs : list A,
            zs = take (Z.to_nat lo) zs ++ segZ zs lo hi ++ drop (Z.to_nat hi) zs).
  { intros zs. unfold segZ.
    rewrite <- (take_drop (Z.to_nat lo) zs) at 1. f_equal.
    rewrite <- (take_drop (Z.to_nat (hi - lo)) (drop (Z.to_nat lo) zs)) at 1. f_equal.
    rewrite drop_drop. f_equal. lia. }
  assert (Htake : take (Z.to_nat lo) ys = take (Z.to_nat lo) xs).
  { apply list_eq. intros i. rewrite !lookup_take.
    destruct (decide _); [|reflexivity]. apply Hout. lia. }
  assert (Hdrop : drop (Z.to_nat hi) ys = drop (Z.to_nat hi) xs).
  { apply list_eq. intros i. rewrite !lookup_drop. apply Hout. lia. }
  rewrite (Hsplit ys), (Hsplit xs), Htake, Hdrop in Hperm.
  apply (inj (app _)) in Hperm. apply (inj (λ l, l ++ _)) in Hperm. exact Hperm.
Qed.

Lemma segZ_zip {A C : Type} (xs : list A) (ys : list C) (lo hi : Z) :
  segZ (zip xs ys) lo hi = zip (segZ xs lo hi) (segZ ys lo hi).
Proof. unfold segZ. rewrite zip_with_drop, zip_with_take. reflexivity. Qed.

Lemma rowPermuted_seg_zip (left right : Z) (A A' : list Z) (D D' : list B) :
  rowPermuted left right A D A' D' →
  length D = length A →
  0 ≤ left → left ≤ right + 1 → right < Z.of_nat (length A) →
  zip (segZ A' left (right + 1)) (segZ D' left (right + 1))
  ≡ₚ zip (segZ A left (right + 1)) (segZ D left (right + 1)).
Proof.
  intros (HlA & HlD & Hout & Hperm) Hlen Hleft Hlr Hright.
  rewrite <- !segZ_zip. apply segZ_perm; try lia.
  - rewrite length_zip_with. lia.
  - rewrite !length_zip_with. lia.
  - exact Hperm.
  - intros i Hi. rewrite !lookup_zip_with.
    destruct (Hout i) as [-> ->]; [lia|]. reflexivity.
Qed.

Lemma rowPermuted_seg (left right : Z) (A A' : list Z) (D D' : list B) :
  rowPermuted left right A D A' D' →
  length D = length A →
  0 ≤ left → left ≤ right + 1 → right < Z.of_nat (length A) →
  segZ A' left (right + 1) ≡ₚ segZ A left (right + 1).
Proof.
  intros Hp Hlen Hleft Hlr Hright.
  pose proof (rowPermuted_seg_zip left right A A' D D' Hp Hlen Hleft Hlr Hright) as Hz.
  destruct Hp as (HlA & HlD & _ & _).
  apply (fmap_Permutation fst) in Hz.
  rewrite !fst_zip in Hz; [exact Hz|unfold segZ..];
    rewrite !length_take, !length_drop; lia.
Qed.

(** *** Putting the two sorted parts together *)

Lemma all_equal_sorted (m : Z) (ys : list Z) :
  Forall (λ v, m ≤ v ∧ v ≤ m) ys → StronglySorted Z.le ys.
Proof.
  induction 1 as [|y ys Hy Hys IH]; constructor; [exact IH|].
  eapply Forall_impl; [exact Hys|]. cbn. intros v Hv. lia.
Qed.

(** In a sorted list obtained by permuting [P ++ [x0]], where only [x0] may
    exceed [m], everything before the last entry is at most [m]. *)
Lemma perm_all_but_last (X P : list Z) (y x0 m : Z) :
  X ++ [y] ≡ₚ P ++ [x0] →
  StronglySorted Z.le (X ++ [y]) →
  Forall (λ v, v ≤ m) P →
  Forall (λ v, v ≤ m) X.
Proof.
  intros Hperm Hsorted HP.
  destruct (decide (x0 ≤ m)) as [Hx0|Hx0].
  - assert (Hall : Forall (λ v, v ≤ m) (X ++ [y])).
    { rewrite Hperm. apply Forall_app. split; [exact HP|]. repeat constructor. exact Hx0. }
    apply Forall_app in Hall as [Hall _]. exact Hall.
  - assert (Hin : x0 ∈ X ++ [y])
      by (rewrite Hperm; apply elem_of_app; right; apply list_elem_of_singleton; reflexivity).
    assert (Hy : x0 ≤ y).
    { apply elem_of_app in Hin as [Hin|Hin].
      - apply (StronglySorted_app_1_elem_of _ _ _ _ _ Hsorted Hin).
        apply list_elem_of_singleton. reflexivity.
      - apply list_elem_of_singleton in Hin. lia. }
    assert (Hyin : y ∈ P ++ [x0])
      by (rewrite <- Hperm; apply elem_of_app; right; apply list_elem_of_singleton; reflexivity).
    assert (y = x0) as ->.
    { apply elem_of_app in Hyin as [Hyin|Hyin].
      - rewrite Forall_forall in HP. specialize (HP y Hyin). cbn in HP. lia.
      - apply list_elem_of_singleton in Hyin. exact Hyin. }
    apply (inj (λ l, l ++ [x0])) in Hperm. rewrite Hperm. exact HP.
Qed.

Lemma sorted_from_parts (A1 A2 A3 : list Z) (D1 D2 D3 : list B) (left right l' r' m : Z) :
  length D1 = length A1 →
  0 ≤ left → right < Z.of_nat (length A1) →
  left < l' → l' ≤ right + 1 → left - 1 ≤ r' → r' < right → r' ≤ l' →
  (∀ i, left ≤ i < l' → zth A1 i ≤ m) →
  (∀ i, r' < i ≤ right → m ≤ zth A1 i) →
  rowPermuted left r' A1 D1 A2 D2 →
  StronglySorted Z.le (segZ A2 left (r' + 1)) →
  rowPermuted l' right A2 D2 A3 D3 →
  StronglySorted Z.le (segZ A3 l' (right + 1)) →
  StronglySorted Z.le (segZ A3 left (right + 1)).
Proof.
  intros Hlen Hleft Hright Hl' Hl'r Hr' Hr'r Hrl HL HR Hp2 Hs2 Hp3 Hs3.
  pose proof Hp2 as (HlA2 & HlD2 & O12 & _).
  pose proof Hp3 as (HlA3 & HlD3 & O23 & _).
  pose proof (rowPermuted_seg left r' A1 A2 D1 D2 Hp2) as P12.
  pose proof (rowPermuted_seg l' right A2 A3 D2 D3 Hp3) as P23.
  specialize (P12 Hlen ltac:(lia) ltac:(lia) ltac:(lia)).
  specialize (P23 ltac:(lia) ltac:(lia) ltac:(lia) ltac:(lia)).
  assert (HW : segZ A2 l' (right + 1) = segZ A1 l' (right + 1) ∨ r' = l').
  { destruct (decide (r' = l')) as [|Hne]; [right; assumption|left].
    apply segZ_ext; [lia|]. intros i Hi. apply O12. lia. }
  destruct (decide (r' < l')) as [Hdis|Hov].
  - destruct HW as [HW|?]; [|lia].
    rewrite (segZ_app A3 left (r' + 1) (right + 1)) by lia.
    rewrite (segZ_app A3 (r' + 1) l' (right + 1)) by lia.
    assert (HX : segZ A3 left (r' + 1) = segZ A2 left (r' + 1)).
    { apply segZ_ext; [lia|]. intros i Hi. apply O23. lia. }
    assert (HY : segZ A3 (r' + 1) l' = segZ A1 (r' + 1) l').
    { apply segZ_ext; [lia|]. intros i Hi.
      destruct (O23 i) as [-> _]; [lia|]. apply O12. lia. }
    assert (FX : Forall (λ v, v ≤ m) (segZ A3 left (r' + 1))).
    { rewrite HX, P12. apply segZ_Forall; [lia|]. intros i Hi _. apply HL. lia. }
    assert (FY : Forall (λ v, m ≤ v ∧ v ≤ m) (segZ A3 (r' + 1) l')).
    { rewrite HY. apply segZ_Forall; [lia|]. intros i Hi _.
      split; [apply HR|apply HL]; lia. }
    assert (FW : Forall (λ v, m ≤ v) (segZ A3 l' (right + 1))).
    { rewrite P23, HW. apply segZ_Forall; [lia|]. intros i Hi _. apply HR. lia. }
    rewrite Forall_forall in FX, FY, FW.
    apply StronglySorted_app_2.
    + intros x1 x2 Hx1 Hx2. specialize (FX x1 Hx1). cbn in FX.
      apply elem_of_app in Hx2 as [Hx2|Hx2].
      * specialize (FY x2 Hx2). cbn in FY. lia.
      * specialize (FW x2 Hx2). cbn in FW. lia.
    + rewrite HX. exact Hs2.
    + apply StronglySorted_app_2.
      * intros x1 x2 Hx1 Hx2. specialize (FY x1 Hx1). specialize (FW x2 Hx2).
        cbn in FY, FW. lia.
      * apply (all_equal_sorted m). rewrite Forall_forall. exact FY.
      * exact Hs3.
  - assert (r' = l') as -> by lia. clear HW Hov Hrl.
    rewrite (segZ_app A3 left l' (right + 1)) by lia.
    assert (HX : segZ A3 left l' = segZ A2 left l').
    { apply segZ_ext; [lia|]. intros i Hi. apply O23. lia. }
    rewrite (segZ_app A2 left l' (l' + 1)), (segZ_singleton A2 l') in Hs2, P12 by lia.
    rewrite (segZ_app A1 left l' (l' + 1)), (segZ_singleton A1 l') in P12 by lia.
    assert (FX : Forall (λ v, v ≤ m) (segZ A2 left l')).
    { apply (perm_all_but_last _ _ _ _ _ P12 Hs2).
      apply segZ_Forall; [lia|]. intros i Hi _. apply HL. lia. }
    assert (HT : segZ A2 (l' + 1) (right + 1) = segZ A1 (l' + 1) (right + 1)).
    { apply segZ_ext; [lia|]. intros i Hi. apply O12. lia. }
    assert (FT : Forall (λ v, m ≤ v) (segZ A1 (l' + 1) (right + 1))).
    { apply segZ_Forall; [lia|]. intros i Hi _. apply HR. lia. }
    rewrite (segZ_app A2 l' (l' + 1) (right + 1)), (segZ_singleton A2 l'), HT in P23 by lia.
    rewrite Forall_forall in FX, FT.
    apply StronglySorted_app_2.
    + intros x1 x2 Hx1 Hx2. rewrite HX in Hx1. rewrite P23 in Hx2.
      apply elem_of_app in Hx2 as [Hx2|Hx2].
      * apply (StronglySorted_app_1_elem_of _ _ _ _ _ Hs2 Hx1 Hx2).
      * specialize (FX x1 Hx1). specialize (FT x2 Hx2). cbn in FX, FT. lia.
    + rewrite HX. apply (StronglySorted_app_1_l _ _ _ Hs2).
    + exact Hs3.
Qed.

(** *** The recursion *)

(** With enough fuel, [sortBlockedRow] returns, having rearranged the pairs
    of positions [left..right] so that the columns are in ascending order. *)
Lemma sortBlockedRow_sorted (fuel : nat) :
  ∀ (A : list Z) (D : list B) (left right : Z),
    length D = length A →
    0 ≤ left → left ≤ right → right < Z.of_nat (length A) →
    2 * right ≤ INT_MAX →
    2 * (right - left) + 4 ≤ Z.of_nat fuel →
    ∃ A' D',
      sortBlockedRow fuel A D left right = Ok (A', D') ∧
      rowPermuted left right A D A' D' ∧
      StronglySorted Z.le (segZ A' left (right + 1)).
Proof.
  induction fuel as [|fuel IH]; intros A D left right Hlen Hleft Hlr Hright Hmax Hfuel; [lia|].
  cbn [sortBlockedRow].
  rewrite wrap_int_id by (unfold INT_MIN, INT_MAX in *; lia).
  rewrite Z.shiftr_div_pow2 by lia. change (2 ^ 1) with 2.
  assert (Hmid : left ≤ (left + right) / 2 ≤ right).
  { split; [apply Z.div_le_lower_bound|apply Z.div_le_upper_bound]; lia. }
  set (mid := (left + right) / 2) in *.
  rewrite rdZ_zth by lia. cbn [mbind result_bind].
  set (m := zth A mid).
  destruct (partitionLoop_spec left right m fuel A D left right)
    as (A1 & D1 & l' & r' & -> & Hp1 & Hbl & Hbr & Hrl & HL & HR & Hstrict);
    try (unfold INT_MAX in *; lia).
  { exists mid. split; [lia|]. unfold m. lia. }
  { exists mid. split; [lia|]. unfold m. lia. }
  destruct Hstrict as [Hl' Hr']; [exists mid; split; [lia|reflexivity]|].
  cbn [mbind result_bind].
  pose proof Hp1 as (HlA1 & HlD1 & _ & _).
  assert (H2 : ∃ A2 D2,
    (if left <? r' then sortBlockedRow fuel A1 D1 left r' else Ok (A1, D1)) = Ok (A2, D2) ∧
    rowPermuted left r' A1 D1 A2 D2 ∧
    StronglySorted Z.le (segZ A2 left (r' + 1))).
  { destruct (Z.ltb_spec left r').
    - apply IH; lia.
    - exists A1, D1. split; [reflexivity|]. split; [apply rowPermuted_refl|].
      apply segZ_short_sorted. lia. }
  destruct H2 as (A2 & D2 & -> & Hp2 & Hs2). cbn [mbind result_bind].
  pose proof Hp2 as (HlA2 & HlD2 & _ & _).
  assert (H3 : ∃ A3 D3,
    (if l' <? right then sortBlockedRow fuel A2 D2 l' right else Ok (A2, D2)) = Ok (A3, D3) ∧
    rowPermuted l' right A2 D2 A3 D3 ∧
    StronglySorted Z.le (segZ A3 l' (right + 1))).
  { destruct (Z.ltb_spec l' right).
    - apply IH; lia.
    - exists A2, D2. split; [reflexivity|]. split; [apply rowPermuted_refl|].
      apply segZ_short_sorted. lia. }
  destruct H3 as (A3 & D3 & -> & Hp3 & Hs3).
  exists A3, D3. split; [reflexivity|]. split.
  - apply (rowPermuted_trans left right left right left right A A1 A3 D D1 D3);
      [exact Hp1| |lia..].
    apply (rowPermuted_trans left right left r' l' right A1 A2 A3 D1 D2 D3);
      [exact Hp2|exact Hp3|lia..].
  - apply (sorted_from_parts A1 A2 A3 D1 D2 D3 left right l' r' m); try assumption; lia.
Qed.



End RowSortFacts.


(** What the call of the witness computes. *)
Example sortBlockedRow_sample :
  sortBlockedRow 12 sample_row_columns sample_row_blocks 1 5
  = Ok ([0; 1; 5; 7; 8; 9; 2]%Z, [0; 3; 1; 2; 4; 5; 6]).
Proof. vm_compute. reflexivity. Qed.

(** Outside the range of the theorem: at [left = right = 2^30] the sum
    [l + r] no longer fits an [int]; with the machine's wrap-around the
    middle index is negative and the first read is outside the array. *)
Remark sortBlockedRow_midpoint_wraps {B : Type} (fuel : nat) (colIndices : list Z) (data : list B) :
  sortBlockedRow (S fuel) colIndices data 1073741824 1073741824 = Undefined.
Proof. reflexivity. Qed.

(** ** Solver backends *)

Section BackendFacts.
Variables (op prec : list float → list float).




End BackendFacts.





(** ** Storage of a blocked matrix: allocation, release and sharing together *)

Section StorageLifecycle.
Context {F : Type}.
Variable BLOCK_SIZE : nat.

(** The free store [allocateBlockedMatrix] leaves, written out. *)
Lemma allocateBlockedMatrix_store (h : heap F) (Nb0 nnzbs0 : Z) :
  (0 ≤ nnzbs0)%Z → (-1 ≤ Nb0 < INT_MAX)%Z →
  ∃ a v c r,
    a ≠ v ∧ a ≠ c ∧ a ≠ r ∧ v ≠ c ∧ v ≠ r ∧ c ≠ r ∧
    h !! a = None ∧ h !! v = None ∧ h !! c = None ∧ h !! r = None ∧
    allocateBlockedMatrix BLOCK_SIZE h Nb0 nnzbs0
    = Ok (<[a := Matrix (mkBlockedMatrix (Ptr v) (Ptr c) (Ptr r) Nb0 nnzbs0)]>
            (<[r := IntArray (replicate (Z.to_nat (Nb0 + 1)) None)]>
               (<[c := IntArray (replicate (Z.to_nat nnzbs0) None)]>
                  (<[v := BlockArray (replicate (Z.to_nat nnzbs0)
                                        (replicate (BLOCK_SIZE * BLOCK_SIZE) None))]> h))),
          Ptr a).
Proof.
  intros Hnnz HNb.
  unfold allocateBlockedMatrix, new_matrix, new_Block_array, new_int_array.
  rewrite (wrap_int_id (Nb0 + 1)) by (unfold INT_MIN, INT_MAX in *; lia).
  pose proof (fresh_lookup_None h) as Hha.
  set (a := fresh (dom h)) in *.
  set (z := mkBlockedMatrix NULL NULL NULL 0 0).
  set (blocks := BlockArray (replicate (Z.to_nat nnzbs0)
                               (replicate (BLOCK_SIZE * BLOCK_SIZE) None)) : object F).
  set (cols := IntArray (replicate (Z.to_nat nnzbs0) None) : object F).
  set (rows := IntArray (replicate (Z.to_nat (Nb0 + 1)) None) : object F).
  destruct (new_array_fresh (<[a := Matrix z]> h) nnzbs0
    (fun n => BlockArray (replicate n (replicate (BLOCK_SIZE * BLOCK_SIZE) None))) Hnnz)
    as (v & -> & Hv).
  cbn [mbind result_bind]. fold blocks.
  assert (Hva : v ≠ a) by (intros E; rewrite E, lookup_insert_eq in Hv; discriminate).
  rewrite lookup_insert_ne in Hv by congruence.
  erewrite store_matrix_live
    by (rewrite lookup_insert_ne by congruence; apply lookup_insert_eq).
  cbn [mbind result_bind].
  rewrite (insert_insert_ne _ v a), insert_insert_eq by congruence.
  match goal with |- context [new_array ?hh _ _] => set (h3 := hh) end.
  destruct (new_array_fresh h3 nnzbs0 (fun n => IntArray (replicate n None)) Hnnz)
    as (c & -> & Hc).
  cbn [mbind result_bind]. fold cols. unfold h3 in *. clear h3.
  assert (Hca : c ≠ a) by (intros E; rewrite E, lookup_insert_eq in Hc; discriminate).
  rewrite lookup_insert_ne in Hc by congruence.
  assert (Hcv : c ≠ v) by (intros E; rewrite E, lookup_insert_eq in Hc; discriminate).
  rewrite lookup_insert_ne in Hc by congruence.
  erewrite store_matrix_live
    by (rewrite lookup_insert_ne by congruence; apply lookup_insert_eq).
  cbn [mbind result_bind].
  rewrite (insert_insert_ne _ c a), insert_insert_eq by congruence.
  match goal with |- context [new_array ?hh _ _] => set (h5 := hh) end.
  assert (HNb1 : (0 ≤ Nb0 + 1)%Z) by lia.
  destruct (new_array_fresh h5 (Nb0 + 1) (fun n => IntArray (replicate n None)) HNb1)
    as (r & -> & Hr).
  cbn [mbind result_bind]. fold rows. unfold h5 in *. clear h5.
  assert (Hra : r ≠ a) by (intros E; rewrite E, lookup_insert_eq in Hr; discriminate).
  rewrite lookup_insert_ne in Hr by congruence.
  assert (Hrc : r ≠ c) by (intros E; rewrite E, lookup_insert_eq in Hr; discriminate).
  rewrite lookup_insert_ne in Hr by congruence.
  assert (Hrv : r ≠ v) by (intros E; rewrite E, lookup_insert_eq in Hr; discriminate).
  rewrite lookup_insert_ne in Hr by congruence.
  erewrite store_matrix_live
    by (rewrite lookup_insert_ne by congruence; apply lookup_insert_eq).
  cbn [mbind result_bind].
  rewrite (insert_insert_ne _ r a), insert_insert_eq by congruence.
  erewrite store_matrix_live by apply lookup_insert_eq. cbn [mbind result_bind].
  rewrite insert_insert_eq.
  erewrite store_matrix_live by apply lookup_insert_eq. cbn [mbind result_bind].
  rewrite insert_insert_eq.
  exists a, v, c, r. repeat (split; [congruence|]). reflexivity.
Qed.

Lemma delete_array_live (h : heap F) (p : positive) :
  is_array (h !! p) → delete_array h (Ptr p) = Ok (delete p h).
Proof.
  intros Hp. cbn. destruct (h !! p) as [[| |]|]; cbn in Hp; try contradiction; reflexivity.
Qed.

Lemma delete_array_dead (h : heap F) (p : positive) :
  h !! p = None → delete_array h (Ptr p) = Undefined.
Proof. intros Hp. cbn. rewrite Hp. reflexivity. Qed.

(** Releasing a matrix that owns its arrays, written out. *)
Lemma freeBlockedMatrix_owned (h : heap F) (a v c r : positive) (m : BlockedMatrix)
    (blocks : list (list (option F))) (cols rows : list (option Z)) :
  h !! a = Some (Matrix m) →
  nnzValues m = Ptr v → colIndices m = Ptr c → rowPointers m = Ptr r →
  h !! v = Some (BlockArray blocks) → h !! c = Some (IntArray cols) →
  h !! r = Some (IntArray rows) →
  v ≠ c → v ≠ r → c ≠ r →
  freeBlockedMatrix h (Ptr a) = Ok (delete a (delete r (delete c (delete v h))), NULL).
Proof.
  intros Ha Hv Hc Hr Hhv Hhc Hhr Hvc Hvr Hcr.
  assert (a ≠ v) by congruence. assert (a ≠ c) by congruence. assert (a ≠ r) by congruence.
  unfold freeBlockedMatrix.
  rewrite (load_matrix_live h a m Ha). cbn [mbind result_bind].
  rewrite Hv, delete_array_live by (rewrite Hhv; exact I). cbn [mbind result_bind].
  rewrite (load_matrix_live _ a m) by (rewrite lookup_delete_ne by congruence; exact Ha).
  cbn [mbind result_bind].
  rewrite Hc, delete_array_live by (rewrite lookup_delete_ne, Hhc by congruence; exact I).
  cbn [mbind result_bind].
  rewrite (load_matrix_live _ a m) by (rewrite !lookup_delete_ne by congruence; exact Ha).
  cbn [mbind result_bind].
  rewrite Hr, delete_array_live by (rewrite !lookup_delete_ne, Hhr by congruence; exact I).
  cbn [mbind result_bind].
  unfold delete_matrix. rewrite !lookup_delete_ne, Ha by congruence. reflexivity.
Qed.

(** Allocation followed by release gives back the free store it started
    from: nothing leaks and nothing else is touched. *)
Theorem allocate_free_restores (h : heap F) (Nb0 nnzbs0 : Z) :
  (0 ≤ nnzbs0)%Z → (-1 ≤ Nb0 < INT_MAX)%Z →
  ∃ h1 a,
    allocateBlockedMatrix BLOCK_SIZE h Nb0 nnzbs0 = Ok (h1, Ptr a) ∧
    freeBlockedMatrix h1 (Ptr a) = Ok (h, NULL).
Proof.
  intros Hnnz HNb.
  destruct (allocateBlockedMatrix_store h Nb0 nnzbs0 Hnnz HNb)
    as (a & v & c & r & Hav & Hac & Har & Hvc & Hvr & Hcr & Ha & Hv & Hc & Hr & Halloc).
  eexists _, a. split; [exact Halloc|].
  erewrite (freeBlockedMatrix_owned _ a v c r);
    [|apply lookup_insert_eq|reflexivity|reflexivity|reflexivity
     |rewrite !lookup_insert_ne by congruence; apply lookup_insert_eq
     |rewrite !lookup_insert_ne by congruence; apply lookup_insert_eq
     |rewrite !lookup_insert_ne by congruence; apply lookup_insert_eq
     |congruence..].
  f_equal. f_equal. apply map_eq. intros p.
  destruct (decide (p = a)) as [->|?]; [rewrite lookup_delete_eq; congruence|].
  rewrite lookup_delete_ne by congruence.
  destruct (decide (p = r)) as [->|?]; [rewrite lookup_delete_eq; congruence|].
  rewrite lookup_delete_ne by congruence.
  destruct (decide (p = c)) as [->|?]; [rewrite lookup_delete_eq; congruence|].
  rewrite lookup_delete_ne by congruence.
  destruct (decide (p = v)) as [->|?]; [rewrite lookup_delete_eq; congruence|].
  rewrite lookup_delete_ne by congruence.
  rewrite !lookup_insert_ne by congruence. reflexivity.
Qed.

(** A soft copy and its source share the three arrays, so only one of the
    two may be released: whichever is freed second, [freeBlockedMatrix]
    deletes the arrays again, which is undefined; and after the copy is
    freed the source, though still a live structure, has lost its arrays. *)
Theorem soft_copy_double_free (h : heap F) (a : positive) (m : BlockedMatrix) :
  owns_arrays h a m →
  ∃ h1 a',
    soft_copyBlockedMatrix h (Ptr a) = Ok (h1, Ptr a') ∧
    (∃ h2, freeBlockedMatrix h1 (Ptr a) = Ok (h2, NULL) ∧
           freeBlockedMatrix h2 (Ptr a') = Undefined) ∧
    (∃ h2, freeBlockedMatrix h1 (Ptr a') = Ok (h2, NULL) ∧
           h2 !! a = Some (Matrix m) ∧
           (∀ p, nnzValues m = Ptr p ∨ colIndices m = Ptr p ∨ rowPointers m = Ptr p →
                 h2 !! p = None) ∧
           freeBlockedMatrix h2 (Ptr a) = Undefined).
Proof.
  intros [Ha (v & c & r & blocks & cols & rows & Hv & Hc & Hr & Hhv & Hhc & Hhr & Hvc & Hvr & Hcr)].
  pose proof (fresh_lookup_None h) as Hfresh.
  set (a' := fresh (dom h)) in *.
  assert (a' ≠ a) by congruence. assert (a' ≠ v) by congruence.
  assert (a' ≠ c) by congruence. assert (a' ≠ r) by congruence.
  assert (a ≠ v) by congruence. assert (a ≠ c) by congruence. assert (a ≠ r) by congruence.
  assert (Hcopy : soft_copyBlockedMatrix h (Ptr a) = Ok (<[a' := Matrix m]> h, Ptr a')).
  { unfold soft_copyBlockedMatrix, new_matrix. fold a'.
    assert (Hload : ∀ m0, load_matrix (<[a' := Matrix m0]> h) (Ptr a) = Ok m).
    { intros m0. apply load_matrix_live. rewrite lookup_insert_ne by congruence. exact Ha. }
    assert (Hstore : ∀ m0 f, store_matrix (<[a' := Matrix m0]> h) (Ptr a') f
                             = Ok (<[a' := Matrix (f m0)]> h)).
    { intros m0 f. rewrite (store_matrix_live _ a' m0) by apply lookup_insert_eq.
      rewrite insert_insert_eq. reflexivity. }
    do 5 (rewrite Hload; cbn [mbind result_bind]; rewrite Hstore; cbn [mbind result_bind]).
    rewrite set_members_eta. reflexivity. }
  exists (<[a' := Matrix m]> h), a'. split; [exact Hcopy|].
  assert (Hfree : ∀ x, x = a ∨ x = a' →
    freeBlockedMatrix (<[a' := Matrix m]> h) (Ptr x)
    = Ok (delete x (delete r (delete c (delete v (<[a' := Matrix m]> h)))), NULL)).
  { intros x Hx. apply (freeBlockedMatrix_owned _ x v c r m blocks cols rows);
      try assumption; try (rewrite lookup_insert_ne by congruence; assumption).
    destruct Hx as [->| ->];
      [rewrite lookup_insert_ne by congruence; exact Ha|apply lookup_insert_eq]. }
  assert (Hdangling : ∀ x y, x ≠ y → (y = a ∨ y = a') → x ≠ v → x ≠ c → x ≠ r →
    freeBlockedMatrix (delete x (delete r (delete c (delete v (<[a' := Matrix m]> h)))))
      (Ptr y) = Undefined).
  { intros x y Hxy Hy ? ? ?. unfold freeBlockedMatrix.
    rewrite (load_matrix_live _ y m).
    - cbn [mbind result_bind]. rewrite Hv, delete_array_dead; [reflexivity|].
      rewrite !lookup_delete_ne by congruence. apply lookup_delete_eq.
    - rewrite !lookup_delete_ne by (destruct Hy; congruence).
      destruct Hy as [->| ->];
        [rewrite lookup_insert_ne by congruence; exact Ha|apply lookup_insert_eq]. }
  split.
  - eexists. split; [apply Hfree; left; reflexivity|].
    apply Hdangling; try congruence. right. reflexivity.
  - eexists. split; [apply Hfree; right; reflexivity|]. split; [|split].
    + rewrite !lookup_delete_ne, lookup_insert_ne by congruence. exact Ha.
    + intros p [Hp|[Hp|Hp]].
      * assert (p = v) as -> by congruence.
        rewrite !lookup_delete_ne by congruence. apply lookup_delete_eq.
      * assert (p = c) as -> by congruence.
        rewrite !lookup_delete_ne by congruence. apply lookup_delete_eq.
      * assert (p = r) as -> by congruence.
        rewrite !lookup_delete_ne by congruence. apply lookup_delete_eq.
    + apply Hdangling; try congruence. left. reflexivity.
Qed.

(** A negative number of blocks, or a number of block rows below -1, makes
    [new] throw [std::bad_array_new_length]: no matrix is returned. *)
Theorem allocateBlockedMatrix_negative (h : heap F) (Nb0 nnzbs0 : Z) :
  (INT_MIN ≤ Nb0 < INT_MAX)%Z →
  (nnzbs0 < 0 ∨ Nb0 < -1)%Z →
  allocateBlockedMatrix BLOCK_SIZE h Nb0 nnzbs0 = Thrown.
Proof.
  intros HNb Hneg.
  assert (Hthrow : ∀ (h0 : heap F) n cells, (n < 0)%Z → new_array h0 n cells = Thrown).
  { intros h0 n cells Hn. unfold new_array. destruct (Z.ltb_spec n 0); [reflexivity|lia]. }
  unfold allocateBlockedMatrix, new_matrix, new_Block_array, new_int_array.
  rewrite (wrap_int_id (Nb0 + 1)) by (unfold INT_MIN, INT_MAX in *; lia).
  destruct (decide (nnzbs0 < 0)%Z) as [Hn|Hn]; [rewrite Hthrow by exact Hn; reflexivity|].
  assert (Hnnz : (0 ≤ nnzbs0)%Z) by lia.
  set (a := fresh (dom h)).
  destruct (new_array_fresh (<[a := Matrix (mkBlockedMatrix NULL NULL NULL 0 0)]> h) nnzbs0
    (fun n => BlockArray (replicate n (replicate (BLOCK_SIZE * BLOCK_SIZE) None))) Hnnz)
    as (v & -> & Hv).
  cbn [mbind result_bind].
  assert (Hva : v ≠ a) by (intros E; rewrite E, lookup_insert_eq in Hv; discriminate).
  erewrite store_matrix_live
    by (rewrite lookup_insert_ne by congruence; apply lookup_insert_eq).
  cbn [mbind result_bind].
  match goal with |- context [new_array ?hh nnzbs0 ?cc] =>
    destruct (new_array_fresh hh nnzbs0 cc Hnnz) as (c & -> & Hc) end.
  cbn [mbind result_bind].
  assert (Hca : c ≠ a) by (intros E; rewrite E, lookup_insert_eq in Hc; discriminate).
  erewrite store_matrix_live
    by (rewrite lookup_insert_ne by congruence; apply lookup_insert_eq).
  cbn [mbind result_bind].
  rewrite Hthrow by lia. reflexivity.
Qed.

End StorageLifecycle.

Lemma allocate_free_restores_witness :
  ∃ h1 a,
    allocateBlockedMatrix 3 sample_heap 2 1 = Ok (h1, Ptr a) ∧
    freeBlockedMatrix h1 (Ptr a) = Ok (sample_heap, NULL).
Proof.
  apply (allocate_free_restores 3 sample_heap 2 1); unfold INT_MAX; lia.
Defined.

Lemma soft_copy_double_free_witness :
  ∃ h1 a',
    soft_copyBlockedMatrix sample_heap (Ptr 1) = Ok (h1, Ptr a') ∧
    (∃ h2, freeBlockedMatrix h1 (Ptr 1) = Ok (h2, NULL) ∧
           freeBlockedMatrix h2 (Ptr a') = Undefined) ∧
    (∃ h2, freeBlockedMatrix h1 (Ptr a') = Ok (h2, NULL) ∧
           h2 !! 1%positive = Some (Matrix sample_matrix) ∧
           (∀ p, nnzValues sample_matrix = Ptr p ∨ colIndices sample_matrix = Ptr p ∨
                 rowPointers sample_matrix = Ptr p → h2 !! p = None) ∧
           freeBlockedMatrix h2 (Ptr 1) = Undefined).
Proof.
  apply (soft_copy_double_free sample_heap 1 sample_matrix).
  split; [reflexivity|].
  eexists 2%positive, 3%positive, 4%positive, _, _, _.
  repeat split; try reflexivity; discriminate.
Defined.

Lemma allocateBlockedMatrix_negative_witness :
  allocateBlockedMatrix 3 sample_heap 2 (-1) = Thrown.
Proof.
  apply (allocateBlockedMatrix_negative 3 sample_heap 2 (-1));
    unfold INT_MIN, INT_MAX; lia.
Defined.

(** ** Sorting a row: duplicates, sorted rows and canonical form *)

Section RowSortMore.
Context {B : Type}.
Local Open Scope Z_scope.



Lemma segZ_length_le {A : Type} (xs : list A) (lo hi : Z) :
  (length (segZ xs lo hi) ≤ Z.to_nat (hi - lo))%nat.
Proof. unfold segZ. rewrite length_take. lia. Qed.






(** On a range that may hold the same column several times,
    [sortBlockedRow] still returns, with the columns of the range in
    ascending order (equal ones next to each other), the (column, block)
    pairs a permutation of the input pairs and the rest of both arrays in
    place. *)
Theorem sortBlockedRow_with_duplicates (colIndices : list Z) (data : list B)
    (left right : Z) (fuel : nat) :
  length data = length colIndices →
  0 ≤ left → left ≤ right → right < Z.of_nat (length colIndices) →
  2 * right ≤ INT_MAX →
  2 * (right - left) + 4 ≤ Z.of_nat fuel →
  ∃ colIndices' data',
    sortBlockedRow fuel colIndices data left right = Ok (colIndices', data') ∧
    StronglySorted Z.le (segZ colIndices' left (right + 1)) ∧
    zip (segZ colIndices' left (right + 1)) (segZ data' left (right + 1))
      ≡ₚ zip (segZ colIndices left (right + 1)) (segZ data left (right + 1)) ∧
    length colIndices' = length colIndices ∧
    length data' = length data ∧
    (∀ i : nat, (Z.of_nat i < left ∨ right < Z.of_nat i) →
       colIndices' !! i = colIndices !! i ∧ data' !! i = data !! i).
Proof.
  intros Hlen Hleft Hlr Hright Hmax Hfuel.
  destruct (sortBlockedRow_sorted fuel colIndices data left right)
    as (A' & D' & Hrun & Hperm & Hsorted); try assumption.
  pose proof (rowPermuted_seg_zip left right colIndices A' data D' Hperm Hlen
                ltac:(lia) ltac:(lia) Hright) as Hzip.
  destruct Hperm as (HlA & HlD & Hout & _).
  exists A', D'. repeat (split; [assumption|]). exact Hout.
Qed.




End RowSortMore.

Lemma sortBlockedRow_with_duplicates_witness :
  ∃ colIndices' data',
    sortBlockedRow 12 [0; 5; 7; 5; 8; 5; 2]%Z [0; 1; 2; 3; 4; 5; 6]%nat 1 5
    = Ok (colIndices', data') ∧
    StronglySorted Z.le (segZ colIndices' 1 (5 + 1)) ∧
    zip (segZ colIndices' 1 (5 + 1)) (segZ data' 1 (5 + 1))
      ≡ₚ zip (segZ [0; 5; 7; 5; 8; 5; 2]%Z 1 (5 + 1)) (segZ [0; 1; 2; 3; 4; 5; 6]%nat 1 (5 + 1)) ∧
    length colIndices' = length [0; 5; 7; 5; 8; 5; 2]%Z ∧
    length data' = length [0; 1; 2; 3; 4; 5; 6]%nat ∧
    (∀ i : nat, (Z.of_nat i < 1 ∨ 5 < Z.of_nat i)%Z →
       colIndices' !! i = [0; 5; 7; 5; 8; 5; 2]%Z !! i ∧
       data' !! i = [0; 1; 2; 3; 4; 5; 6]%nat !! i).
Proof.
  apply (sortBlockedRow_with_duplicates [0; 5; 7; 5; 8; 5; 2]%Z [0; 1; 2; 3; 4; 5; 6]%nat 1 5 12);
    first [reflexivity | lia | cbn; lia | unfold INT_MAX; lia].
Defined.




(** ** Block kernels in exact arithmetic: products and inverses together *)

Section BlockAlgebra.
Context {F : Type} `{Scalar F}.
Variable finv : F → F.
Hypothesis exact_arithmetic :
  field_theory fzero fone fadd fmul fsub fopp fdiv finv (@eq F).

Add Field block_field : exact_arithmetic.

Ltac nine l Hl := do 10 (destruct l as [|? l]; try discriminate Hl); clear Hl.
Ltac entrywise tac :=
  repeat (match goal with |- _ :: _ = _ :: _ => apply (f_equal2 cons); [tac|] end);
  try reflexivity.

(** The block computed by [blockInvert3x3] is also a right inverse:
    [mat * invert(mat)] is the identity (the form the ILU pivot
    [A[i][j] * invert(U[j][j])] relies on). *)
Theorem blockInvert3x3_right_inverse (mat res out : Block F) :
  length mat = 9 → length res = 9 → length out = 9 →
  blockDet3x3 mat ≠ fzero →
  blockMult 3 mat (blockInvert3x3 mat res) out = identity3x3.
Proof.
  intros Hmat Hres Hout.
  nine mat Hmat. nine res Hres. nine out Hout.
  unfold blockDet3x3, rd. cbn. intros Hdet.
  unfold identity3x3, dotRowCol, for_loop, rd; cbn.
  unfold blockDet3x3, rd; cbn.
  repeat f_equal; field; exact Hdet.
Qed.

(** The determinant of the inverse is the inverse of the determinant. *)
Lemma blockDet3x3_inverse (mat res : Block F) :
  length mat = 9 → length res = 9 →
  blockDet3x3 mat ≠ fzero →
  blockDet3x3 (blockInvert3x3 mat res) = fdiv fone (blockDet3x3 mat).
Proof.
  intros Hmat Hres.
  nine mat Hmat. nine res Hres.
  unfold blockDet3x3, rd. cbn. intros Hdet.
  unfold blockDet3x3, rd; cbn.
  field; exact Hdet.
Qed.

(** [blockInvert3x3] written with [blockAdjugate3x3]. *)
Lemma blockInvert3x3_adjugate (mat res : Block F) :
  length res = 9 →
  blockInvert3x3 mat res
  = map (fun adj => fmul adj (fdiv fone (blockDet3x3 mat))) (blockAdjugate3x3 mat).
Proof.
  intros Hres. nine res Hres. reflexivity.
Qed.

(** Inverting twice gives the block back. *)
Theorem blockInvert3x3_involutive (mat res res' : Block F) :
  length mat = 9 → length res = 9 → length res' = 9 →
  blockDet3x3 mat ≠ fzero →
  blockInvert3x3 (blockInvert3x3 mat res) res' = mat.
Proof.
  intros Hmat Hres Hres' Hdet.
  rewrite (blockInvert3x3_adjugate _ res') by assumption.
  rewrite blockDet3x3_inverse by assumption.
  revert Hdet.
  nine mat Hmat. nine res Hres.
  unfold blockAdjugate3x3, blockInvert3x3, rd. cbn.
  unfold blockDet3x3, rd; cbn. intros Hdet.
  repeat f_equal; field; repeat split; try exact Hdet.
  all: exact (F_1_neq_0 exact_arithmetic).
Qed.

(** Multiplying by the identity block, on either side, returns the block. *)
Theorem blockMult_identity (mat out : Block F) :
  length mat = 9 → length out = 9 →
  blockMult 3 identity3x3 mat out = mat ∧ blockMult 3 mat identity3x3 out = mat.
Proof.
  intros Hmat Hout.
  nine mat Hmat. nine out Hout.
  unfold identity3x3, blockMult, dotRowCol, for_loop, rd; cbn.
  split; repeat f_equal; ring.
Qed.

(** [blockMult] is associative: [(a * b) * c] and [a * (b * c)] are the
    same block. *)
Theorem blockMult_assoc (a b c out1 out2 out3 out4 : Block F) :
  length a = 9 → length b = 9 → length c = 9 →
  length out1 = 9 → length out2 = 9 → length out3 = 9 → length out4 = 9 →
  blockMult 3 (blockMult 3 a b out1) c out2 = blockMult 3 a (blockMult 3 b c out3) out4.
Proof.
  intros Ha Hb Hc H1 H2 H3 H4.
  nine a Ha. nine b Hb. nine c Hc. nine out1 H1. nine out2 H2. nine out3 H3. nine out4 H4.
  unfold blockMult, dotRowCol, for_loop, rd; cbn.
  entrywise ltac:(ring).
Qed.

(** Subtracting a product and then the product of the same left factor with
    another block subtracts the product with the sum:
    [(a - b*c) - b*d = a - b*(c + d)], the update the ILU loop accumulates. *)
Theorem blockMultSub_accumulates (a b c d : Block F) :
  length a = 9 → length b = 9 → length c = 9 → length d = 9 →
  blockMultSub 3 (blockMultSub 3 a b c) b d = blockMultSub 3 a b (zip_with fadd c d).
Proof.
  intros Ha Hb Hc Hd.
  nine a Ha. nine b Hb. nine c Hc. nine d Hd.
  unfold blockMultSub, dotRowCol, for_loop, rd; cbn.
  entrywise ltac:(ring).
Qed.

End BlockAlgebra.

Lemma sample_block_Q_regular : blockDet3x3 sample_block_Q ≠ fzero.
Proof.
  intros Hdet. apply (f_equal this) in Hdet. vm_compute in Hdet. discriminate Hdet.
Qed.

(** [blockInvert3x3_right_inverse] on a rational block of determinant 25. *)
Lemma blockInvert3x3_right_inverse_witness :
  blockMult 3 sample_block_Q (blockInvert3x3 sample_block_Q scratch_block_Q) scratch_block_Q
  = identity3x3.
Proof.
  apply (blockInvert3x3_right_inverse Qcinv Qc_exact_arithmetic); try reflexivity.
  exact sample_block_Q_regular.
Defined.

(** [blockInvert3x3_involutive] on the same block. *)
Lemma blockInvert3x3_involutive_witness :
  blockInvert3x3 (blockInvert3x3 sample_block_Q scratch_block_Q) scratch_block_Q
  = sample_block_Q.
Proof.
  apply (blockInvert3x3_involutive Qcinv Qc_exact_arithmetic); try reflexivity.
  exact sample_block_Q_regular.
Defined.

(** [blockMult_identity] on a rational block. *)
Lemma blockMult_identity_witness :
  blockMult 3 identity3x3 sample_block_Q2 scratch_block_Q = sample_block_Q2 ∧
  blockMult 3 sample_block_Q2 identity3x3 scratch_block_Q = sample_block_Q2.
Proof.
  apply (blockMult_identity Qcinv Qc_exact_arithmetic); reflexivity.
Defined.

(** [blockMult_assoc] on three rational blocks. *)
Lemma blockMult_assoc_witness :
  blockMult 3 (blockMult 3 sample_block_Q sample_block_Q2 scratch_block_Q)
    sample_block_Q3 scratch_block_Q
  = blockMult 3 sample_block_Q
      (blockMult 3 sample_block_Q2 sample_block_Q3 scratch_block_Q) scratch_block_Q.
Proof.
  apply (blockMult_assoc Qcinv Qc_exact_arithmetic); reflexivity.
Defined.

(** [blockMultSub_accumulates] on rational blocks. *)
Lemma blockMultSub_accumulates_witness :
  blockMultSub 3 (blockMultSub 3 sample_block_Q sample_block_Q2 sample_block_Q3)
    sample_block_Q2 identity3x3
  = blockMultSub 3 sample_block_Q sample_block_Q2 (zip_with fadd sample_block_Q3 identity3x3).
Proof.
  apply (blockMultSub_accumulates Qcinv Qc_exact_arithmetic); reflexivity.
Defined.

(** ** What [blockMult] reads *)

Section BlockMultOutput.
Context {F : Type} `{Scalar F}.
Variable BLOCK_SIZE : nat.

(** [blockMult] never reads [resMat]: whatever the output block held
    before the call, the result is the same (every entry is overwritten).
    This holds for every scalar type, binary64 included. *)
Theorem blockMult_overwrites (mat1 mat2 resMat resMat' : Block F) :
  length resMat = BLOCK_SIZE * BLOCK_SIZE →
  length resMat' = BLOCK_SIZE * BLOCK_SIZE →
  blockMult BLOCK_SIZE mat1 mat2 resMat = blockMult BLOCK_SIZE mat1 mat2 resMat'.
Proof.
  intros Hr Hr'.
  destruct (blockMult_entry BLOCK_SIZE mat1 mat2 resMat Hr) as [Hl He].
  destruct (blockMult_entry BLOCK_SIZE mat1 mat2 resMat' Hr') as [Hl' He'].
  apply list_eq. intros i.
  destruct (decide (i < BLOCK_SIZE * BLOCK_SIZE)) as [Hi|Hi].
  - destruct (block_index BLOCK_SIZE i Hi) as (row & col & Hrow & Hcol & ->).
    rewrite He, He' by assumption. reflexivity.
  - rewrite !lookup_ge_None_2 by lia. reflexivity.
Qed.

End BlockMultOutput.

(** [blockMult_overwrites] on binary64 blocks. *)
Lemma blockMult_overwrites_witness :
  blockMult 3 near_singular big_diagonal (replicate 9 0%float)
  = blockMult 3 near_singular big_diagonal (replicate 9 nan).
Proof.
  apply (blockMult_overwrites 3); reflexivity.
Defined.


(** ** More on [sortNncAndApplyEditnnc]: warnings, order of the edits, [log] *)

Section NncSorterMore.
Context {F : Type} `{Scalar F}.
Implicit Types d e : NNCdata F.
Implicit Types N : list (NNCdata F).

Lemma beyondAll_true N e : beyondAll N e = true ↔ ∀ d, d ∈ N → nncLess d e = true.
Proof.
  unfold beyondAll. rewrite forallb_forall.
  split; intros Hall d Hd; apply Hall; apply list_elem_of_In; exact Hd.
Qed.

Lemma beyondAll_cells N N' e :
  cellsOf <$> N = cellsOf <$> N' → beyondAll N e = beyondAll N' e.
Proof.
  revert N'. induction N as [|d N IH]; intros [|d' N'] Heq; try discriminate; [reflexivity|].
  cbn in Heq. injection Heq as H1 H2 Heq.
  change (nncLess d e && beyondAll N e = nncLess d' e && beyondAll N' e).
  rewrite (IH N' Heq). unfold nncLess. rewrite H1, H2. reflexivity.
Qed.

Lemma beyondAll_perm N N' e : N ≡ₚ N' → beyondAll N e = beyondAll N' e.
Proof.
  intros Hp. apply eq_true_iff_eq. rewrite !beyondAll_true.
  split; intros Hall d Hd; apply Hall; [rewrite Hp|rewrite <- Hp]; exact Hd.
Qed.

Lemma beyondAll_mono N e e' : nncLe e e' → beyondAll N e = true → beyondAll N e' = true.
Proof.
  rewrite !beyondAll_true. intros Hle Hall d Hd. specialize (Hall d Hd).
  unfold nncLe in Hle. apply nncLess_true in Hall. apply nncLess_false in Hle.
  apply nncLess_true. lia.
Qed.

Lemma cellsOf_applyEdits edits N : cellsOf <$> (applyEdits edits <$> N) = cellsOf <$> N.
Proof. rewrite <- list_fmap_compose. apply list_fmap_ext. reflexivity. Qed.

Lemma sorted_cells N N' :
  cellsOf <$> N = cellsOf <$> N' → StronglySorted nncLe N → StronglySorted nncLe N'.
Proof.
  intros Heq Hs. revert N' Heq.
  induction Hs as [|d N Hs IH Hd]; intros [|d' N'] Heq; try discriminate; [constructor|].
  cbn in Heq. injection Heq as H1 H2 Heq. constructor; [apply IH; exact Heq|].
  apply Forall_forall. intros x' Hx'.
  apply list_elem_of_lookup in Hx' as [i Hi].
  assert (Hc : (cellsOf <$> N) !! i = Some (cellsOf x')).
  { rewrite Heq, list_lookup_fmap, Hi. reflexivity. }
  rewrite list_lookup_fmap in Hc. destruct (N !! i) as [x|] eqn:Hx; [|discriminate].
  injection Hc as Hc1 Hc2.
  rewrite Forall_forall in Hd. specialize (Hd x (list_elem_of_lookup_2 _ _ _ Hx)).
  unfold nncLe in *. apply nncLess_false in Hd. apply nncLess_false. lia.
Qed.

(** The inner loop changes transmissibilities only. *)
Lemma multiplyWhile_cells (steps : nat) :
  ∀ N (c : nat) e, cellsOf <$> multiplyWhile steps N c e = cellsOf <$> N.
Proof.
  induction steps as [|steps IH]; intros N c e; [reflexivity|]. cbn.
  destruct (N !! c) as [d|] eqn:Hd; [|reflexivity].
  destruct (_ && _); [|reflexivity].
  rewrite IH, list_fmap_insert. apply list_insert_id.
  rewrite list_lookup_fmap, Hd. reflexivity.
Qed.

(** One iteration, whatever the edit: cells and length stay, [candidate]
    stays in range, and at most one warning, naming the edit, is added, none
    when [log] is unset. *)
Lemma editStep_cells (log : bool) (st st' : EditState) e :
  candidate_of st ≤ length (nncData_of st) →
  editStep log st e = Ok st' →
  cellsOf <$> nncData_of st' = cellsOf <$> nncData_of st ∧
  candidate_of st' ≤ length (nncData_of st') ∧
  (warnings_of st' = warnings_of st ∨
   (log = true ∧ warnings_of st' = warnings_of st ++ [cellsOf e])).
Proof.
  intros Hc. unfold editStep.
  destruct ((candidate_of st =? length (nncData_of st)) && log) eqn:Hend.
  - intros [= Hst]; rewrite <- Hst; clear Hst st'. cbn.
    apply andb_true_iff in Hend as [_ ->]. split; [reflexivity|]. split; [exact Hc|].
    right. split; reflexivity.
  - unfold deref. destruct (nncData_of st !! candidate_of st) as [dc|]; [|discriminate].
    cbn [mbind result_bind].
    destruct (negb _ || negb _).
    + destruct (lower_bound_spec (nncData_of st) (candidate_of st)
                  (mkNNCdata (cell1 e) (cell2 e) fzero) Hc) as (Hb & _ & _).
      cbn [nncData_of candidate_of warnings_of].
      set (p := lower_bound (nncData_of st) (candidate_of st)
                  (mkNNCdata (cell1 e) (cell2 e) fzero)) in *.
      destruct ((p =? length (nncData_of st)) && log) eqn:Hend'.
      * intros [= Hst]; rewrite <- Hst; clear Hst st'. cbn.
        apply andb_true_iff in Hend' as [_ ->]. split; [reflexivity|]. split; [lia|].
        right. split; reflexivity.
      * intros [= Hst]; rewrite <- Hst; clear Hst st'. cbn.
        rewrite multiplyWhile_cells, multiplyWhile_length.
        split; [reflexivity|]. split; [lia|]. left. reflexivity.
    + intros [= Hst]; rewrite <- Hst; clear Hst st'. cbn.
      rewrite multiplyWhile_cells, multiplyWhile_length.
      split; [reflexivity|]. split; [lia|]. left. reflexivity.
Qed.

Lemma forEachEdit_cells (log : bool) (edits : list (NNCdata F)) :
  ∀ st st',
    candidate_of st ≤ length (nncData_of st) →
    forEachEdit log edits st = Ok st' →
    cellsOf <$> nncData_of st' = cellsOf <$> nncData_of st ∧
    candidate_of st' ≤ length (nncData_of st') ∧
    ∃ w, warnings_of st' = warnings_of st ++ w ∧
         w `sublist_of` (cellsOf <$> edits) ∧
         (log = false → w = []).
Proof.
  induction edits as [|e edits IH]; intros st st' Hc; cbn.
  - intros [= <-]. split; [reflexivity|]. split; [exact Hc|].
    exists []. rewrite app_nil_r. split; [reflexivity|]. split; [constructor|reflexivity].
  - destruct (editStep log st e) as [st1| | |] eqn:Hstep; try discriminate.
    cbn [mbind result_bind]. intros Hrest.
    destruct (editStep_cells log st st1 e Hc Hstep) as (Hcells1 & Hc1 & Hw1).
    destruct (IH st1 st' Hc1 Hrest) as (Hcells & Hc' & w & Hw & Hsub & Hquiet).
    split; [rewrite Hcells; exact Hcells1|]. split; [exact Hc'|].
    destruct Hw1 as [Hw1|[Hlog Hw1]].
    + exists w. rewrite Hw, Hw1. split; [reflexivity|].
      split; [apply sublist_cons; exact Hsub|exact Hquiet].
    + exists (cellsOf e :: w). rewrite Hw, Hw1, <- app_assoc.
      split; [reflexivity|]. split; [apply sublist_skip; exact Hsub|].
      intros Hlog'. rewrite Hlog in Hlog'. discriminate.
Qed.

Lemma forEachEdit_app (log : bool) (edits1 edits2 : list (NNCdata F)) :
  ∀ st, forEachEdit log (edits1 ++ edits2) st
        = (st' ← forEachEdit log edits1 st; forEachEdit log edits2 st').
Proof.
  induction edits1 as [|e edits1 IH]; intros st; cbn; [reflexivity|].
  destruct (editStep log st e) as [st1| | |]; cbn [mbind result_bind]; [apply IH|reflexivity..].
Qed.

(** An iteration that starts at [nncData.end()]. *)
Lemma editStep_at_end (log : bool) (st : EditState) e :
  candidate_of st = length (nncData_of st) →
  editStep log st e
  = if log then Ok (printNncWarning st (cell1 e) (cell2 e)) else Undefined.
Proof.
  intros Hc. unfold editStep, deref. rewrite Hc, Nat.eqb_refl.
  destruct log; cbn [andb]; [reflexivity|].
  rewrite lookup_ge_None_2 by lia. reflexivity.
Qed.

(** An iteration that starts inside [nncData], everything before
    [candidate] being less than the edit: it completes, warns exactly when
    [log] is set and the edit is beyond every entry, and leaves [candidate]
    at [nncData.end()] exactly when the edit is beyond every entry. *)
Lemma editStep_inside (log : bool) (st : EditState) e :
  candidate_of st < length (nncData_of st) →
  (∀ j d, j < candidate_of st → nncData_of st !! j = Some d → nncLess d e = true) →
  ∃ st', editStep log st e = Ok st' ∧
    warnings_of st'
    = warnings_of st ++ (if log && beyondAll (nncData_of st) e then [cellsOf e] else []) ∧
    (beyondAll (nncData_of st) e = true → candidate_of st' = length (nncData_of st)) ∧
    (beyondAll (nncData_of st) e = false → candidate_of st' < length (nncData_of st)).
Proof.
  intros Hc Hlt. unfold editStep, deref.
  set (N := nncData_of st) in *. set (c := candidate_of st) in *.
  destruct (Nat.eqb_spec c (length N)) as [Hend|_]; [lia|]. cbn [andb].
  destruct (lookup_lt_is_Some_2 N c Hc) as [dc Hdc]. rewrite Hdc.
  cbn [mbind result_bind].
  destruct (negb (cell1 dc =? cell1 e)%Z || negb (cell2 dc =? cell2 e)%Z) eqn:Hdiff.
  - destruct (lower_bound_spec N c (mkNNCdata (cell1 e) (cell2 e) fzero)) as (Hb & Hlow & Hge);
      [lia|].
    cbn [nncData_of candidate_of warnings_of]. fold N.
    set (p := lower_bound N c (mkNNCdata (cell1 e) (cell2 e) fzero)) in *.
    destruct (Nat.eqb_spec p (length N)) as [Hp|Hp]; cbn [andb].
    + assert (Hbeyond : beyondAll N e = true).
      { apply beyondAll_true. intros d Hd. apply list_elem_of_lookup in Hd as [j Hj].
        pose proof (lookup_lt_Some _ _ _ Hj) as Hjlen.
        destruct (decide (j < c)) as [Hjc|Hjc]; [apply (Hlt j d Hjc Hj)|].
        rewrite <- (nncLess_value d e fzero). apply (Hlow j d); [lia|exact Hj]. }
      rewrite Hbeyond, andb_true_r.
      destruct log; eexists; (split; [reflexivity|]); cbn.
      * split; [reflexivity|]. split; [intros _; exact Hp|discriminate].
      * rewrite app_nil_r. split; [reflexivity|]. split; [intros _; exact Hp|discriminate].
    + assert (Hbeyond : beyondAll N e = false).
      { destruct (lookup_lt_is_Some_2 N p) as [dp Hdp]; [lia|].
        apply not_true_iff_false. rewrite beyondAll_true. intros Hall.
        specialize (Hall dp (list_elem_of_lookup_2 _ _ _ Hdp)).
        specialize (Hge dp Hdp). rewrite nncLess_value in Hge. congruence. }
      rewrite Hbeyond, andb_false_r.
      eexists; (split; [reflexivity|]); cbn.
      rewrite app_nil_r. split; [reflexivity|]. split; [discriminate|intros _; lia].
  - assert (Hbeyond : beyondAll N e = false).
    { apply not_true_iff_false. rewrite beyondAll_true. intros Hall.
      specialize (Hall dc (list_elem_of_lookup_2 _ _ _ Hdc)).
      apply orb_false_iff in Hdiff as [H1 H2].
      apply negb_false_iff, Z.eqb_eq in H1, H2.
      apply nncLess_true in Hall. lia. }
    rewrite Hbeyond, andb_false_r.
    eexists; (split; [reflexivity|]); cbn. fold c N.
    rewrite app_nil_r. split; [reflexivity|]. split; [discriminate|intros _; exact Hc].
Qed.

(** Everything being less than the edit, the edit is beyond every entry. *)
Lemma beyondAll_at_end N e :
  (∀ j d, j < length N → N !! j = Some d → nncLess d e = true) → beyondAll N e = true.
Proof.
  intros Hlt. apply beyondAll_true. intros d Hd.
  apply list_elem_of_lookup in Hd as [j Hj].
  apply (Hlt j d); [apply (lookup_lt_Some _ _ _ Hj)|exact Hj].
Qed.

Lemma filter_beyondAll_cells N N' (edits : list (NNCdata F)) :
  cellsOf <$> N = cellsOf <$> N' →
  filter (fun e => beyondAll N e = true) edits = filter (fun e => beyondAll N' e = true) edits.
Proof.
  intros Heq. apply list_filter_iff. intros e. rewrite (beyondAll_cells N N' e Heq). reflexivity.
Qed.

Lemma filter_beyondAll_all N e (edits : list (NNCdata F)) :
  Forall (nncLe e) edits → beyondAll N e = true →
  filter (fun e0 => beyondAll N e0 = true) edits = edits.
Proof.
  intros He Hb. induction He as [|e' edits He' _ IH]; [reflexivity|].
  rewrite filter_cons_True by (apply (beyondAll_mono N e e' He' Hb)).
  f_equal. exact IH.
Qed.

(** The invariant of the loop over sorted edits carries over an iteration. *)
Lemma sorted_step_invariant (st st1 : EditState) e (edits : list (NNCdata F)) :
  Forall (nncLe e) edits →
  nncData_of st1 = applyEdits [e] <$> nncData_of st →
  (∀ j d, j < candidate_of st1 → nncData_of st !! j = Some d → nncLess d e = true) →
  ∀ j d e', e' ∈ edits → j < candidate_of st1 → nncData_of st1 !! j = Some d →
            nncLess d e' = true.
Proof.
  intros He HN1 Hlt1 j d' e' He' Hj Hd'. rewrite HN1, list_lookup_fmap in Hd'.
  destruct (nncData_of st !! j) as [d|] eqn:Hd; [|discriminate].
  injection Hd' as <-.
  specialize (Hlt1 j d Hj Hd). rewrite Forall_forall in He.
  specialize (He e' He'). unfold nncLe in He.
  apply nncLess_true in Hlt1. apply nncLess_false in He. apply nncLess_true.
  cbn. lia.
Qed.

(** The loop with [log] set, on sorted edits: the warnings are those for
    the edits beyond every entry. *)
Lemma forEachEdit_logged (edits : list (NNCdata F)) :
  ∀ st,
    StronglySorted nncLe edits →
    StronglySorted nncLe (nncData_of st) →
    candidate_of st ≤ length (nncData_of st) →
    (∀ j d e, e ∈ edits → j < candidate_of st → nncData_of st !! j = Some d →
              nncLess d e = true) →
    ∃ st', forEachEdit true edits st = Ok st' ∧
      nncData_of st' = applyEdits edits <$> nncData_of st ∧
      warnings_of st'
      = warnings_of st
        ++ (cellsOf <$> filter (fun e => beyondAll (nncData_of st) e = true) edits).
Proof.
  induction edits as [|e edits IH]; intros st Hedits Hsorted Hc Hlt.
  - exists st. split; [reflexivity|]. split.
    + rewrite <- (list_fmap_id (nncData_of st)) at 1.
      apply list_fmap_ext. intros i d _. symmetry. apply applyEdits_nil.
    + cbn. rewrite app_nil_r. reflexivity.
  - apply StronglySorted_cons in Hedits as [He Hedits].
    assert (Hlte : ∀ j d, j < candidate_of st → nncData_of st !! j = Some d →
                          nncLess d e = true).
    { intros j d Hj Hd. apply (Hlt j d e); [left|exact Hj|exact Hd]. }
    assert (Hstep : ∃ st1, editStep true st e = Ok st1 ∧
              warnings_of st1
              = warnings_of st ++ (if beyondAll (nncData_of st) e then [cellsOf e] else [])).
    { destruct (decide (candidate_of st = length (nncData_of st))) as [Hend|Hend].
      - rewrite (editStep_at_end true st e Hend). eexists. split; [reflexivity|].
        rewrite beyondAll_at_end; [reflexivity|].
        intros j d Hj Hd. apply (Hlte j d); [lia|exact Hd].
      - destruct (editStep_inside true st e) as (st1 & Hst1 & Hw1 & _); [lia|exact Hlte|].
        exists st1. split; [exact Hst1|exact Hw1]. }
    destruct Hstep as (st1 & Hst1 & Hw1).
    destruct (editStep_sorted true st st1 e Hsorted Hc Hlte Hst1) as (HN1 & Hc1 & Hlt1).
    destruct (IH st1) as (st' & Hrun & HN' & Hw').
    + exact Hedits.
    + rewrite HN1. apply (sorted_cells (nncData_of st)); [|exact Hsorted].
      symmetry. apply cellsOf_applyEdits.
    + rewrite HN1, length_fmap. exact Hc1.
    + apply (sorted_step_invariant st st1 e edits He HN1 Hlt1).
    + exists st'. cbn [forEachEdit]. rewrite Hst1. cbn [mbind result_bind].
      split; [exact Hrun|]. split.
      * rewrite HN', HN1, <- list_fmap_compose. apply list_fmap_ext.
        intros i d _. cbn. symmetry. apply applyEdits_cons.
      * rewrite Hw', Hw1, <- app_assoc. f_equal.
        rewrite (filter_beyondAll_cells (nncData_of st1) (nncData_of st))
          by (rewrite HN1; apply cellsOf_applyEdits).
        destruct (beyondAll (nncData_of st) e) eqn:Hb.
        -- rewrite filter_cons_True by exact Hb. reflexivity.
        -- rewrite filter_cons_False by congruence. reflexivity.
Qed.

(** The loop with [log] unset, on sorted edits: it runs into
    [nncData.end()] when it starts there with an edit to apply, or when two
    edits or more are beyond every entry; otherwise it completes without a
    warning. *)
Lemma forEachEdit_unlogged (edits : list (NNCdata F)) :
  ∀ st,
    StronglySorted nncLe edits →
    StronglySorted nncLe (nncData_of st) →
    candidate_of st ≤ length (nncData_of st) →
    (∀ j d e, e ∈ edits → j < candidate_of st → nncData_of st !! j = Some d →
              nncLess d e = true) →
    let past_end :=
      (candidate_of st = length (nncData_of st) ∧ edits ≠ []) ∨
      2 ≤ length (filter (fun e => beyondAll (nncData_of st) e = true) edits) in
    match forEachEdit false edits st with
    | Ok st' => ¬ past_end ∧
                nncData_of st' = applyEdits edits <$> nncData_of st ∧
                warnings_of st' = warnings_of st
    | Undefined => past_end
    | _ => False
    end.
Proof.
  induction edits as [|e edits IH]; intros st Hedits Hsorted Hc Hlt past_end; subst past_end.
  - cbn. split; [|split].
    + intros [[_ Hne]|Hk]; [congruence|lia].
    + rewrite <- (list_fmap_id (nncData_of st)) at 1.
      apply list_fmap_ext. intros i d _. symmetry. apply applyEdits_nil.
    + reflexivity.
  - apply StronglySorted_cons in Hedits as [He Hedits].
    assert (Hlte : ∀ j d, j < candidate_of st → nncData_of st !! j = Some d →
                          nncLess d e = true).
    { intros j d Hj Hd. apply (Hlt j d e); [left|exact Hj|exact Hd]. }
    cbn [forEachEdit].
    destruct (decide (candidate_of st = length (nncData_of st))) as [Hend|Hend].
    { rewrite (editStep_at_end false st e Hend). cbn [mbind result_bind].
      left. split; [exact Hend|discriminate]. }
    destruct (editStep_inside false st e) as (st1 & Hst1 & Hw1 & Hb1 & Hb0); [lia|exact Hlte|].
    cbn [andb] in Hw1. rewrite app_nil_r in Hw1.
    destruct (editStep_sorted false st st1 e Hsorted Hc Hlte Hst1) as (HN1 & Hc1 & Hlt1).
    rewrite Hst1. cbn [mbind result_bind].
    assert (Hcells : cellsOf <$> nncData_of st1 = cellsOf <$> nncData_of st)
      by (rewrite HN1; apply cellsOf_applyEdits).
    assert (Hlen : length (nncData_of st1) = length (nncData_of st))
      by (rewrite HN1; apply length_fmap).
    assert (Hsorted1 : StronglySorted nncLe (nncData_of st1))
      by (apply (sorted_cells (nncData_of st)); [symmetry; exact Hcells|exact Hsorted]).
    assert (Hc1' : candidate_of st1 ≤ length (nncData_of st1)) by lia.
    pose proof (IH st1 Hedits Hsorted1 Hc1'
                  (sorted_step_invariant st st1 e edits He HN1 Hlt1)) as IH'.
    clear IH. cbn zeta in IH'.
    rewrite (filter_beyondAll_cells (nncData_of st1) (nncData_of st) edits Hcells), Hlen in IH'.
    assert (Hdata : ∀ st', nncData_of st' = applyEdits edits <$> nncData_of st1 →
                           nncData_of st' = applyEdits (e :: edits) <$> nncData_of st).
    { intros st' ->. rewrite HN1, <- list_fmap_compose. apply list_fmap_ext.
      intros i d _. cbn. symmetry. apply applyEdits_cons. }
    destruct (beyondAll (nncData_of st) e) eqn:Hb.
    + specialize (Hb1 eq_refl). rewrite filter_cons_True by exact Hb.
      rewrite (filter_beyondAll_all _ e edits He Hb) in *. cbn [length].
      destruct (forEachEdit false edits st1) as [st'| | |]; [|exact IH'| |exact IH'].
      * destruct IH' as (Hnot & HN' & Hw'). split; [|split].
        -- intros [[Hx _]|Hk]; [exact (Hend Hx)|].
           apply Hnot. destruct edits as [|e' edits]; [cbn in Hk; lia|].
           left. split; [exact Hb1|discriminate].
        -- apply Hdata. exact HN'.
        -- rewrite Hw'. exact Hw1.
      * right. destruct IH' as [[_ Hne]|Hk]; [|lia].
        destruct edits as [|e' edits]; [congruence|cbn; lia].
    + specialize (Hb0 eq_refl). rewrite filter_cons_False by congruence.
      destruct (forEachEdit false edits st1) as [st'| | |]; [|exact IH'| |exact IH'].
      * destruct IH' as (Hnot & HN' & Hw'). split; [|split].
        -- intros [[Hx _]|Hk]; [exact (Hend Hx)|]. apply Hnot. right. exact Hk.
        -- apply Hdata. exact HN'.
        -- rewrite Hw'. exact Hw1.
      * right. destruct IH' as [[Hx _]|Hk]; [lia|exact Hk].
Qed.

End NncSorterMore.


Section NncSorterMoreTheorems.
Context {F : Type} `{Scalar F}.
Variable std_sort : list (NNCdata F) → list (NNCdata F).
Hypothesis std_sort_sorts : sorts_by_nncLess std_sort.

(** With [log] set, whatever the edits and whatever their order, the call
    completes; the cells of [nncData] are those of the sorted input, in the
    same places (only transmissibilities change, so the result is still
    sorted), and the warnings name edits, at most one each and in the order
    of the edits. *)
Theorem sortNncAndApplyEditnnc_any_order (nncData editnncData : list (NNCdata F)) :
  ∃ res warnings,
    sortNncAndApplyEditnnc std_sort nncData editnncData true = Ok (res, warnings) ∧
    cellsOf <$> res = cellsOf <$> std_sort nncData ∧
    StronglySorted nncLe res ∧
    warnings `sublist_of` (cellsOf <$> editnncData).
Proof.
  unfold sortNncAndApplyEditnnc.
  set (st0 := mkEditState (std_sort nncData) 0 []).
  assert (Hc0 : candidate_of st0 ≤ length (nncData_of st0)) by (cbn; lia).
  destruct (forEachEdit_log_total editnncData st0 Hc0) as [st' Hrun].
  rewrite Hrun. cbn [mbind result_bind].
  destruct (forEachEdit_cells true editnncData st0 st' Hc0 Hrun)
    as (Hcells & _ & w & Hw & Hsub & _).
  exists (nncData_of st'), (warnings_of st'). split; [reflexivity|].
  split; [exact Hcells|]. split.
  - apply (sorted_cells (std_sort nncData)); [symmetry; exact Hcells|].
    apply std_sort_sorts.
  - rewrite Hw. exact Hsub.
Qed.

(** With [log] unset no warning is ever issued: a call that returns has
    logged nothing, and has changed transmissibilities only. *)
Theorem sortNncAndApplyEditnnc_unlogged_quiet (nncData editnncData : list (NNCdata F))
    (res : list (NNCdata F)) (warnings : list (Z * Z)) :
  sortNncAndApplyEditnnc std_sort nncData editnncData false = Ok (res, warnings) →
  warnings = [] ∧
  cellsOf <$> res = cellsOf <$> std_sort nncData ∧
  StronglySorted nncLe res.
Proof.
  unfold sortNncAndApplyEditnnc.
  set (st0 := mkEditState (std_sort nncData) 0 []).
  assert (Hc0 : candidate_of st0 ≤ length (nncData_of st0)) by (cbn; lia).
  destruct (forEachEdit false editnncData st0) as [st'| | |] eqn:Hrun; try discriminate.
  cbn [mbind result_bind]. intros [= <- <-].
  destruct (forEachEdit_cells false editnncData st0 st' Hc0 Hrun)
    as (Hcells & _ & w & Hw & _ & Hquiet).
  split; [rewrite Hw, (Hquiet eq_refl); reflexivity|].
  split; [exact Hcells|].
  apply (sorted_cells (std_sort nncData)); [symmetry; exact Hcells|].
  apply std_sort_sorts.
Qed.

(** With [log] set and the edits sorted by cells, the warnings are exactly
    those for the edits whose pair of cells comes after every connection of
    [nncData], in the order of the edits.  An edit naming a pair that is not
    in [nncData] but does not come after all of it is dropped without a
    warning. *)
Theorem sortNncAndApplyEditnnc_warnings (nncData editnncData : list (NNCdata F)) :
  StronglySorted nncLe editnncData →
  sortNncAndApplyEditnnc std_sort nncData editnncData true
  = Ok (applyEdits editnncData <$> std_sort nncData,
        cellsOf <$> filter (fun e => beyondAll nncData e = true) editnncData).
Proof.
  intros Hedits. unfold sortNncAndApplyEditnnc.
  destruct (std_sort_sorts nncData) as [Hperm Hsorted].
  destruct (forEachEdit_logged editnncData (mkEditState (std_sort nncData) 0 []))
    as (st' & Hrun & HN' & Hw').
  - exact Hedits.
  - exact Hsorted.
  - cbn. lia.
  - cbn. intros j d e _ Hj. lia.
  - rewrite Hrun. cbn [mbind result_bind]. rewrite HN', Hw'. cbn [nncData_of warnings_of app]. do 3 f_equal.
    apply list_filter_iff. intros e. rewrite (beyondAll_perm _ _ e Hperm). reflexivity.
Qed.

(** With [log] unset and the edits sorted by cells, the call dereferences
    [nncData.end()] exactly when [nncData] is empty and there is an edit, or
    when two edits or more come after every connection of [nncData];
    otherwise it returns the edited data. *)
Theorem sortNncAndApplyEditnnc_unlogged (nncData editnncData : list (NNCdata F)) :
  StronglySorted nncLe editnncData →
  let past_end :=
    (nncData = [] ∧ editnncData ≠ []) ∨
    2 ≤ length (filter (fun e => beyondAll nncData e = true) editnncData) in
  (past_end →
   sortNncAndApplyEditnnc std_sort nncData editnncData false = Undefined) ∧
  (¬ past_end →
   sortNncAndApplyEditnnc std_sort nncData editnncData false
   = Ok (applyEdits editnncData <$> std_sort nncData, [])).
Proof.
  intros Hedits past_end. subst past_end. unfold sortNncAndApplyEditnnc.
  destruct (std_sort_sorts nncData) as [Hperm Hsorted].
  set (st0 := mkEditState (std_sort nncData) 0 []).
  pose proof (forEachEdit_unlogged editnncData st0 Hedits Hsorted) as Hrun.
  cbn zeta in Hrun. cbn [nncData_of candidate_of warnings_of st0] in Hrun.
  specialize (Hrun ltac:(lia) ltac:(intros j d e _ Hj; lia)).
  rewrite (list_filter_iff (fun e => beyondAll (std_sort nncData) e = true)
             (fun e => beyondAll nncData e = true)) in Hrun
    by (intros e; rewrite (beyondAll_perm _ _ e Hperm); reflexivity).
  assert (Hempty : 0 = length (std_sort nncData) ↔ nncData = []).
  { rewrite (Permutation_length Hperm). destruct nncData; cbn; split; congruence. }
  destruct (forEachEdit false editnncData st0) as [st'| | |]; cbn [mbind result_bind].
  - destruct Hrun as (Hnot & HN' & Hw'). split.
    + intros Hp. exfalso. apply Hnot. rewrite Hempty. exact Hp.
    + intros _. rewrite HN', Hw'. reflexivity.
  - destruct Hrun.
  - split; [reflexivity|]. intros Hnot. exfalso. apply Hnot.
    rewrite <- Hempty. exact Hrun.
  - destruct Hrun.
Qed.

(** With [log] set, once an edit comes after every connection of [nncData],
    that edit and every later one, whatever it names, is answered with a
    warning and changes nothing: the call does what it does on the edits
    before it and then warns about all the rest. *)
Theorem sortNncAndApplyEditnnc_after_beyond
    (nncData before : list (NNCdata F)) (e : NNCdata F) (rest : list (NNCdata F)) :
  beyondAll nncData e = true →
  sortNncAndApplyEditnnc std_sort nncData (before ++ e :: rest) true
  = ('(res, warnings) ← sortNncAndApplyEditnnc std_sort nncData before true;
     Ok (res, warnings ++ (cellsOf <$> e :: rest))).
Proof.
  intros Hb. unfold sortNncAndApplyEditnnc.
  destruct (std_sort_sorts nncData) as [Hperm _].
  set (st0 := mkEditState (std_sort nncData) 0 []).
  assert (Hc0 : candidate_of st0 ≤ length (nncData_of st0)) by (cbn; lia).
  rewrite forEachEdit_app.
  destruct (forEachEdit true before st0) as [st1| | |] eqn:Hrun;
    cbn [mbind result_bind]; [|reflexivity..].
  destruct (forEachEdit_cells true before st0 st1 Hc0 Hrun) as (Hcells & Hc1 & _).
  assert (Hb1 : beyondAll (nncData_of st1) e = true).
  { rewrite (beyondAll_cells _ _ e Hcells). cbn [nncData_of st0].
    rewrite (beyondAll_perm _ _ e Hperm). exact Hb. }
  assert (Hfirst : ∃ st2, editStep true st1 e = Ok st2 ∧
            nncData_of st2 = nncData_of st1 ∧
            candidate_of st2 = length (nncData_of st1) ∧
            warnings_of st2 = warnings_of st1 ++ [cellsOf e]).
  { unfold editStep, deref.
    destruct (Nat.eqb_spec (candidate_of st1) (length (nncData_of st1))) as [Hend|Hend];
      cbn [andb].
    - eexists. split; [reflexivity|]. cbn. rewrite Hend. repeat split.
    - destruct (lookup_lt_is_Some_2 (nncData_of st1) (candidate_of st1)) as [dc Hdc]; [lia|].
      rewrite Hdc. cbn [mbind result_bind].
      assert (Hlt : nncLess dc e = true).
      { apply (proj1 (beyondAll_true _ _) Hb1). apply (list_elem_of_lookup_2 _ _ _ Hdc). }
      apply nncLess_true in Hlt.
      assert (Hdiff : negb (cell1 dc =? cell1 e)%Z || negb (cell2 dc =? cell2 e)%Z = true).
      { destruct (Z.eqb_spec (cell1 dc) (cell1 e)), (Z.eqb_spec (cell2 dc) (cell2 e));
          cbn; try reflexivity; lia. }
      rewrite Hdiff.
      destruct (lower_bound_spec (nncData_of st1) (candidate_of st1)
                  (mkNNCdata (cell1 e) (cell2 e) fzero) Hc1) as (Hbnd & _ & Hge).
      cbn [nncData_of candidate_of warnings_of].
      set (p := lower_bound (nncData_of st1) (candidate_of st1)
                  (mkNNCdata (cell1 e) (cell2 e) fzero)) in *.
      assert (Hp : p = length (nncData_of st1)).
      { destruct (decide (p = length (nncData_of st1))) as [Hp|Hp]; [exact Hp|].
        destruct (lookup_lt_is_Some_2 (nncData_of st1) p) as [dp Hdp]; [lia|].
        specialize (Hge dp Hdp). rewrite nncLess_value in Hge.
        rewrite (proj1 (beyondAll_true _ _) Hb1 dp (list_elem_of_lookup_2 _ _ _ Hdp)) in Hge.
        discriminate. }
      rewrite Hp, Nat.eqb_refl. cbn [andb].
      eexists. split; [reflexivity|]. cbn. repeat split. }
  destruct Hfirst as (st2 & Hst2 & HN2 & Hc2 & Hw2).
  assert (Hrest : ∀ edits st, candidate_of st = length (nncData_of st) →
            forEachEdit true edits st
            = Ok (mkEditState (nncData_of st) (candidate_of st)
                    (warnings_of st ++ (cellsOf <$> edits)))).
  { induction edits as [|e' edits IH]; intros st Hend; cbn [forEachEdit].
    - cbn. rewrite app_nil_r. destruct st; reflexivity.
    - rewrite (editStep_at_end true st e' Hend). cbn [mbind result_bind].
      rewrite IH by exact Hend. cbn. rewrite <- app_assoc. reflexivity. }
  cbn [forEachEdit]. rewrite Hst2. cbn [mbind result_bind].
  rewrite Hrest by congruence. cbn. rewrite HN2, Hw2, <- app_assoc. reflexivity.
Qed.

End NncSorterMoreTheorems.

(** [sortNncAndApplyEditnnc_any_order] on edits given in descending order. *)
Lemma sortNncAndApplyEditnnc_any_order_witness :
  ∃ res warnings,
    sortNncAndApplyEditnnc merge_sort_nnc two_nnc unsorted_edits true = Ok (res, warnings) ∧
    cellsOf <$> res = cellsOf <$> merge_sort_nnc two_nnc ∧
    StronglySorted nncLe res ∧
    warnings `sublist_of` (cellsOf <$> unsorted_edits).
Proof.
  exact (sortNncAndApplyEditnnc_any_order merge_sort_nnc merge_sort_nnc_sorts
           two_nnc unsorted_edits).
Defined.

(** [sortNncAndApplyEditnnc_unlogged_quiet] on a call that returns. *)
Lemma sortNncAndApplyEditnnc_unlogged_quiet_witness :
  let res := applyEdits sample_edits <$> merge_sort_nnc sample_nnc in
  sortNncAndApplyEditnnc merge_sort_nnc sample_nnc sample_edits false = Ok (res, []) ∧
  cellsOf <$> res = cellsOf <$> merge_sort_nnc sample_nnc ∧
  StronglySorted nncLe res.
Proof.
  intros res.
  assert (Hrun : sortNncAndApplyEditnnc merge_sort_nnc sample_nnc sample_edits false
                 = Ok (res, [])) by (vm_compute; reflexivity).
  split; [exact Hrun|].
  exact (proj2 (sortNncAndApplyEditnnc_unlogged_quiet merge_sort_nnc merge_sort_nnc_sorts
                  sample_nnc sample_edits res [] Hrun)).
Defined.

(** [sortNncAndApplyEditnnc_warnings] on sorted edits of which the last two
    are beyond every connection; the edit for (2,2), which names no
    connection, is dropped without a warning. *)
Lemma sortNncAndApplyEditnnc_warnings_witness :
  sortNncAndApplyEditnnc merge_sort_nnc sample_nnc sample_edits_beyond true
  = Ok (applyEdits sample_edits_beyond <$> merge_sort_nnc sample_nnc,
        cellsOf <$> filter (fun e => beyondAll sample_nnc e = true) sample_edits_beyond) ∧
  cellsOf <$> filter (fun e => beyondAll sample_nnc e = true) sample_edits_beyond
  = [(4, 0); (4, 1)]%Z.
Proof.
  split; [|vm_compute; reflexivity].
  apply (sortNncAndApplyEditnnc_warnings merge_sort_nnc merge_sort_nnc_sorts).
  repeat (constructor; try reflexivity).
Defined.

(** [sortNncAndApplyEditnnc_unlogged]: two edits beyond every connection
    run into [nncData.end()], one does not. *)
Lemma sortNncAndApplyEditnnc_unlogged_witness :
  sortNncAndApplyEditnnc merge_sort_nnc sample_nnc sample_edits_beyond false = Undefined ∧
  sortNncAndApplyEditnnc merge_sort_nnc sample_nnc sample_edits_one_beyond false
  = Ok (applyEdits sample_edits_one_beyond <$> merge_sort_nnc sample_nnc, []).
Proof.
  split.
  - apply (sortNncAndApplyEditnnc_unlogged merge_sort_nnc merge_sort_nnc_sorts).
    + repeat (constructor; try reflexivity).
    + right. vm_compute. lia.
  - apply (sortNncAndApplyEditnnc_unlogged merge_sort_nnc merge_sort_nnc_sorts).
    + repeat (constructor; try reflexivity).
    + intros [[Hempty _]|Hk]; [discriminate Hempty|]. vm_compute in Hk. lia.
Defined.

(** [sortNncAndApplyEditnnc_after_beyond]: the edit for the connection
    (2,2), coming after an edit for (7,7), is answered with a warning. *)
Lemma sortNncAndApplyEditnnc_after_beyond_witness :
  sortNncAndApplyEditnnc merge_sort_nnc two_nnc
    ([mkNNCdata 1 1 5] ++ mkNNCdata 7 7 2 :: [mkNNCdata 2 2 3])%float true
  = ('(res, warnings) ← sortNncAndApplyEditnnc merge_sort_nnc two_nnc [mkNNCdata 1 1 5%float] true;
     Ok (res, warnings ++ (cellsOf <$> mkNNCdata 7 7 2 :: [mkNNCdata 2 2 3])%float)) ∧
  sortNncAndApplyEditnnc merge_sort_nnc two_nnc
    ([mkNNCdata 1 1 5] ++ mkNNCdata 7 7 2 :: [mkNNCdata 2 2 3])%float true
  = Ok ([mkNNCdata 1 1 5; mkNNCdata 2 2 1]%float, [(7, 7); (2, 2)]%Z).
Proof.
  split; [|vm_compute; reflexivity].
  apply (sortNncAndApplyEditnnc_after_beyond merge_sort_nnc merge_sort_nnc_sorts).
  reflexivity.
Defined.

(** ** The PETSc solver: name tables, transfer of the system, [solve] *)

Section PetscSolver.
Import LinearSolverPetsc.

Ltac table_lookup Hin :=
  repeat (match goal with
          | |- context [String.eqb ?k ?type] =>
              destruct (String.eqb_spec k type) as [<-|?];
              [split; [discriminate|intros Hin; exfalso; apply Hin; set_solver]|]
          end);
  split; [intros _ Hin|reflexivity];
  repeat (apply elem_of_cons in Hin as [->|Hin]; [congruence|]);
  apply elem_of_nil in Hin; exact Hin.

(** The default of a table is not among its pairs. *)
Lemma KSPTypeMap_table (default_type other : string) :
  KSPTypeMap.type_map_ (KSPTypeMap.new default_type)
  = KSPTypeMap.type_map_ (KSPTypeMap.new other).
Proof. reflexivity. Qed.

Lemma PCTypeMap_table (default_type other : string) :
  PCTypeMap.type_map_ (PCTypeMap.new default_type)
  = PCTypeMap.type_map_ (PCTypeMap.new other).
Proof. reflexivity. Qed.

(** The keys of the table of Krylov methods are the listed names,
    whatever the default. *)
Lemma KSPTypeMap_lookup_None (default_type type : string) :
  unordered_map_find (KSPTypeMap.type_map_ (KSPTypeMap.new default_type)) type = None
  ↔ type ∉ KSP_names.
Proof.
  unfold KSP_names.
  let table := eval vm_compute in (KSPTypeMap.type_map_ (KSPTypeMap.new default_type)) in
  change (KSPTypeMap.type_map_ (KSPTypeMap.new default_type)) with table.
  cbn [unordered_map_find].
  table_lookup Hin.
Qed.

Lemma PCTypeMap_lookup_None (default_type type : string) :
  unordered_map_find (PCTypeMap.type_map_ (PCTypeMap.new default_type)) type = None
  ↔ type ∉ PC_names.
Proof.
  unfold PC_names.
  let table := eval vm_compute in (PCTypeMap.type_map_ (PCTypeMap.new default_type)) in
  change (PCTypeMap.type_map_ (PCTypeMap.new default_type)) with table.
  cbn [unordered_map_find].
  table_lookup Hin.
Qed.

(** What [find] returns, through the two lookups it makes. *)
Lemma KSPTypeMap_find_lookups (default_type type : string) :
  KSPTypeMap.find (KSPTypeMap.new default_type) type
  = match unordered_map_find (KSPTypeMap.type_map_ (KSPTypeMap.new default_type)) type with
    | Some ksp => Ok ksp
    | None =>
        match unordered_map_find (KSPTypeMap.type_map_ (KSPTypeMap.new default_type))
                default_type with
        | Some ksp => Ok ksp
        | None => Thrown
        end
    end.
Proof.
  unfold KSPTypeMap.find.
  generalize (KSPTypeMap.type_map_ (KSPTypeMap.new default_type)).
  intros m. cbn [KSPTypeMap.default_type_ KSPTypeMap.new].
  destruct (unordered_map_find m type); reflexivity.
Qed.

Lemma PCTypeMap_find_lookups (default_type type : string) :
  PCTypeMap.find (PCTypeMap.new default_type) type
  = match unordered_map_find (PCTypeMap.type_map_ (PCTypeMap.new default_type)) type with
    | Some pc => Ok pc
    | None =>
        match unordered_map_find (PCTypeMap.type_map_ (PCTypeMap.new default_type))
                default_type with
        | Some pc => Ok pc
        | None => Thrown
        end
    end.
Proof.
  unfold PCTypeMap.find.
  generalize (PCTypeMap.type_map_ (PCTypeMap.new default_type)).
  intros m. cbn [PCTypeMap.default_type_ PCTypeMap.new].
  destruct (unordered_map_find m type); reflexivity.
Qed.

Lemma KSPTypeMap_find_Thrown (default_type type : string) :
  KSPTypeMap.find (KSPTypeMap.new default_type) type = Thrown
  ↔ (type ∉ KSP_names) ∧ (default_type ∉ KSP_names).
Proof.
  rewrite <- (KSPTypeMap_lookup_None default_type type),
          <- (KSPTypeMap_lookup_None default_type default_type),
          KSPTypeMap_find_lookups.
  generalize (KSPTypeMap.type_map_ (KSPTypeMap.new default_type)). intros m.
  destruct (unordered_map_find m type) as [t1|];
    [split; [discriminate|intros [? _]; discriminate]|].
  destruct (unordered_map_find m default_type) as [t2|];
    [split; [discriminate|intros [_ ?]; discriminate]|].
  split; [intros _; split; reflexivity|reflexivity].
Qed.

Lemma PCTypeMap_find_Thrown (default_type type : string) :
  PCTypeMap.find (PCTypeMap.new default_type) type = Thrown
  ↔ (type ∉ PC_names) ∧ (default_type ∉ PC_names).
Proof.
  rewrite <- (PCTypeMap_lookup_None default_type type),
          <- (PCTypeMap_lookup_None default_type default_type),
          PCTypeMap_find_lookups.
  generalize (PCTypeMap.type_map_ (PCTypeMap.new default_type)). intros m.
  destruct (unordered_map_find m type) as [t1|];
    [split; [discriminate|intros [? _]; discriminate]|].
  destruct (unordered_map_find m default_type) as [t2|];
    [split; [discriminate|intros [_ ?]; discriminate]|].
  split; [intros _; split; reflexivity|reflexivity].
Qed.

(** [find] returns a type or throws. *)
Lemma KSPTypeMap_find_cases (default_type type : string) :
  KSPTypeMap.find (KSPTypeMap.new default_type) type = Thrown ∨
  ∃ ksp, KSPTypeMap.find (KSPTypeMap.new default_type) type = Ok ksp.
Proof.
  rewrite KSPTypeMap_find_lookups.
  generalize (KSPTypeMap.type_map_ (KSPTypeMap.new default_type)). intros m.
  destruct (unordered_map_find m type) as [t1|]; [right; exists t1; reflexivity|].
  destruct (unordered_map_find m default_type) as [t2|]; [right; exists t2; reflexivity|].
  left. reflexivity.
Qed.

Lemma PCTypeMap_find_cases (default_type type : string) :
  PCTypeMap.find (PCTypeMap.new default_type) type = Thrown ∨
  ∃ pc, PCTypeMap.find (PCTypeMap.new default_type) type = Ok pc.
Proof.
  rewrite PCTypeMap_find_lookups.
  generalize (PCTypeMap.type_map_ (PCTypeMap.new default_type)). intros m.
  destruct (unordered_map_find m type) as [t1|]; [right; exists t1; reflexivity|].
  destruct (unordered_map_find m default_type) as [t2|]; [right; exists t2; reflexivity|].
  left. reflexivity.
Qed.

(** [find] of either table throws exactly when neither the name asked for
    nor the default of the table is one of the listed names; otherwise it
    returns a type, and for a listed name the default plays no role.  So a
    table built with a listed default, like the default arguments ["gmres"]
    and ["jacobi"], never throws. *)
Theorem TypeMap_find_outcome (default_type type : string) :
  (KSPTypeMap.find (KSPTypeMap.new default_type) type = Thrown
   ↔ (type ∉ KSP_names) ∧ (default_type ∉ KSP_names)) ∧
  (PCTypeMap.find (PCTypeMap.new default_type) type = Thrown
   ↔ (type ∉ PC_names) ∧ (default_type ∉ PC_names)) ∧
  (KSPTypeMap.find (KSPTypeMap.new default_type) type ≠ Thrown
   ↔ ∃ ksp, KSPTypeMap.find (KSPTypeMap.new default_type) type = Ok ksp) ∧
  (PCTypeMap.find (PCTypeMap.new default_type) type ≠ Thrown
   ↔ ∃ pc, PCTypeMap.find (PCTypeMap.new default_type) type = Ok pc) ∧
  (∀ other, type ∈ KSP_names →
     KSPTypeMap.find (KSPTypeMap.new other) type
     = KSPTypeMap.find (KSPTypeMap.new default_type) type) ∧
  (∀ other, type ∈ PC_names →
     PCTypeMap.find (PCTypeMap.new other) type
     = PCTypeMap.find (PCTypeMap.new default_type) type).
Proof.
  split; [apply KSPTypeMap_find_Thrown|]. split; [apply PCTypeMap_find_Thrown|].
  split; [|split; [|split]].
  - destruct (KSPTypeMap_find_cases default_type type) as [Ht|[ksp Hk]].
    + split; [congruence|intros [ksp Hk]; congruence].
    + split; [intros _; exists ksp; exact Hk|intros _; congruence].
  - destruct (PCTypeMap_find_cases default_type type) as [Ht|[pc Hk]].
    + split; [congruence|intros [pc Hk]; congruence].
    + split; [intros _; exists pc; exact Hk|intros _; congruence].
  - intros other Hin. rewrite !KSPTypeMap_find_lookups.
    rewrite (KSPTypeMap_table other default_type).
    pose proof (KSPTypeMap_lookup_None default_type type) as Hnone.
    revert Hnone. generalize (KSPTypeMap.type_map_ (KSPTypeMap.new default_type)).
    intros m Hnone.
    destruct (unordered_map_find m type) as [ksp|]; [reflexivity|].
    destruct (proj1 Hnone eq_refl Hin).
  - intros other Hin. rewrite !PCTypeMap_find_lookups.
    rewrite (PCTypeMap_table other default_type).
    pose proof (PCTypeMap_lookup_None default_type type) as Hnone.
    revert Hnone. generalize (PCTypeMap.type_map_ (PCTypeMap.new default_type)).
    intros m Hnone.
    destruct (unordered_map_find m type) as [pc|]; [reflexivity|].
    destruct (proj1 Hnone eq_refl Hin).
Qed.

(** ** Vectors *)

Section PetscVectors.
Context {F : Type}.

(** Copying [x] into a PETSc vector of [n] entries and the vector back into
    [y] puts the first [n] entries of [x] in front of the rest of [y]; the
    vector keeps its size.  Neither array may be shorter than the vector. *)
Theorem petsc_vec_round_trip (x y vec : list F) :
  length vec ≤ length x →
  length vec ≤ length y →
  ∃ vec', to_petsc_vec x (Some vec) = Ok (Some vec') ∧
          length vec' = length vec ∧
          from_petsc_vec y (Some vec')
          = Ok (take (length vec) x ++ drop (length vec) y) ∧
          (length x = length vec → length y = length vec →
           from_petsc_vec y (Some vec') = Ok x).
Proof.
  intros Hx Hy. exists (take (length vec) x).
  assert (Hlen : length (take (length vec) x) = length vec)
    by (rewrite length_take; lia).
  unfold to_petsc_vec, from_petsc_vec. rewrite Hlen.
  rewrite !decide_True by lia.
  split; [reflexivity|]. split; [reflexivity|]. split; [reflexivity|].
  intros Hx' Hy'. rewrite <- Hx', firstn_all. rewrite drop_ge by lia.
  rewrite app_nil_r. reflexivity.
Qed.

End PetscVectors.

(** ** Transfer of the matrix *)

Lemma for_each_ok {S I : Type} (range : list I) (body : S → I → result S) (f : S → I → S) :
  ∀ s, (∀ i s', i ∈ range → body s' i = Ok (f s' i)) →
       for_each range body s = Ok (fold_left f range s).
Proof.
  induction range as [|i range IH]; intros s Hbody; [reflexivity|]. cbn.
  rewrite Hbody by left. cbn [mbind result_bind].
  apply IH. intros j s' Hj. apply Hbody. right. exact Hj.
Qed.

Lemma fold_left_append {A I : Type} (g : I → list A) (range : list I) :
  ∀ acc, fold_left (fun acc i => acc ++ g i) range acc = acc ++ (range ≫= g).
Proof.
  induction range as [|i range IH]; intros acc; cbn.
  - rewrite app_nil_r. reflexivity.
  - rewrite IH, <- app_assoc. reflexivity.
Qed.

Lemma segZ_one {A : Type} (xs : list A) (k : Z) (x : A) :
  (0 ≤ k)%Z → xs !! Z.to_nat k = Some x → segZ xs k (k + 1) = [x].
Proof.
  intros Hk Hx. unfold segZ. replace (Z.to_nat (k + 1 - k)) with 1 by lia.
  rewrite (drop_S _ _ _ Hx). reflexivity.
Qed.

Section PetscMatrix.
Context {F : Type}.
Implicit Types (ia ja : list Z) (sa : list F) (A : list (MatCall F)).

Local Open Scope Z_scope.

(** The loop over the entries of one row. *)
Lemma to_petsc_mat_row (i : Z) ja sa (n : nat) :
  ∀ lo A,
    0 ≤ lo →
    lo + Z.of_nat n ≤ Z.of_nat (length ja) →
    lo + Z.of_nat n ≤ Z.of_nat (length sa) →
    for_each (seqZ lo (Z.of_nat n))
      (fun A j => col ← rdZ ja j; value ← rdZ sa j; Ok (A ++ [MatSetValues i col value])) A
    = Ok (A ++ ((fun cv => MatSetValues i cv.1 cv.2)
                <$> zip (segZ ja lo (lo + Z.of_nat n)) (segZ sa lo (lo + Z.of_nat n)))).
Proof.
  induction n as [|n IH]; intros lo A Hlo Hja Hsa.
  - cbn. unfold segZ. replace (Z.to_nat (lo + Z.of_nat 0 - lo)) with 0%nat by lia.
    cbn. rewrite app_nil_r. reflexivity.
  - rewrite seqZ_cons by lia. cbn [for_each].
    destruct (lookup_lt_is_Some_2 ja (Z.to_nat lo)) as [c Hc]; [lia|].
    destruct (lookup_lt_is_Some_2 sa (Z.to_nat lo)) as [v Hv]; [lia|].
    rewrite (rdZ_Some ja lo c Hlo Hc). cbn [mbind result_bind].
    rewrite (rdZ_Some sa lo v Hlo Hv). cbn [mbind result_bind].
    replace (Z.pred (Z.of_nat (S n))) with (Z.of_nat n) by lia.
    rewrite (IH (Z.succ lo)) by lia.
    rewrite (segZ_app ja lo (lo + 1) (lo + Z.of_nat (S n))) by lia.
    rewrite (segZ_app sa lo (lo + 1) (lo + Z.of_nat (S n))) by lia.
    rewrite (segZ_one ja lo c Hlo Hc), (segZ_one sa lo v Hlo Hv).
    cbn. rewrite <- app_assoc. cbn.
    replace (Z.succ lo + Z.of_nat n) with (lo + Z.of_nat (S n)) by lia.
    replace (Z.succ lo) with (lo + 1) by lia.
    reflexivity.
Qed.

Lemma zth_ok (xs : list Z) (i : Z) :
  0 ≤ i < Z.of_nat (length xs) → xs !! Z.to_nat i = Some (zth xs i).
Proof.
  intros Hi. unfold zth.
  destruct (lookup_lt_is_Some_2 xs (Z.to_nat i)) as [x ->]; [lia|]. reflexivity.
Qed.

(** Row pointers that do not decrease step by step do not decrease. *)
Lemma csr_monotone (size : Z) ia ja sa (i j : Z) :
  csr_well_formed size ia ja sa → 0 ≤ i → i ≤ j → j ≤ size → zth ia i ≤ zth ia j.
Proof.
  intros (_ & _ & _ & Hmono & _) Hi Hij Hj.
  replace j with (i + Z.of_nat (Z.to_nat (j - i))) in * by lia.
  induction (Z.to_nat (j - i)) as [|n IH].
  - replace (i + Z.of_nat 0) with i by lia. lia.
  - etransitivity; [apply IH; lia|].
    replace (i + Z.of_nat (S n)) with (i + Z.of_nat n + 1) by lia.
    apply Hmono. lia.
Qed.

(** On a well-formed matrix no read leaves the arrays, and the calls are
    those of the rows, in order. *)
Lemma to_petsc_mat_calls (size nonzeros : Z) ia ja sa A :
  csr_well_formed size ia ja sa →
  to_petsc_mat size nonzeros ia ja sa A = Ok (A ++ (seqZ 0 size ≫= row_calls ia ja sa)).
Proof.
  intros Hwf. pose proof Hwf as (Hsize & Hlen & H0 & Hmono & Hja & Hsa & Hint).
  unfold to_petsc_mat.
  rewrite (for_each_ok _ _ (fun A i => A ++ row_calls ia ja sa i)).
  - rewrite (fold_left_append (row_calls ia ja sa)). reflexivity.
  - intros i A' Hi. apply elem_of_seqZ in Hi.
    rewrite (rdZ_zth ia (i + 1)) by lia. cbn [mbind result_bind].
    rewrite (rdZ_zth ia i) by lia. cbn [mbind result_bind].
    pose proof (csr_monotone size ia ja sa 0 i Hwf) as Hlo.
    pose proof (csr_monotone size ia ja sa (i + 1) size Hwf) as Hhi.
    specialize (Hmono i). unfold INT_MIN, INT_MAX in *.
    destruct (Z.leb_spec (-2147483648) (zth ia (i + 1) - zth ia i)); [|lia].
    destruct (Z.leb_spec (zth ia (i + 1) - zth ia i) 2147483647); [|lia].
    cbn [andb negb]. unfold row_calls.
    destruct (Z.eqb_spec (zth ia (i + 1) - zth ia i) 0) as [Heq|Hne].
    + rewrite app_nil_r. reflexivity.
    + replace (zth ia (i + 1) - zth ia i)
        with (Z.of_nat (Z.to_nat (zth ia (i + 1) - zth ia i))) by lia.
      rewrite to_petsc_mat_row by lia. cbn [mbind result_bind].
      replace (zth ia i + Z.of_nat (Z.to_nat (zth ia (i + 1) - zth ia i)))
        with (zth ia (i + 1)) by lia.
      rewrite <- app_assoc. reflexivity.
Qed.

Lemma setCalls_app A A' : setCalls (A ++ A') = setCalls A ++ setCalls A'.
Proof. apply omap_app. Qed.

Lemma setCalls_row (i : Z) (l : list (Z * F)) :
  setCalls ((fun cv => MatSetValues i cv.1 cv.2) <$> l) = (fun cv => (i, cv.1, cv.2)) <$> l.
Proof.
  induction l as [|cv l IH]; [reflexivity|]. cbn. f_equal. exact IH.
Qed.

Lemma assemblies_app A A' : (assemblies (A ++ A') = assemblies A + assemblies A')%nat.
Proof. unfold assemblies. rewrite filter_app, length_app. reflexivity. Qed.

Lemma assemblies_row (i : Z) (l : list (Z * F)) :
  assemblies ((fun cv => MatSetValues i cv.1 cv.2) <$> l) = 0%nat.
Proof.
  induction l as [|cv l IH]; [reflexivity|]. rewrite fmap_cons.
  unfold assemblies in *. rewrite filter_cons_False by (cbn; discriminate). exact IH.
Qed.

Lemma segZ_empty {A : Type} (xs : list A) (lo hi : Z) : hi ≤ lo → segZ xs lo hi = [].
Proof.
  intros Hle. unfold segZ. replace (Z.to_nat (hi - lo)) with 0%nat by lia. apply take_0.
Qed.

Lemma row_calls_set ia ja sa (i : Z) :
  zth ia i ≤ zth ia (i + 1) →
  setCalls (row_calls ia ja sa i)
  = (fun cv => (i, cv.1, cv.2)) <$> segZ (zip ja sa) (zth ia i) (zth ia (i + 1)).
Proof.
  intros Hle. unfold row_calls.
  destruct (Z.eqb_spec (zth ia (i + 1) - zth ia i) 0) as [Heq|Hne].
  - rewrite segZ_empty by lia. reflexivity.
  - rewrite setCalls_app, setCalls_row, segZ_zip. cbn. rewrite app_nil_r. reflexivity.
Qed.

Lemma row_calls_assemblies ia ja sa (i : Z) :
  assemblies (row_calls ia ja sa i)
  = if decide (zth ia (i + 1) - zth ia i = 0) then 0%nat else 1%nat.
Proof.
  unfold row_calls.
  destruct (Z.eqb_spec (zth ia (i + 1) - zth ia i) 0) as [Heq|Hne].
  - rewrite decide_True by exact Heq. reflexivity.
  - rewrite decide_False by exact Hne. rewrite assemblies_app, assemblies_row. reflexivity.
Qed.

(** The calls for the first [n] rows. *)
Lemma to_petsc_mat_rows (size : Z) ia ja sa (n : nat) :
  csr_well_formed size ia ja sa →
  Z.of_nat n ≤ size →
  let calls := seqZ 0 (Z.of_nat n) ≫= row_calls ia ja sa in
  (fun e => (e.1.2, e.2)) <$> setCalls calls
  = segZ (zip ja sa) (zth ia 0) (zth ia (Z.of_nat n)) ∧
  (∀ (k : nat) r c v, setCalls calls !! k = Some (r, c, v) →
     0 ≤ r < Z.of_nat n ∧ zth ia r ≤ zth ia 0 + Z.of_nat k < zth ia (r + 1)) ∧
  assemblies calls
  = length (filter (fun i => zth ia i < zth ia (i + 1)) (seqZ 0 (Z.of_nat n))) ∧
  (calls = [] ∨ ∃ before, calls = before ++ [MatAssemblyBegin; MatAssemblyEnd]).
Proof.
  intros Hwf. pose proof Hwf as (Hsize & Hlen & H0 & Hmono & Hja & Hsa & Hint).
  induction n as [|n IH]; intros Hn calls; subst calls.
  - change (Z.of_nat 0) with 0. rewrite segZ_empty by lia. cbn. split; [reflexivity|].
    split; [intros k r c v Hk; discriminate Hk|]. split; [reflexivity|]. left. reflexivity.
  - destruct IH as (Hproj & Hrows & Hasm & Hend); [lia|].
    rewrite seqZ_S, bind_app. cbn [mbind list_bind]. rewrite app_nil_r, Z.add_0_l.
    set (calls := seqZ 0 (Z.of_nat n) ≫= row_calls ia ja sa) in *.
    pose proof (csr_monotone size ia ja sa 0 (Z.of_nat n) Hwf) as Hlo.
    pose proof (csr_monotone size ia ja sa (Z.of_nat n + 1) size Hwf) as Hhi.
    pose proof (Hmono (Z.of_nat n)) as Hstep.
    replace (Z.of_nat (S n)) with (Z.of_nat n + 1) by lia.
    assert (Hlenset : Z.of_nat (length (setCalls calls)) = zth ia (Z.of_nat n) - zth ia 0).
    { rewrite <- (length_fmap (fun e => (e.1.2, e.2))), Hproj.
      apply segZ_length; [lia|lia|]. rewrite length_zip. lia. }
    rewrite setCalls_app, row_calls_set by lia.
    split; [|split; [|split]].
    + rewrite fmap_app, Hproj, <- list_fmap_compose.
      rewrite (segZ_app (zip ja sa) (zth ia 0) (zth ia (Z.of_nat n))
                 (zth ia (Z.of_nat n + 1))) by lia.
      f_equal. etransitivity; [|apply list_fmap_id].
      apply list_fmap_ext. intros j [c v] _. reflexivity.
    + intros k r c v Hk.
      destruct (decide (k < length (setCalls calls))%nat) as [Hin|Hout].
      * rewrite lookup_app_l in Hk by exact Hin.
        destruct (Hrows k r c v Hk) as [Hr Hpos]. split; [lia|exact Hpos].
      * rewrite lookup_app_r in Hk by lia. rewrite list_lookup_fmap in Hk.
        destruct (segZ (zip ja sa) _ _ !! _) as [[c' v']|] eqn:Hseg; [|discriminate].
        cbn in Hk. injection Hk as <- <- <-.
        pose proof (lookup_lt_Some _ _ _ Hseg) as Hlt.
        assert (Hseglen : Z.of_nat (length (segZ (zip ja sa) (zth ia (Z.of_nat n))
                                             (zth ia (Z.of_nat n + 1))))
                          = zth ia (Z.of_nat n + 1) - zth ia (Z.of_nat n)).
        { apply segZ_length; [lia|lia|]. rewrite length_zip. lia. }
        split; lia.
    + rewrite assemblies_app, row_calls_assemblies, filter_app, length_app, Hasm.
      f_equal. destruct (decide (zth ia (Z.of_nat n + 1) - zth ia (Z.of_nat n) = 0)).
      * rewrite filter_cons_False by lia. reflexivity.
      * rewrite filter_cons_True by lia. reflexivity.
    + unfold row_calls.
      destruct (Z.eqb_spec (zth ia (Z.of_nat n + 1) - zth ia (Z.of_nat n)) 0).
      * rewrite app_nil_r. exact Hend.
      * right. eexists. rewrite app_assoc. reflexivity.
Qed.

(** On a well-formed CSR matrix [to_petsc_mat] returns, having added to
    the calls made on the matrix before: the stored entries are set in
    storage order, each once, the column and value of the [k]-th call being
    [ja[ia[0] + k]] and [sa[ia[0] + k]] and its row the one whose range of
    [ia] holds [ia[0] + k]; [nonzeros] plays no role. *)
Theorem to_petsc_mat_entries (size nonzeros : Z) ia ja sa A :
  csr_well_formed size ia ja sa →
  ∃ calls,
    to_petsc_mat size nonzeros ia ja sa A = Ok (A ++ calls) ∧
    (fun e => (e.1.2, e.2)) <$> setCalls calls
    = zip (segZ ja (zth ia 0) (zth ia size)) (segZ sa (zth ia 0) (zth ia size)) ∧
    (∀ (k : nat) r c v, setCalls calls !! k = Some (r, c, v) →
       0 ≤ r < size ∧ zth ia r ≤ zth ia 0 + Z.of_nat k < zth ia (r + 1)).
Proof.
  intros Hwf. exists (seqZ 0 size ≫= row_calls ia ja sa).
  split; [apply to_petsc_mat_calls; exact Hwf|].
  pose proof Hwf as (Hsize & _).
  destruct (to_petsc_mat_rows size ia ja sa (Z.to_nat size) Hwf) as (Hproj & Hrows & _);
    [lia|].
  rewrite Z2Nat.id in * by lia.
  split; [rewrite Hproj; apply segZ_zip|exact Hrows].
Qed.

(** On a well-formed CSR matrix, the matrix is assembled once for every
    row that has an entry, after the entries of that row.  With no entry at
    all, [to_petsc_mat] makes no call: the matrix is handed on without ever
    being assembled; otherwise the last two calls are an assembly, so no
    entry is left unassembled. *)
Theorem to_petsc_mat_assembly (size nonzeros : Z) ia ja sa A :
  csr_well_formed size ia ja sa →
  ∃ calls,
    to_petsc_mat size nonzeros ia ja sa A = Ok (A ++ calls) ∧
    assemblies calls = length (filter (fun i => zth ia i < zth ia (i + 1)) (seqZ 0 size)) ∧
    (calls = [] ↔ zth ia 0 = zth ia size) ∧
    (calls ≠ [] → ∃ before, calls = before ++ [MatAssemblyBegin; MatAssemblyEnd]).
Proof.
  intros Hwf. exists (seqZ 0 size ≫= row_calls ia ja sa).
  split; [apply to_petsc_mat_calls; exact Hwf|].
  pose proof Hwf as (Hsize & Hlen & H0 & Hmono & Hja & Hsa & Hint).
  destruct (to_petsc_mat_rows size ia ja sa (Z.to_nat size) Hwf)
    as (Hproj & _ & Hasm & Hend); [lia|].
  rewrite Z2Nat.id in * by lia.
  set (calls := seqZ 0 size ≫= row_calls ia ja sa) in *.
  pose proof (csr_monotone size ia ja sa 0 size Hwf) as Hall.
  split; [exact Hasm|]. split; [split|].
  - intros Hnil. rewrite Hnil in Hproj. cbn in Hproj.
    assert (Hl : Z.of_nat (length (segZ (zip ja sa) (zth ia 0) (zth ia size)))
                 = zth ia size - zth ia 0).
    { apply segZ_length; [lia|lia|]. rewrite length_zip. lia. }
    rewrite <- Hproj in Hl. cbn in Hl. lia.
  - intros Heq.
    assert (Hzero : assemblies calls = 0%nat).
    { rewrite Hasm. apply length_zero_iff_nil. apply list_eq. intros k.
      rewrite lookup_nil. apply eq_None_not_Some. intros [i Hi].
      pose proof (list_elem_of_lookup_2 _ _ _ Hi) as Hin.
      apply list_elem_of_filter in Hin as [Hlt Hin]. apply elem_of_seqZ in Hin.
      pose proof (csr_monotone size ia ja sa 0 i Hwf).
      pose proof (csr_monotone size ia ja sa (i + 1) size Hwf). lia. }
    destruct Hend as [Hnil|[before Hbefore]]; [exact Hnil|].
    rewrite Hbefore, !assemblies_app in Hzero.
    assert (Hone : assemblies (F:=F) [MatAssemblyBegin; MatAssemblyEnd] = 1%nat)
      by reflexivity.
    rewrite Hone in Hzero. lia.
  - intros Hne. destruct Hend as [Hnil|Hend]; [congruence|exact Hend].
Qed.

End PetscMatrix.

(** ** [solve] *)

Section PetscSolveTheorems.
Context {F : Type}.
Variable petsc : Petsc F.

(** [solve] with its local definitions put in place. *)
Lemma solve_unfold (self : LinearSolverPetsc.t F) (size nonzeros : Z)
    (ia ja : list Z) (sa rhs solution : list F) :
  solve petsc self size nonzeros ia ja sa rhs solution
  = (ksp_type ← KSPTypeMap.find (KSPTypeMap.new (ksp_type_ self)) (ksp_type_ self);
     pc_type ← PCTypeMap.find (PCTypeMap.new (pc_type_ self)) (pc_type_ self);
     t ← new_OEM_DATA petsc size;
     A ← to_petsc_mat size nonzeros ia ja sa (OEM_DATA.A t);
     t_rhs ← to_petsc_vec rhs (OEM_DATA.rhs t);
     t ← solve_system petsc (OEM_DATA.mk t_rhs (OEM_DATA.solution t) A) ksp_type pc_type
           (rtol_ self) (atol_ self) (dtol_ self) (maxits_ self) (ksp_view_ self);
     solution ← from_petsc_vec solution (OEM_DATA.solution t);
     Ok (mkLinearSolverReport true, solution)).
Proof. reflexivity. Qed.

(** [solve] builds each table with the requested name as the default of
    the table, so the default never stands in for a name that is not
    listed: with such a solver or preconditioner name [solve] throws, before
    any PETSc object is made and whatever the system. *)
Theorem solve_unknown_type_throws (self : LinearSolverPetsc.t F) (size nonzeros : Z)
    (ia ja : list Z) (sa rhs solution : list F) :
  ksp_type_ self ∉ KSP_names ∨ pc_type_ self ∉ PC_names →
  solve petsc self size nonzeros ia ja sa rhs solution = Thrown.
Proof.
  intros Hunknown. rewrite solve_unfold.
  destruct (KSPTypeMap_find_cases (ksp_type_ self) (ksp_type_ self)) as [Hksp|[ksp Hksp]];
    rewrite Hksp; cbn [mbind result_bind]; [reflexivity|].
  destruct Hunknown as [Hk|Hp].
  - assert (Hthrown : KSPTypeMap.find (KSPTypeMap.new (ksp_type_ self)) (ksp_type_ self)
                      = Thrown) by (apply KSPTypeMap_find_Thrown; split; exact Hk).
    congruence.
  - rewrite (proj2 (PCTypeMap_find_Thrown (pc_type_ self) (pc_type_ self)))
      by (split; exact Hp).
    reflexivity.
Qed.

(** Whenever [solve] returns, the report says [converged], whatever reason,
    iteration count and residual PETSc gave for the solve; and the caller's
    [solution] array is not read: its first entries are replaced by the
    vector [x] PETSc computed, and [x] and the report are the same for any
    other contents of [solution]. *)
Theorem solve_outcome (self : LinearSolverPetsc.t F) (size nonzeros : Z)
    (ia ja : list Z) (sa rhs solution : list F) (rep : LinearSolverReport) (out : list F) :
  solve petsc self size nonzeros ia ja sa rhs solution = Ok (rep, out) →
  converged rep = true ∧
  ∃ x, length x ≤ length solution ∧
       out = x ++ drop (length x) solution ∧
       ∀ solution', length x ≤ length solution' →
         solve petsc self size nonzeros ia ja sa rhs solution'
         = Ok (rep, x ++ drop (length x) solution').
Proof.
  rewrite solve_unfold.
  destruct (KSPTypeMap.find (KSPTypeMap.new (ksp_type_ self)) (ksp_type_ self))
    as [ksp| | |] eqn:Hksp; cbn [mbind result_bind]; try discriminate.
  destruct (PCTypeMap.find (PCTypeMap.new (pc_type_ self)) (pc_type_ self))
    as [pc| | |] eqn:Hpc; cbn [mbind result_bind]; try discriminate.
  destruct (new_OEM_DATA petsc size) as [t| | |] eqn:Ht; cbn [mbind result_bind];
    try discriminate.
  destruct (to_petsc_mat size nonzeros ia ja sa (OEM_DATA.A t)) as [A| | |] eqn:HA;
    cbn [mbind result_bind]; try discriminate.
  destruct (to_petsc_vec rhs (OEM_DATA.rhs t)) as [t_rhs| | |] eqn:Hrhs;
    cbn [mbind result_bind]; try discriminate.
  destruct (solve_system petsc (OEM_DATA.mk t_rhs (OEM_DATA.solution t) A) ksp pc
              (rtol_ self) (atol_ self) (dtol_ self) (maxits_ self) (ksp_view_ self))
    as [t'| | |] eqn:Hsolve; cbn [mbind result_bind]; try discriminate.
  unfold from_petsc_vec.
  destruct (OEM_DATA.solution t') as [x|] eqn:Hx; cbn [mbind result_bind];
    try discriminate.
  destruct (decide (length x ≤ length solution)) as [Hle|Hgt]; cbn [mbind result_bind];
    try discriminate.
  intros [= <- <-]. split; [reflexivity|].
  exists x. split; [exact Hle|]. split; [reflexivity|].
  intros solution' Hle'. rewrite solve_unfold, Hksp, Hpc. cbn [mbind result_bind].
  rewrite Ht. cbn [mbind result_bind]. rewrite HA. cbn [mbind result_bind]. rewrite Hrhs. cbn [mbind result_bind].
  rewrite Hsolve. cbn [mbind result_bind]. unfold from_petsc_vec.
  rewrite Hx, decide_True by exact Hle'. reflexivity.
Qed.

End PetscSolveTheorems.

Lemma sample_csr_well_formed : csr_well_formed 3 sample_ia sample_ja sample_sa.
Proof.
  unfold csr_well_formed. split; [lia|]. split; [reflexivity|]. split; [reflexivity|].
  split.
  - intros i Hi. assert (Hcases : i = 0%Z ∨ i = 1%Z ∨ i = 2%Z) by lia.
    destruct Hcases as [-> | [-> | ->]]; vm_compute; discriminate.
  - repeat split; vm_compute; discriminate.
Qed.

(** [petsc_vec_round_trip] on a vector of three entries. *)
Lemma petsc_vec_round_trip_witness :
  ∃ vec', to_petsc_vec [1; 2; 3]%float (Some [0; 0; 0]%float) = Ok (Some vec') ∧
          length vec' = 3 ∧
          from_petsc_vec [7; 8; 9; 10]%float (Some vec') = Ok [1; 2; 3; 10]%float.
Proof.
  destruct (petsc_vec_round_trip [1; 2; 3]%float [7; 8; 9; 10]%float [0; 0; 0]%float)
    as (vec' & Hto & Hlen & Hfrom & _); [cbn; lia|cbn; lia|].
  exists vec'. split; [exact Hto|]. split; [exact Hlen|exact Hfrom].
Defined.

(** [to_petsc_mat_entries] on the sample matrix. *)
Lemma to_petsc_mat_entries_witness :
  ∃ calls,
    to_petsc_mat 3 0 sample_ia sample_ja sample_sa [] = Ok ([] ++ calls) ∧
    (fun e => (e.1.2, e.2)) <$> setCalls calls = zip sample_ja sample_sa.
Proof.
  destruct (to_petsc_mat_entries 3 0 sample_ia sample_ja sample_sa [] sample_csr_well_formed)
    as (calls & Hrun & Hproj & _).
  exists calls. split; [exact Hrun|exact Hproj].
Defined.

(** [to_petsc_mat_assembly] on the sample matrix, which has two rows with
    entries. *)
Lemma to_petsc_mat_assembly_witness :
  ∃ calls,
    to_petsc_mat 3 0 sample_ia sample_ja sample_sa [] = Ok ([] ++ calls) ∧
    assemblies calls = 2.
Proof.
  destruct (to_petsc_mat_assembly 3 0 sample_ia sample_ja sample_sa [] sample_csr_well_formed)
    as (calls & Hrun & Hasm & _).
  exists calls. split; [exact Hrun|exact Hasm].
Defined.

(** [solve_unknown_type_throws]: ["bicg"] is not a listed name (the table
    has ["bicgs"]). *)
Lemma solve_unknown_type_throws_witness :
  solve sample_petsc (LinearSolverPetsc.mk "bicg" "sor" 0%Z 0%float 0%float 0%float 10%Z)
    3 5 sample_ia sample_ja sample_sa [1; 2; 3]%float [0; 0; 0]%float
  = Thrown.
Proof.
  apply solve_unknown_type_throws. left. cbn [ksp_type_]. unfold KSP_names.
  intros Hin. repeat (apply elem_of_cons in Hin as [Hin|Hin]; [discriminate Hin|]).
  apply elem_of_nil in Hin. exact Hin.
Defined.

(** [solve_outcome] with a PETSc whose solve reports divergence. *)
Lemma solve_outcome_witness :
  converged (mkLinearSolverReport true) = true ∧
  ∃ x, length x ≤ 3 ∧
       [1; 2; 3]%float = x ++ drop (length x) [9; 9; 9]%float ∧
       ∀ solution', length x ≤ length solution' →
         solve sample_petsc sample_solver 3 5 sample_ia sample_ja sample_sa [1; 2; 3]%float
           solution'
         = Ok (mkLinearSolverReport true, x ++ drop (length x) solution').
Proof.
  apply (solve_outcome sample_petsc sample_solver 3 5 sample_ia sample_ja sample_sa
           [1; 2; 3]%float [9; 9; 9]%float).
  vm_compute. reflexivity.
Defined.

End PetscSolver.

(** ** Ownership of the grids in [EclCpGridManager] *)

Section GridOwnership.
Import EclCpGridManager.
Context {CpGrid EclipseGrid Porv : Type}.
Variable new_CpGrid : CpGrid.
Variable processEclipseFormat : CpGrid → EclipseGrid → bool → bool → bool → Porv → CpGrid.
Implicit Types (h : store CpGrid) (self : t).

Lemma store_fresh h : h !! fresh (dom h) = None.
Proof. apply not_elem_of_dom. apply is_fresh. Qed.

Lemma delete_pointer_live h (a : positive) (o : object CpGrid) :
  h !! a = Some o → delete_pointer h (Pointer (Ptr a)) = Ok (delete a h).
Proof. intros Ha. cbn. rewrite Ha. reflexivity. Qed.

Lemma delete_pointer_null h : delete_pointer h (Pointer NULL) = Ok h.
Proof. reflexivity. Qed.

Lemma delete_pointer_dead h (a : positive) :
  h !! a = None → delete_pointer h (Pointer (Ptr a)) = Undefined.
Proof. intros Ha. cbn. rewrite Ha. reflexivity. Qed.

Lemma call_processEclipseFormat_live h (a : positive) (g0 : CpGrid) (eclGrid : EclipseGrid)
    (isPeriodic flipNormals clipZ : bool) (porv : Porv) :
  h !! a = Some (Grid g0) →
  call_processEclipseFormat processEclipseFormat h (Pointer (Ptr a)) eclGrid
    isPeriodic flipNormals clipZ porv
  = Ok (<[a := Grid (processEclipseFormat g0 eclGrid isPeriodic flipNormals clipZ porv)]> h).
Proof. intros Ha. cbn. rewrite Ha. reflexivity. Qed.

Lemma new_CartesianIndexMapper_live h (a : positive) (g0 : CpGrid) :
  h !! a = Some (Grid g0) →
  new_CartesianIndexMapper h (Pointer (Ptr a))
  = Ok (<[fresh (dom h) := CartesianIndexMapper a]> h, Pointer (Ptr (fresh (dom h)))).
Proof. intros Ha. cbn. rewrite Ha. reflexivity. Qed.

(** The store and the members [createGrids_] leaves, written out. *)
Lemma createGrids__store (eclGrid : EclipseGrid) (porv : Porv) h self :
  let g := processEclipseFormat new_CpGrid eclGrid false false false porv in
  ∃ a b m,
    a ≠ b ∧ a ≠ m ∧ b ≠ m ∧ h !! a = None ∧ h !! b = None ∧ h !! m = None ∧
    createGrids_ new_CpGrid processEclipseFormat eclGrid porv h self
    = Ok (<[m := CartesianIndexMapper b]> (<[b := Grid g]> (<[a := Grid g]> h)),
          mk (Pointer (Ptr a)) (Pointer (Ptr b)) (cartesianIndexMapper_ self)
             (Pointer (Ptr m))).
Proof.
  intros g.
  pose proof (store_fresh h) as Ha. set (a := fresh (dom h)) in *.
  pose proof (store_fresh (<[a := Grid g]> h)) as Hb.
  set (b := fresh (dom (<[a := Grid g]> h))) in *.
  assert (Hba : b ≠ a) by (intros E; rewrite E, lookup_insert_eq in Hb; discriminate).
  rewrite lookup_insert_ne in Hb by congruence.
  pose proof (store_fresh (<[b := Grid g]> (<[a := Grid g]> h))) as Hm.
  set (m := fresh (dom (<[b := Grid g]> (<[a := Grid g]> h)))) in *.
  assert (Hmb : m ≠ b) by (intros E; rewrite E, lookup_insert_eq in Hm; discriminate).
  rewrite lookup_insert_ne in Hm by congruence.
  assert (Hma : m ≠ a) by (intros E; rewrite E, lookup_insert_eq in Hm; discriminate).
  rewrite lookup_insert_ne in Hm by congruence.
  exists a, b, m. repeat (split; [congruence|]).
  unfold createGrids_, new_object. fold a.
  cbn [grid_ equilGrid_ cartesianIndexMapper_ equilCartesianIndexMapper_].
  rewrite (call_processEclipseFormat_live _ a new_CpGrid) by apply lookup_insert_eq.
  rewrite insert_insert_eq. cbn [mbind result_bind]. fold g b.
  rewrite (call_processEclipseFormat_live _ b new_CpGrid) by apply lookup_insert_eq.
  rewrite insert_insert_eq. cbn [mbind result_bind]. fold g.
  rewrite (new_CartesianIndexMapper_live _ b g) by apply lookup_insert_eq.
  cbn [mbind result_bind]. fold m.
  reflexivity.
Qed.

(** [loadBalance] when it does not abort, on a live simulation grid. *)
Lemma loadBalance_store (mpi : option (Z * Z)) h self (a : positive) (g : CpGrid) :
  (∀ mpiRank mpiSize, mpi = Some (mpiRank, mpiSize) → mpiRank ≠ 0 ∨ mpiSize ≤ 1)%Z →
  grid_ self = Pointer (Ptr a) →
  h !! a = Some (Grid g) →
  ∃ d, h !! d = None ∧
       loadBalance mpi h self
       = Some (Ok (<[d := CartesianIndexMapper a]> h,
                   mk (grid_ self) (equilGrid_ self) (Pointer (Ptr d))
                      (equilCartesianIndexMapper_ self))).
Proof.
  intros Hmpi Hgrid Ha. exists (fresh (dom h)). split; [apply store_fresh|].
  unfold loadBalance.
  assert (Hgo : match mpi with
                | Some (mpiRank, mpiSize) => (mpiRank =? 0)%Z && (1 <? mpiSize)%Z
                | None => false
                end = false).
  { destruct mpi as [[mpiRank mpiSize]|]; [|reflexivity].
    destruct (Hmpi mpiRank mpiSize eq_refl) as [Hr|Hs].
    - apply andb_false_iff. left. apply Z.eqb_neq. exact Hr.
    - apply andb_false_iff. right. apply Z.ltb_ge. exact Hs. }
  rewrite Hgo, Hgrid, (new_CartesianIndexMapper_live h a g Ha).
  reflexivity.
Qed.

Ltac live_lookup :=
  rewrite ?lookup_delete_ne by congruence;
  rewrite ?lookup_insert_ne by congruence;
  apply lookup_insert_eq.

Ltac same_store :=
  f_equal; apply map_eq; intros ?p;
  repeat (match goal with
          | |- context [delete ?x _ !! ?q] =>
              destruct (decide (q = x)) as [->|?];
              [rewrite ?lookup_delete_ne by congruence; rewrite lookup_delete_eq; congruence|
               rewrite lookup_delete_ne by congruence]
          end);
  rewrite ?lookup_insert_ne by congruence; reflexivity.

(** From an object the constructor has set up to its destruction:
    [createGrids_], then [loadBalance] (when it does not abort), then the
    destructor, with or without [releaseEquilGrid] in between, give back
    the free store as it was.  Each of the four objects is deleted exactly
    once and nothing else is touched. *)
Theorem grid_manager_lifecycle (eclGrid : EclipseGrid) (porv : Porv) (mpi : option (Z * Z)) h :
  (∀ mpiRank mpiSize, mpi = Some (mpiRank, mpiSize) → mpiRank ≠ 0 ∨ mpiSize ≤ 1)%Z →
  ∃ h1 self1 h2 self2 h3 self3,
    createGrids_ new_CpGrid processEclipseFormat eclGrid porv h constructed = Ok (h1, self1) ∧
    loadBalance mpi h1 self1 = Some (Ok (h2, self2)) ∧
    destructor h2 self2 = Ok h ∧
    releaseEquilGrid h2 self2 = Ok (h3, self3) ∧
    destructor h3 self3 = Ok h.
Proof.
  intros Hmpi.
  destruct (createGrids__store eclGrid porv h constructed)
    as (a & b & m & Hab & Ham & Hbm & Ha & Hb & Hm & Hcreate).
  set (g := processEclipseFormat new_CpGrid eclGrid false false false porv) in *.
  set (h1 := <[m := CartesianIndexMapper b]> (<[b := Grid g]> (<[a := Grid g]> h))) in *.
  destruct (loadBalance_store mpi h1
              (mk (Pointer (Ptr a)) (Pointer (Ptr b)) (cartesianIndexMapper_ constructed)
                  (Pointer (Ptr m)))
              a g Hmpi eq_refl) as (d & Hd & Hbalance).
  { unfold h1. live_lookup. }
  cbn [grid_ equilGrid_ cartesianIndexMapper_ equilCartesianIndexMapper_ constructed]
    in Hbalance.
  assert (Hdm : d ≠ m) by (intros E; rewrite E in Hd; unfold h1 in Hd;
                           rewrite lookup_insert_eq in Hd; discriminate).
  assert (Hdb : d ≠ b) by (intros E; rewrite E in Hd; unfold h1 in Hd;
                           rewrite lookup_insert_ne, lookup_insert_eq in Hd by congruence;
                           discriminate).
  assert (Hda : d ≠ a) by (intros E; rewrite E in Hd; unfold h1 in Hd;
                           rewrite !lookup_insert_ne, lookup_insert_eq in Hd by congruence;
                           discriminate).
  assert (Hdh : h !! d = None)
    by (unfold h1 in Hd; rewrite !lookup_insert_ne in Hd by congruence; exact Hd).
  eexists _, _, _, _, _, _.
  split; [exact Hcreate|]. split; [exact Hbalance|]. unfold h1. split; [|split].
  - unfold destructor.
    cbn [grid_ equilGrid_ cartesianIndexMapper_ equilCartesianIndexMapper_].
    erewrite delete_pointer_live by live_lookup. cbn [mbind result_bind].
    erewrite delete_pointer_live by live_lookup. cbn [mbind result_bind].
    erewrite delete_pointer_live by live_lookup. cbn [mbind result_bind].
    erewrite delete_pointer_live by live_lookup.
    same_store.
  - unfold releaseEquilGrid.
    cbn [grid_ equilGrid_ cartesianIndexMapper_ equilCartesianIndexMapper_].
    erewrite delete_pointer_live by live_lookup. cbn [mbind result_bind].
    erewrite delete_pointer_live by live_lookup. cbn [mbind result_bind].
    reflexivity.
  - unfold destructor.
    cbn [grid_ equilGrid_ cartesianIndexMapper_ equilCartesianIndexMapper_].
    erewrite delete_pointer_live by live_lookup. cbn [mbind result_bind].
    rewrite delete_pointer_null. cbn [mbind result_bind].
    erewrite delete_pointer_live by live_lookup. cbn [mbind result_bind].
    rewrite delete_pointer_null.
    same_store.
Qed.

(** [releaseEquilGrid] may be called again: it leaves the two members
    null, so that a second call deletes nothing and changes nothing.  After
    it the EQUIL grid and its mapper cannot be used any more (the accessors
    dereference a null pointer), while the members of the simulation grid
    are as they were. *)
Theorem releaseEquilGrid_idempotent h self h' self' :
  releaseEquilGrid h self = Ok (h', self') →
  releaseEquilGrid h' self' = Ok (h', self') ∧
  equilGrid h' self' = Undefined ∧
  equilCartesianIndexMapper h' self' = Undefined ∧
  grid_ self' = grid_ self ∧
  cartesianIndexMapper_ self' = cartesianIndexMapper_ self.
Proof.
  unfold releaseEquilGrid.
  destruct (delete_pointer h (equilGrid_ self)) as [h1| | |]; cbn [mbind result_bind];
    try discriminate.
  cbn [grid_ equilGrid_ cartesianIndexMapper_ equilCartesianIndexMapper_].
  destruct (delete_pointer h1 (equilCartesianIndexMapper_ self)) as [h2| | |];
    cbn [mbind result_bind]; try discriminate.
  intros [= <- <-]. repeat split.
Qed.

(** [loadBalance] does not delete the mapper it replaces: called twice, it
    leaves the first [CartesianIndexMapper] in the free store for good.  The
    destructor then returns, but the store it leaves holds that mapper,
    which refers to the simulation grid that is gone. *)
Theorem loadBalance_twice_leaks (eclGrid : EclipseGrid) (porv : Porv) (mpi : option (Z * Z)) h :
  (∀ mpiRank mpiSize, mpi = Some (mpiRank, mpiSize) → mpiRank ≠ 0 ∨ mpiSize ≤ 1)%Z →
  ∃ h1 self1 h2 self2 h3 self3 (d a : positive),
    createGrids_ new_CpGrid processEclipseFormat eclGrid porv h constructed = Ok (h1, self1) ∧
    loadBalance mpi h1 self1 = Some (Ok (h2, self2)) ∧
    loadBalance mpi h2 self2 = Some (Ok (h3, self3)) ∧
    cartesianIndexMapper_ self2 = Pointer (Ptr d) ∧
    grid_ self2 = Pointer (Ptr a) ∧
    h !! d = None ∧ h !! a = None ∧
    destructor h3 self3 = Ok (<[d := CartesianIndexMapper a]> h).
Proof.
  intros Hmpi.
  destruct (createGrids__store eclGrid porv h constructed)
    as (a & b & m & Hab & Ham & Hbm & Ha & Hb & Hm & Hcreate).
  set (g := processEclipseFormat new_CpGrid eclGrid false false false porv) in *.
  set (h1 := <[m := CartesianIndexMapper b]> (<[b := Grid g]> (<[a := Grid g]> h))) in *.
  destruct (loadBalance_store mpi h1
              (mk (Pointer (Ptr a)) (Pointer (Ptr b)) (cartesianIndexMapper_ constructed)
                  (Pointer (Ptr m)))
              a g Hmpi eq_refl) as (d & Hd & Hbalance).
  { unfold h1. live_lookup. }
  cbn [grid_ equilGrid_ cartesianIndexMapper_ equilCartesianIndexMapper_ constructed]
    in Hbalance.
  assert (Hdm : d ≠ m) by (intros E; rewrite E in Hd; unfold h1 in Hd;
                           rewrite lookup_insert_eq in Hd; discriminate).
  assert (Hdb : d ≠ b) by (intros E; rewrite E in Hd; unfold h1 in Hd;
                           rewrite lookup_insert_ne, lookup_insert_eq in Hd by congruence;
                           discriminate).
  assert (Hda : d ≠ a) by (intros E; rewrite E in Hd; unfold h1 in Hd;
                           rewrite !lookup_insert_ne, lookup_insert_eq in Hd by congruence;
                           discriminate).
  assert (Hdh : h !! d = None)
    by (unfold h1 in Hd; rewrite !lookup_insert_ne in Hd by congruence; exact Hd).
  set (h2 := <[d := CartesianIndexMapper a]> h1) in *.
  destruct (loadBalance_store mpi h2
              (mk (Pointer (Ptr a)) (Pointer (Ptr b)) (Pointer (Ptr d)) (Pointer (Ptr m)))
              a g Hmpi eq_refl) as (e & He & Hagain).
  { unfold h2, h1. live_lookup. }
  cbn [grid_ equilGrid_ cartesianIndexMapper_ equilCartesianIndexMapper_] in Hagain.
  assert (Hed : e ≠ d) by (intros E; rewrite E in He; unfold h2 in He;
                           rewrite lookup_insert_eq in He; discriminate).
  assert (Hem : e ≠ m) by (intros E; rewrite E in He; unfold h2, h1 in He;
                           rewrite lookup_insert_ne, lookup_insert_eq in He by congruence;
                           discriminate).
  assert (Heb : e ≠ b) by (intros E; rewrite E in He; unfold h2, h1 in He;
                           rewrite !lookup_insert_ne, lookup_insert_eq in He by congruence;
                           discriminate).
  assert (Hea : e ≠ a) by (intros E; rewrite E in He; unfold h2, h1 in He;
                           rewrite !lookup_insert_ne, lookup_insert_eq in He by congruence;
                           discriminate).
  assert (Heh : h !! e = None)
    by (unfold h2, h1 in He; rewrite !lookup_insert_ne in He by congruence; exact He).
  eexists _, _, _, _, _, _, d, a.
  split; [exact Hcreate|]. split; [exact Hbalance|]. split; [exact Hagain|].
  split; [reflexivity|]. split; [reflexivity|]. split; [exact Hdh|]. split; [exact Ha|].
  unfold destructor, h2, h1.
  cbn [grid_ equilGrid_ cartesianIndexMapper_ equilCartesianIndexMapper_].
  erewrite delete_pointer_live by live_lookup. cbn [mbind result_bind].
  erewrite delete_pointer_live by live_lookup. cbn [mbind result_bind].
  erewrite delete_pointer_live by live_lookup. cbn [mbind result_bind].
  erewrite delete_pointer_live by live_lookup.
  f_equal. apply map_eq. intros p.
  destruct (decide (p = b)) as [->|?]; [rewrite lookup_delete_eq, lookup_insert_ne by congruence; congruence|].
  rewrite lookup_delete_ne by congruence.
  destruct (decide (p = a)) as [->|?]; [rewrite lookup_delete_eq, lookup_insert_ne by congruence; congruence|].
  rewrite lookup_delete_ne by congruence.
  destruct (decide (p = m)) as [->|?]; [rewrite lookup_delete_eq, lookup_insert_ne by congruence; congruence|].
  rewrite lookup_delete_ne by congruence.
  destruct (decide (p = e)) as [->|?]; [rewrite lookup_delete_eq, lookup_insert_ne by congruence; congruence|].
  rewrite lookup_delete_ne by congruence.
  rewrite lookup_insert_ne by congruence.
  destruct (decide (p = d)) as [->|?]; [rewrite !lookup_insert_eq; reflexivity|].
  rewrite !lookup_insert_ne by congruence. reflexivity.
Qed.

(** [createGrids_] makes two grid objects, not one: they hold the same
    data, at different addresses, and the mapper it makes refers to the
    EQUIL grid.  So [releaseEquilGrid] leaves the simulation grid usable. *)
Theorem createGrids_separate_grids (eclGrid : EclipseGrid) (porv : Porv) h self :
  ∃ h1 self1 h2 self2,
    createGrids_ new_CpGrid processEclipseFormat eclGrid porv h self = Ok (h1, self1) ∧
    grid h1 self1 = Ok (processEclipseFormat new_CpGrid eclGrid false false false porv) ∧
    equilGrid h1 self1 = grid h1 self1 ∧
    grid_ self1 ≠ equilGrid_ self1 ∧
    (∃ b, equilGrid_ self1 = Pointer (Ptr b) ∧ equilCartesianIndexMapper h1 self1 = Ok b) ∧
    releaseEquilGrid h1 self1 = Ok (h2, self2) ∧
    grid h2 self2 = grid h1 self1.
Proof.
  destruct (createGrids__store eclGrid porv h self)
    as (a & b & m & Hab & Ham & Hbm & Ha & Hb & Hm & Hcreate).
  set (g := processEclipseFormat new_CpGrid eclGrid false false false porv) in *.
  assert (Hgrid : ∀ h', h' !! a = Some (Grid g) → ∀ x y z,
            grid h' (mk (Pointer (Ptr a)) x y z) = Ok g).
  { intros h' Hh' x y z. unfold grid, deref_grid. cbn [grid_]. rewrite Hh'. reflexivity. }
  eexists _, _, _, _. split; [exact Hcreate|].
  split; [apply Hgrid; live_lookup|]. split; [|split; [|split; [|split]]].
  - rewrite Hgrid by live_lookup. unfold equilGrid, deref_grid. cbn [equilGrid_].
    rewrite lookup_insert_ne, lookup_insert_eq by congruence. reflexivity.
  - cbn [grid_ equilGrid_]. congruence.
  - exists b. split; [reflexivity|].
    unfold equilCartesianIndexMapper, deref_mapper. cbn [equilCartesianIndexMapper_].
    rewrite lookup_insert_eq. reflexivity.
  - unfold releaseEquilGrid.
    cbn [grid_ equilGrid_ cartesianIndexMapper_ equilCartesianIndexMapper_].
    erewrite delete_pointer_live by live_lookup. cbn [mbind result_bind].
    erewrite delete_pointer_live by live_lookup. cbn [mbind result_bind].
    reflexivity.
  - rewrite !Hgrid; [reflexivity|live_lookup|].
    rewrite !lookup_delete_ne, !lookup_insert_ne by congruence. apply lookup_insert_eq.
Qed.

End GridOwnership.

Section GridExamples.
Import EclCpGridManager.

(** [grid_manager_lifecycle] on rank 1 of a run of four processes, from an
    empty free store. *)
Lemma grid_manager_lifecycle_witness :
  ∃ h1 self1 h2 self2 h3 self3,
    createGrids_ [] sample_processEclipseFormat 2%Z [1; 2]%Z ∅ constructed = Ok (h1, self1) ∧
    loadBalance (Some (1, 4)%Z) h1 self1 = Some (Ok (h2, self2)) ∧
    destructor h2 self2 = Ok ∅ ∧
    releaseEquilGrid h2 self2 = Ok (h3, self3) ∧
    destructor h3 self3 = Ok ∅.
Proof.
  apply (grid_manager_lifecycle [] sample_processEclipseFormat 2%Z [1; 2]%Z (Some (1, 4)%Z) ∅).
  intros mpiRank mpiSize [= <- <-]. left. discriminate.
Defined.

(** [releaseEquilGrid_idempotent] on the sample manager. *)
Lemma releaseEquilGrid_idempotent_witness :
  let h' : store (list Z) := <[1%positive := Grid [2; 4]%Z]> ∅ in
  let self' := mk (Pointer (Ptr 1)) (Pointer NULL) Indeterminate (Pointer NULL) in
  releaseEquilGrid h' self' = Ok (h', self') ∧
  equilGrid h' self' = Undefined ∧
  equilCartesianIndexMapper h' self' = Undefined ∧
  grid_ self' = grid_ sample_grid_manager ∧
  cartesianIndexMapper_ self' = cartesianIndexMapper_ sample_grid_manager.
Proof.
  intros h' self'.
  apply (releaseEquilGrid_idempotent sample_grid_store sample_grid_manager h' self').
  vm_compute. reflexivity.
Defined.

(** [loadBalance_twice_leaks] in a build without MPI. *)
Lemma loadBalance_twice_leaks_witness :
  ∃ h1 self1 h2 self2 h3 self3 (d a : positive),
    createGrids_ [] sample_processEclipseFormat 2%Z [1; 2]%Z ∅ constructed = Ok (h1, self1) ∧
    loadBalance None h1 self1 = Some (Ok (h2, self2)) ∧
    loadBalance None h2 self2 = Some (Ok (h3, self3)) ∧
    cartesianIndexMapper_ self2 = Pointer (Ptr d) ∧
    grid_ self2 = Pointer (Ptr a) ∧
    (∅ : store (list Z)) !! d = None ∧ (∅ : store (list Z)) !! a = None ∧
    destructor h3 self3 = Ok (<[d := CartesianIndexMapper a]> ∅).
Proof.
  apply (loadBalance_twice_leaks [] sample_processEclipseFormat 2%Z [1; 2]%Z None ∅).
  intros mpiRank mpiSize Hmpi. discriminate Hmpi.
Defined.

End GridExamples.
